(** * protokit: descriptor-tree assembly, shallow embedding and properties

    The development follows the Go sources of the package:
    the entity types and their accessors (types), the builder context
    (context) and the parser with its batch driver (parser).  The sources
    hold two revisions of the types and of the parser; the revision is an
    explicit argument [rev] of the few functions in which they differ. *)

From Stdlib Require Import Ascii.
From stdpp Require Import base strings list gmap pretty sorting.

Set Warnings "-register-all".

(** ** Go strings *)

(** [strings.HasPrefix(s, p)]. *)
Definition HasPrefix (s p : string) : bool := String.prefix p s.

(** [strings.Contains(s, substr)]: some suffix of [s] starts with [substr]. *)
Fixpoint Contains (s substr : string) : bool :=
  HasPrefix s substr ||
  match s with
  | EmptyString => false
  | String _ s' => Contains s' substr
  end.

(** [strings.Split(s, ".")]: the pieces between the dots; never empty. *)
Fixpoint Split_dot (s : string) : list string :=
  match s with
  | EmptyString => [EmptyString]
  | String c s' =>
      if Ascii.eqb c "."%char then EmptyString :: Split_dot s'
      else match Split_dot s' with
           | piece :: rest => String c piece :: rest
           | [] => [String c EmptyString]
           end
  end.

(** [parts[len(parts)-1]] for the result of a split. *)
Definition last_part (parts : list string) : string := List.last parts "".

(** [fmt.Sprintf("%s.%s", a, b)]. *)
Definition Sprintf_s_s (a b : string) : string := a +:+ "." +:+ b.

(** [fmt.Sprintf("%d.%d", tag, i)]. *)
Definition Sprintf_d_d (tag i : nat) : string := pretty tag +:+ "." +:+ pretty i.

(** [fmt.Sprintf("%s.%d.%d", prefix, tag, i)]. *)
Definition Sprintf_s_d_d (prefix : string) (tag i : nat) : string :=
  prefix +:+ "." +:+ pretty tag +:+ "." +:+ pretty i.

(** Go's [<] on strings: bytewise lexicographic order. *)
Definition string_lt (a b : string) : bool := String.ltb a b.

(** ** Loops with an index: [for i, x := range xs { out[i] = body(i, x) }] *)

Section range_loop.
Context {A B : Type} (body : nat → A → B).

Fixpoint range_from (i : nat) (xs : list A) : list B :=
  match xs with
  | [] => []
  | x :: rest => body i x :: range_from (S i) rest
  end.

Definition range_loop (xs : list A) : list B := range_from 0 xs.
End range_loop.

(** ** Comment tags (the constants of the parser) *)

Definition packageCommentPath : nat := 2.
Definition messageCommentPath : nat := 4.
Definition enumCommentPath : nat := 5.
Definition serviceCommentPath : nat := 6.
Definition extensionCommentPath : nat := 7.
Definition syntaxCommentPath : nat := 12.

Definition messageFieldCommentPath : nat := 2.
Definition messageMessageCommentPath : nat := 3.
Definition messageEnumCommentPath : nat := 4.
Definition messageExtensionCommentPath : nat := 6.

Definition enumValueCommentPath : nat := 2.
Definition serviceMethodCommentPath : nat := 2.

(** ** The raw descriptors (descriptorpb), as far as the parser reads them *)

(** A decoded extension value is opaque to the assembler. *)
Definition OptValue := string.

(** An options message: the full name of its message type, the extension
    fields set on it (by extension full name) and, for message options, the
    [map_entry] flag.  A nil options pointer is [None]. *)
Record OptionsMessage := {
  om_Descriptor : string;
  om_Extensions : gmap string OptValue;
  om_MapEntry : bool;
}.

Record EnumValueDescriptorProto := {
  evp_Name : string;
  evp_Options : option OptionsMessage;
}.

Record EnumDescriptorProto := {
  edp_Name : string;
  edp_Value : list EnumValueDescriptorProto;
  edp_Options : option OptionsMessage;
}.

Record FieldDescriptorProto := {
  fdp_Name : string;
  fdp_Extendee : string;
  fdp_Options : option OptionsMessage;
}.

Inductive DescriptorProto := Build_DescriptorProto {
  dp_Name : string;
  dp_Field : list FieldDescriptorProto;
  dp_Extension : list FieldDescriptorProto;
  dp_NestedType : list DescriptorProto;
  dp_EnumType : list EnumDescriptorProto;
  dp_Options : option OptionsMessage;
}.

Record MethodDescriptorProto := {
  mdp_Name : string;
  mdp_InputType : string;
  mdp_OutputType : string;
  mdp_Options : option OptionsMessage;
}.

Record ServiceDescriptorProto := {
  sdp_Name : string;
  sdp_Method : list MethodDescriptorProto;
  sdp_Options : option OptionsMessage;
}.

Record FileDescriptorProto := {
  fp_Name : string;
  fp_Package : string;
  fp_Dependency : list string;
  fp_PublicDependency : list Z;
  fp_MessageType : list DescriptorProto;
  fp_EnumType : list EnumDescriptorProto;
  fp_Service : list ServiceDescriptorProto;
  fp_Extension : list FieldDescriptorProto;
  fp_Options : option OptionsMessage;
  fp_Syntax : string;
}.

Record CodeGeneratorRequest := {
  FileToGenerate : list string;
  ProtoFile : list FileDescriptorProto;
}.

(** [GetOptions().GetMapEntry()]: the getters are nil-safe. *)
Definition GetMapEntry (o : option OptionsMessage) : bool :=
  from_option om_MapEntry false o.

(** ** Comments *)

Record Comment := {
  Leading : string;
  Trailing : string;
  Detached : list string;
}.

Definition no_comment : Comment :=
  {| Leading := ""; Trailing := ""; Detached := [] |}.

(** Modelled from the spec: the Comment Index lookup [Comments.Get]
    (the file that defines [Comments], [ParseComments] and [Get] is not
    among the sources).  A lookup by exact path string; a missing path
    yields the "no comment" value, not an error.  The result is a
    [*Comment]; a nil pointer would be [None]. *)
Definition Comments_Get (c : gmap string Comment) (p : string) : option Comment :=
  Some (default no_comment (c !! p)).

(** ** The assembled entities (types) *)

(** A [*PKFileDescriptor] is an address in the store of files. *)
Abbreviation loc := nat.

Record common := {
  c_file : loc;
  c_path : string;
  LongName : string;
  FullName : string;
  OptionExtensions : option (gmap string OptValue);
}.

(** Back-references ([Parent], [Enum], [Message], [Service]) point to an
    entity that is under construction when they are set; they are kept as
    the Common facet of their target, which names it.  The protoreflect
    handles ([FileDescriptor], [ExtensionDescriptor], [ServiceDescriptor],
    [MethodDescriptor]) are library values that the assembler only stores;
    they are left out. *)

Record PKImportedDescriptor := { i_common : common }.

Record PKEnumValueDescriptor := {
  v_common : common;
  v_desc : EnumValueDescriptorProto;
  v_Enum : common;
  v_Comments : option Comment;
}.

Record PKEnumDescriptor := {
  e_common : common;
  e_desc : EnumDescriptorProto;
  e_Parent : option common;
  e_Values : list PKEnumValueDescriptor;
  e_Comments : option Comment;
}.

Record PKExtensionDescriptor := {
  x_common : common;
  x_desc : FieldDescriptorProto;
  x_Parent : option common;
  x_Comments : option Comment;
}.

Record PKFieldDescriptor := {
  fl_common : common;
  fl_desc : FieldDescriptorProto;
  fl_Comments : option Comment;
  fl_Message : common;
}.

Inductive PKDescriptor := Build_PKDescriptor {
  m_common : common;
  m_desc : DescriptorProto;
  m_Parent : option common;
  m_Comments : option Comment;
  m_Enums : list PKEnumDescriptor;
  m_Extensions : list PKExtensionDescriptor;
  m_Fields : list PKFieldDescriptor;
  m_Messages : list PKDescriptor;
}.

Record PKMethodDescriptor := {
  md_common : common;
  md_desc : MethodDescriptorProto;
  md_Comments : option Comment;
  md_Service : common;
  md_InputType : option PKDescriptor;
  md_OutputType : option PKDescriptor;
}.

Record PKServiceDescriptor := {
  s_common : common;
  s_desc : ServiceDescriptorProto;
  s_Comments : option Comment;
  s_Methods : list PKMethodDescriptor;
}.

Record PKFileDescriptor := {
  f_comments : gmap string Comment;
  f_desc : FileDescriptorProto;
  f_Comments : option Comment;
  f_PackageComments : option Comment;
  f_SyntaxComments : option Comment;
  f_Enums : list PKEnumDescriptor;
  f_Extensions : list PKExtensionDescriptor;
  f_Imports : list PKImportedDescriptor;
  f_Messages : list PKDescriptor;
  f_Services : list PKServiceDescriptor;
  f_Dependencies : list (option loc);
  f_PublicDependencies : list (option loc);
  f_OptionExtensions : option (gmap string OptValue);
  f_IsFileToGenerate : bool;
}.

(** The two revisions of the sources: [current] has dependency pointers,
    method input/output types, the enforced leading dot and the sorted
    result; [legacy] is the older text of the types and of the parser. *)
Inductive revision := current | legacy.

(** ** Accessors *)

Definition PKFileDescriptor_GetName (f : PKFileDescriptor) : string := fp_Name (f_desc f).
Definition PKFileDescriptor_GetPackage (f : PKFileDescriptor) : string := fp_Package (f_desc f).

Definition PKDescriptor_GetName (m : PKDescriptor) : string := dp_Name (m_desc m).
Definition PKEnumDescriptor_GetName (e : PKEnumDescriptor) : string := edp_Name (e_desc e).
Definition PKEnumValueDescriptor_GetName (v : PKEnumValueDescriptor) : string := evp_Name (v_desc v).
Definition PKFieldDescriptor_GetName (fl : PKFieldDescriptor) : string := fdp_Name (fl_desc fl).
Definition PKServiceDescriptor_GetName (s : PKServiceDescriptor) : string := sdp_Name (s_desc s).
Definition PKMethodDescriptor_GetName (m : PKMethodDescriptor) : string := mdp_Name (md_desc m).

Definition GetComments_message := m_Comments.
Definition GetComments_enum := e_Comments.
Definition GetComments_value := v_Comments.
Definition GetComments_extension := x_Comments.
Definition GetComments_field := fl_Comments.
Definition GetComments_service := s_Comments.
Definition GetComments_method := md_Comments.

Definition GetInputType := md_InputType.
Definition GetOutputType := md_OutputType.

(** The lookups return the first match of the loop, [None] for nil. *)

Definition PKFileDescriptor_GetEnum (f : PKFileDescriptor) (name : string) : option PKEnumDescriptor :=
  List.find (λ e, bool_decide (PKEnumDescriptor_GetName e = name)
                  || bool_decide (LongName (e_common e) = name)) (f_Enums f).

(** The current revision also accepts the full name. *)
Definition GetMessage_in (rev : revision) (msgs : list PKDescriptor) (name : string) : option PKDescriptor :=
  List.find (λ m, bool_decide (PKDescriptor_GetName m = name)
                  || bool_decide (LongName (m_common m) = name)
                  || match rev with
                     | current => bool_decide (FullName (m_common m) = name)
                     | legacy => false
                     end) msgs.

Definition PKFileDescriptor_GetMessage (rev : revision) (f : PKFileDescriptor) (name : string) : option PKDescriptor :=
  GetMessage_in rev (f_Messages f) name.

Definition PKFileDescriptor_GetService (f : PKFileDescriptor) (name : string) : option PKServiceDescriptor :=
  List.find (λ s, bool_decide (PKServiceDescriptor_GetName s = name)
                  || bool_decide (LongName (s_common s) = name)) (f_Services f).

Definition GetNamedValue (e : PKEnumDescriptor) (name : string) : option PKEnumValueDescriptor :=
  List.find (λ v, bool_decide (PKEnumValueDescriptor_GetName v = name)) (e_Values e).

Definition PKDescriptor_GetEnum (m : PKDescriptor) (name : string) : option PKEnumDescriptor :=
  List.find (λ e, bool_decide (PKEnumDescriptor_GetName e = name)
                  || bool_decide (LongName (e_common e) = name)) (m_Enums m).

Definition PKDescriptor_GetMessage (m : PKDescriptor) (name : string) : option PKDescriptor :=
  List.find (λ msg, bool_decide (PKDescriptor_GetName msg = name)
                    || bool_decide (LongName (m_common msg) = name)) (m_Messages m).

Definition GetMessageField (m : PKDescriptor) (name : string) : option PKFieldDescriptor :=
  List.find (λ f, bool_decide (PKFieldDescriptor_GetName f = name)
                  || bool_decide (LongName (fl_common f) = name)) (m_Fields m).

Definition GetNamedMethod (s : PKServiceDescriptor) (name : string) : option PKMethodDescriptor :=
  List.find (λ m, bool_decide (PKMethodDescriptor_GetName m = name)
                  || bool_decide (LongName (md_common m) = name)) (s_Methods s).

(** ** Outcomes of the driver *)

Inductive panic := IndexOutOfRange | NilPointerDereference.

(** A call returns a value, returns an error, panics, or ends the process
    ([log.Fatal]). *)
Inductive outcome (A : Type) :=
  | Returned (a : A)
  | ReturnedError
  | Panicked (p : panic)
  | Fatal.
Arguments Returned {A} a.
Arguments ReturnedError {A}.
Arguments Panicked {A} p.
Arguments Fatal {A}.

Definition outcome_bind {A B} (k : A → outcome B) (o : outcome A) : outcome B :=
  match o with
  | Returned a => k a
  | ReturnedError => ReturnedError
  | Panicked p => Panicked p
  | Fatal => Fatal
  end.

#[export] Instance outcome_mbind : MBind outcome := @outcome_bind.
#[export] Instance outcome_mret : MRet outcome := @Returned.

(** A loop whose body may panic: [for _, x := range xs { st = body(st, x) }]. *)
Fixpoint for_each {S A} (body : S → A → outcome S) (st : S) (xs : list A) : outcome S :=
  match xs with
  | [] => Returned st
  | x :: rest => st' ← body st x; for_each body st' rest
  end.

(** [sort.Slice(xs, less)]: a rearrangement of [xs] in which no element is
    [less] than one before it.  The library fixes no order among elements
    that [less] does not separate; the driver sorts files of pairwise
    different names, for which the sorted rearrangement is unique
    ([sorted_walk_unique] below), so that any sorting algorithm stands for
    the library's. *)
Definition sort_Slice {A} (less : A → A → bool) (xs : list A) : list A :=
  merge_sort (λ a b, negb (less b a)) xs.

(** ** The store of files *)

(** Files are allocated one after the other; the address of a file is its
    position in the store. *)
Abbreviation heap := (list PKFileDescriptor).

(** A file pointer together with the value it points to when the callee
    reads through it. *)
Record FilePtr := { ptr_addr : loc; ptr_deref : PKFileDescriptor }.

Definition set_children (f : PKFileDescriptor)
    (enums : list PKEnumDescriptor) (exts : list PKExtensionDescriptor)
    (msgs : list PKDescriptor) (svcs : list PKServiceDescriptor) : PKFileDescriptor :=
  {| f_comments := f_comments f; f_desc := f_desc f; f_Comments := f_Comments f;
     f_PackageComments := f_PackageComments f; f_SyntaxComments := f_SyntaxComments f;
     f_Enums := enums; f_Extensions := exts; f_Imports := f_Imports f;
     f_Messages := msgs; f_Services := svcs;
     f_Dependencies := f_Dependencies f; f_PublicDependencies := f_PublicDependencies f;
     f_OptionExtensions := f_OptionExtensions f; f_IsFileToGenerate := f_IsFileToGenerate f |}.

Definition set_Dependencies (f : PKFileDescriptor) (deps pdeps : list (option loc)) : PKFileDescriptor :=
  {| f_comments := f_comments f; f_desc := f_desc f; f_Comments := f_Comments f;
     f_PackageComments := f_PackageComments f; f_SyntaxComments := f_SyntaxComments f;
     f_Enums := f_Enums f; f_Extensions := f_Extensions f; f_Imports := f_Imports f;
     f_Messages := f_Messages f; f_Services := f_Services f;
     f_Dependencies := deps; f_PublicDependencies := pdeps;
     f_OptionExtensions := f_OptionExtensions f; f_IsFileToGenerate := f_IsFileToGenerate f |}.

Definition set_Imports (f : PKFileDescriptor) (imports : list PKImportedDescriptor) : PKFileDescriptor :=
  {| f_comments := f_comments f; f_desc := f_desc f; f_Comments := f_Comments f;
     f_PackageComments := f_PackageComments f; f_SyntaxComments := f_SyntaxComments f;
     f_Enums := f_Enums f; f_Extensions := f_Extensions f; f_Imports := imports;
     f_Messages := f_Messages f; f_Services := f_Services f;
     f_Dependencies := f_Dependencies f; f_PublicDependencies := f_PublicDependencies f;
     f_OptionExtensions := f_OptionExtensions f; f_IsFileToGenerate := f_IsFileToGenerate f |}.

Definition set_IsFileToGenerate (f : PKFileDescriptor) (b : bool) : PKFileDescriptor :=
  {| f_comments := f_comments f; f_desc := f_desc f; f_Comments := f_Comments f;
     f_PackageComments := f_PackageComments f; f_SyntaxComments := f_SyntaxComments f;
     f_Enums := f_Enums f; f_Extensions := f_Extensions f; f_Imports := f_Imports f;
     f_Messages := f_Messages f; f_Services := f_Services f;
     f_Dependencies := f_Dependencies f; f_PublicDependencies := f_PublicDependencies f;
     f_OptionExtensions := f_OptionExtensions f; f_IsFileToGenerate := b |}.

(** ** The process-wide extension registry *)

Record ExtensionType := {
  et_FullName : string;
  et_ContainingMessage : string;
}.

(** ** The parser *)

Section assembler.
(** Which revision of the sources runs. *)
Variable rev : revision.
(** [protoregistry.GlobalTypes] once the extensions are registered. *)
Variable GlobalTypes : list ExtensionType.
(** [ParseComments]: the Comment Index of a file (its defining file is not
    among the sources; the parser only looks paths up in its result). *)
Variable ParseComments : FileDescriptorProto → gmap string Comment.
(** [getAllFileDescriptor], [registerAllExtensions] and [reUnmarshalReq]:
    library calls that end the process, return an error, or let the
    driver go on. *)
Variable preflight : CodeGeneratorRequest → outcome ().

(** [getOptions]: the registered extensions of the options' message type
    that are set on [options]; nil when there is none. *)
Definition getOptions (options : OptionsMessage) : option (gmap string OptValue) :=
  foldl (λ m et,
           if bool_decide (et_ContainingMessage et = om_Descriptor options)
           then match om_Extensions options !! et_FullName et with
                | Some ext => Some (<[et_FullName et := ext]> (default ∅ m))
                | None => m
                end
           else m) None GlobalTypes.

Definition merge_options (cur : option (gmap string OptValue)) (options : OptionsMessage)
    : option (gmap string OptValue) :=
  match getOptions options with
  | Some opts =>
      if bool_decide (0 < size opts) then
        match cur with
        | None => Some opts
        | Some old => Some (opts ∪ old)
        end
      else cur
  | None => cur
  end.

(** [(c *common) setOptions]. *)
Definition setOptions (c : common) (options : OptionsMessage) : common :=
  {| c_file := c_file c; c_path := c_path c; LongName := LongName c;
     FullName := FullName c;
     OptionExtensions := merge_options (OptionExtensions c) options |}.

(** [if d.Options != nil { x.setOptions(d.Options) }]. *)
Definition with_options (c : common) (o : option OptionsMessage) : common :=
  match o with
  | Some options => setOptions c options
  | None => c
  end.

(** [newCommon]; the legacy revision stops after the first formatting. *)
Definition newCommon (f : FilePtr) (path longName : string) : common :=
  let fn := longName in
  let fn :=
    if negb (HasPrefix fn ".") then
      let fn := Sprintf_s_s (PKFileDescriptor_GetPackage (ptr_deref f)) longName in
      match rev with
      | current => if negb (HasPrefix fn ".") then "." +:+ fn else fn
      | legacy => fn
      end
    else fn in
  {| c_file := ptr_addr f; c_path := path; LongName := longName; FullName := fn;
     OptionExtensions := None |}.

Definition comments_of (f : FilePtr) : gmap string Comment := f_comments (ptr_deref f).

Definition parseEnumValues (file : FilePtr) (enum : common)
    (protos : list EnumValueDescriptorProto) : list PKEnumValueDescriptor :=
  range_loop (λ i vd,
    let longName := Sprintf_s_s (LongName enum) (evp_Name vd) in
    {| v_common := with_options (newCommon file "" longName) (evp_Options vd);
       v_desc := vd;
       v_Enum := enum;
       v_Comments := Comments_Get (comments_of file)
                       (Sprintf_s_d_d (c_path enum) enumValueCommentPath i) |}) protos.

Definition parseEnums (file : FilePtr) (parent : option common)
    (protos : list EnumDescriptorProto) : list PKEnumDescriptor :=
  range_loop (λ i ed,
    let longName := edp_Name ed in
    let commentPath := Sprintf_d_d enumCommentPath i in
    let longName :=
      match parent with
      | Some p => Sprintf_s_s (LongName p) longName
      | None => longName
      end in
    let commentPath :=
      match parent with
      | Some p => Sprintf_s_d_d (c_path p) messageEnumCommentPath i
      | None => commentPath
      end in
    let c := with_options (newCommon file commentPath longName) (edp_Options ed) in
    {| e_common := c;
       e_desc := ed;
       e_Parent := parent;
       e_Values := parseEnumValues file c (edp_Value ed);
       e_Comments := Comments_Get (comments_of file) commentPath |}) protos.

Definition parseExtensions (file : FilePtr) (parent : option common)
    (protos : list FieldDescriptorProto) : list PKExtensionDescriptor :=
  range_loop (λ i ext,
    let commentPath := Sprintf_d_d extensionCommentPath i in
    let longName := Sprintf_s_s (fdp_Extendee ext) (fdp_Name ext) in
    let longName :=
      if Contains longName (PKFileDescriptor_GetPackage (ptr_deref file)) then
        let parts := Split_dot (fdp_Extendee ext) in
        Sprintf_s_s (last_part parts) (fdp_Name ext)
      else longName in
    let commentPath :=
      match parent with
      | Some p => Sprintf_s_d_d (c_path p) messageExtensionCommentPath i
      | None => commentPath
      end in
    {| x_common := with_options (newCommon file commentPath longName) (fdp_Options ext);
       x_desc := ext;
       x_Parent := parent;
       x_Comments := Comments_Get (comments_of file) commentPath |}) protos.

Definition parseMessageFields (file : FilePtr) (message : common)
    (protos : list FieldDescriptorProto) : list PKFieldDescriptor :=
  range_loop (λ i fd,
    let longName := Sprintf_s_s (LongName message) (fdp_Name fd) in
    {| fl_common := with_options (newCommon file "" longName) (fdp_Options fd);
       fl_desc := fd;
       fl_Comments := Comments_Get (comments_of file)
                        (Sprintf_s_d_d (c_path message) messageFieldCommentPath i);
       fl_Message := message |}) protos.

(** The body of the loop of [parseMessages], for the message [md] at
    index [i]. *)
Fixpoint parseMessage (file : FilePtr) (parent : option common) (i : nat)
    (md : DescriptorProto) {struct md} : PKDescriptor :=
  let longName := dp_Name md in
  let commentPath := Sprintf_d_d messageCommentPath i in
  let longName :=
    match parent with
    | Some p => Sprintf_s_s (LongName p) longName
    | None => longName
    end in
  let commentPath :=
    match parent with
    | Some p => Sprintf_s_d_d (c_path p) messageMessageCommentPath i
    | None => commentPath
    end in
  let c := with_options (newCommon file commentPath longName) (dp_Options md) in
  {| m_common := c;
     m_desc := md;
     m_Parent := parent;
     m_Comments := Comments_Get (comments_of file) commentPath;
     m_Enums := parseEnums file (Some c) (dp_EnumType md);
     m_Extensions := parseExtensions file (Some c) (dp_Extension md);
     m_Fields := parseMessageFields file c (dp_Field md);
     m_Messages := range_loop (parseMessage file (Some c)) (dp_NestedType md) |}.

Definition parseMessages (file : FilePtr) (parent : option common)
    (protos : list DescriptorProto) : list PKDescriptor :=
  range_loop (parseMessage file parent) protos.

(** The legacy revision has no input and output types. *)
Definition parseServiceMethods (file : FilePtr) (svc : common)
    (protos : list MethodDescriptorProto) : list PKMethodDescriptor :=
  range_loop (λ i md,
    let longName := Sprintf_s_s (LongName svc) (mdp_Name md) in
    {| md_common := with_options (newCommon file "" longName) (mdp_Options md);
       md_desc := md;
       md_Comments := Comments_Get (comments_of file)
                        (Sprintf_s_d_d (c_path svc) serviceMethodCommentPath i);
       md_Service := svc;
       md_InputType :=
         match rev with
         | current => PKFileDescriptor_GetMessage rev (ptr_deref file) (mdp_InputType md)
         | legacy => None
         end;
       md_OutputType :=
         match rev with
         | current => PKFileDescriptor_GetMessage rev (ptr_deref file) (mdp_OutputType md)
         | legacy => None
         end |}) protos.

Definition parseServices (file : FilePtr) (protos : list ServiceDescriptorProto)
    : list PKServiceDescriptor :=
  range_loop (λ i sd,
    let longName := sdp_Name sd in
    let commentPath := Sprintf_d_d serviceCommentPath i in
    let c := with_options (newCommon file commentPath longName) (sdp_Options sd) in
    {| s_common := c;
       s_desc := sd;
       s_Comments := Comments_Get (comments_of file) commentPath;
       s_Methods := parseServiceMethods file c (sdp_Method sd) |}) protos.

(** The file object as [parseFile] allocates it. *)
Definition new_file (fd : FileDescriptorProto) : PKFileDescriptor :=
  let comments := ParseComments fd in
  {| f_comments := comments;
     f_desc := fd;
     f_Comments :=
       match rev with
       | current => None
       | legacy => Comments_Get comments (pretty packageCommentPath)
       end;
     f_PackageComments := Comments_Get comments (pretty packageCommentPath);
     f_SyntaxComments := Comments_Get comments (pretty syntaxCommentPath);
     f_Enums := []; f_Extensions := []; f_Imports := [];
     f_Messages := []; f_Services := [];
     f_Dependencies := []; f_PublicDependencies := [];
     f_OptionExtensions := from_option (merge_options None) None (fp_Options fd);
     f_IsFileToGenerate := false |}.

(** [fd.GetDependency()[dep]]: the index is checked. *)
Definition dependency_at (fd : FileDescriptorProto) (dep : Z) : outcome string :=
  if bool_decide (0 ≤ dep < Z.of_nat (length (fp_Dependency fd)))%Z
  then Returned (default "" (fp_Dependency fd !! Z.to_nat dep))
  else Panicked IndexOutOfRange.

(** [parseFile]; [self] is the address of the new file object and
    [allFilesMap] the map of the context at the time of the call.  The
    legacy revision ends after the services. *)
Definition parseFile (allFilesMap : gmap string loc) (self : loc)
    (fd : FileDescriptorProto) : outcome PKFileDescriptor :=
  let file := new_file fd in
  let enums := parseEnums {| ptr_addr := self; ptr_deref := file |} None (fp_EnumType fd) in
  let file := set_children file enums [] [] [] in
  let exts := parseExtensions {| ptr_addr := self; ptr_deref := file |} None (fp_Extension fd) in
  let file := set_children file enums exts [] [] in
  let msgs := parseMessages {| ptr_addr := self; ptr_deref := file |} None (fp_MessageType fd) in
  let file := set_children file enums exts msgs [] in
  let svcs := parseServices {| ptr_addr := self; ptr_deref := file |} (fp_Service fd) in
  let file := set_children file enums exts msgs svcs in
  match rev with
  | current =>
      let deps := (λ dep : string, allFilesMap !! dep) <$> fp_Dependency fd in
      pdeps ← for_each (λ (acc : list (option loc)) (dep : Z),
                 name ← dependency_at fd dep;
                 mret (acc ++ [allFilesMap !! name])) [] (fp_PublicDependency fd);
      mret (set_Dependencies file deps pdeps)
  | legacy => mret file
  end.

(** What one dependency contributes to an import list. *)
Definition imports_of (file : PKFileDescriptor) : list PKImportedDescriptor :=
  ((λ d, {| i_common := m_common d |}) <$>
     filter (λ d, negb (GetMapEntry (dp_Options (m_desc d)))) (f_Messages file))
  ++ ((λ e, {| i_common := e_common e |}) <$> f_Enums file)
  ++ ((λ ext, {| i_common := x_common ext |}) <$> f_Extensions file).

(** [parseAllImports(fd, allFiles)] on the store [h]: a dependency that
    is not in the map is a nil file, and reading its messages panics. *)
Definition parseAllImports (h : heap) (fd : loc) (allFiles : gmap string loc) : outcome heap :=
  match h !! fd with
  | None => Panicked NilPointerDereference
  | Some f =>
      imports ← for_each (λ (acc : list PKImportedDescriptor) (fileName : string),
                   match allFiles !! fileName ≫= (h !!.) with
                   | Some file => mret (acc ++ imports_of file)
                   | None => Panicked NilPointerDereference
                   end) [] (fp_Dependency (f_desc f));
      mret (<[fd := set_Imports f imports]> h)
  end.

(** [allFilesMap[f].IsFileToGenerate = true]. *)
Definition mark_file (allFilesMap : gmap string loc) (h : heap) (f : string) : outcome heap :=
  match allFilesMap !! f with
  | Some l =>
      match h !! l with
      | Some file => mret (<[l := set_IsFileToGenerate file true]> h)
      | None => Panicked NilPointerDereference
      end
  | None => Panicked NilPointerDereference
  end.

(** [allFiles[i].GetName()]. *)
Definition name_at (h : heap) (l : loc) : string :=
  from_option PKFileDescriptor_GetName "" (h !! l).

(** The first loop of the driver: every file is parsed against the map
    as it is so far and then entered under its name. *)
Definition build_files (pfs : list FileDescriptorProto) : outcome (heap * gmap string loc) :=
  for_each (λ '(h, allFilesMap) pf,
    file ← parseFile allFilesMap (length h) pf;
    mret (h ++ [file], <[fp_Name pf := length h]> allFilesMap)) ([], ∅) pfs.

(** The second loop: [range] is the order in which Go happens to walk
    the map. *)
Definition link_imports (range : list (string * loc)) (allFilesMap : gmap string loc)
    (h : heap) : outcome (heap * list loc) :=
  for_each (λ '(h, allFiles) '(_, f),
    h' ← parseAllImports h f allFilesMap;
    mret (h', allFiles ++ [f])) (h, []) range.

(** [ParseCodeGenRequestAllFiles]: the final store and the returned
    pointers.  [range] gives the order of the walk over the map; the
    legacy revision returns without sorting. *)
Definition ParseCodeGenRequestAllFiles
    (range : gmap string loc → list (string * loc))
    (req : CodeGeneratorRequest) : outcome (heap * list loc) :=
  _ ← preflight req;
  '(h, allFilesMap) ← build_files (ProtoFile req);
  '(h, allFiles) ← link_imports (range allFilesMap) allFilesMap h;
  h ← for_each (mark_file allFilesMap) h (FileToGenerate req);
  match rev with
  | current =>
      mret (h, sort_Slice (λ i j, string_lt (name_at h i) (name_at h j)) allFiles)
  | legacy => mret (h, allFiles)
  end.
End assembler.

(** ** All the entities of a file *)

Fixpoint msg_flatten (m : PKDescriptor) : list PKDescriptor :=
  m :: (m_Messages m ≫= msg_flatten).

Definition all_messages (f : PKFileDescriptor) : list PKDescriptor :=
  f_Messages f ≫= msg_flatten.
Definition all_enums (f : PKFileDescriptor) : list PKEnumDescriptor :=
  f_Enums f ++ (all_messages f ≫= m_Enums).
Definition all_extensions (f : PKFileDescriptor) : list PKExtensionDescriptor :=
  f_Extensions f ++ (all_messages f ≫= m_Extensions).
Definition all_fields (f : PKFileDescriptor) : list PKFieldDescriptor :=
  all_messages f ≫= m_Fields.
Definition all_values (f : PKFileDescriptor) : list PKEnumValueDescriptor :=
  all_enums f ≫= e_Values.
Definition all_methods (f : PKFileDescriptor) : list PKMethodDescriptor :=
  f_Services f ≫= s_Methods.

(** The Common facets of the entities of a file. *)
Definition file_commons (f : PKFileDescriptor) : list common :=
  (m_common <$> all_messages f) ++ (e_common <$> all_enums f)
  ++ (v_common <$> all_values f) ++ (fl_common <$> all_fields f)
  ++ (x_common <$> all_extensions f) ++ (s_common <$> f_Services f)
  ++ (md_common <$> all_methods f).

(** What the [GetComments] accessors of the entities of a file return. *)
Definition file_entity_comments (f : PKFileDescriptor) : list (option Comment) :=
  (GetComments_message <$> all_messages f) ++ (GetComments_enum <$> all_enums f)
  ++ (GetComments_value <$> all_values f) ++ (GetComments_field <$> all_fields f)
  ++ (GetComments_extension <$> all_extensions f) ++ (GetComments_service <$> f_Services f)
  ++ (GetComments_method <$> all_methods f).

(** ** Scenarios *)

Module Scenario.
Definition message (name : string) (fields : list FieldDescriptorProto)
    (nested : list DescriptorProto) (o : option OptionsMessage) : DescriptorProto :=
  Build_DescriptorProto name fields [] nested [] o.

Definition field (name : string) : FieldDescriptorProto :=
  {| fdp_Name := name; fdp_Extendee := ""; fdp_Options := None |}.

Definition enum (name : string) (values : list string) : EnumDescriptorProto :=
  {| edp_Name := name;
     edp_Value := (λ v, {| evp_Name := v; evp_Options := None |}) <$> values;
     edp_Options := None |}.

Definition map_entry : OptionsMessage :=
  {| om_Descriptor := "google.protobuf.MessageOptions"; om_Extensions := ∅;
     om_MapEntry := true |}.

(** Package [a.b]: message [M] with nested [N] with field [f], enum
    [Color], extension [ext] of [a.b.Base], service [S] whose method
    takes [M] and returns the nested [N]. *)
Definition ab_proto : FileDescriptorProto :=
  {| fp_Name := "ab.proto"; fp_Package := "a.b";
     fp_Dependency := []; fp_PublicDependency := [];
     fp_MessageType := [message "M" [] [message "N" [field "f"] [] None] None];
     fp_EnumType := [enum "Color" ["RED"]];
     fp_Service :=
       [ {| sdp_Name := "S";
            sdp_Method := [ {| mdp_Name := "Call"; mdp_InputType := ".a.b.M";
                               mdp_OutputType := ".a.b.M.N"; mdp_Options := None |} ];
            sdp_Options := None |} ];
     fp_Extension := [ {| fdp_Name := "ext"; fdp_Extendee := "a.b.Base";
                          fdp_Options := None |} ];
     fp_Options := None; fp_Syntax := "proto3" |}.

(** A file without a package. *)
Definition bare_proto : FileDescriptorProto :=
  {| fp_Name := "bare.proto"; fp_Package := "";
     fp_Dependency := []; fp_PublicDependency := [];
     fp_MessageType := [message "M" [] [] None];
     fp_EnumType := []; fp_Service := []; fp_Extension := [];
     fp_Options := None; fp_Syntax := "proto3" |}.

(** [y.proto], package [p]: enum [Color], message [Point], message
    [Outer] with the nested messages [Inner] and the map entry
    [TagsEntry]. *)
Definition y_proto : FileDescriptorProto :=
  {| fp_Name := "y.proto"; fp_Package := "p";
     fp_Dependency := []; fp_PublicDependency := [];
     fp_MessageType :=
       [message "Point" [] [] None;
        message "Outer" [field "tags"]
          [message "Inner" [] [] None; message "TagsEntry" [] [] (Some map_entry)] None];
     fp_EnumType := [enum "Color" ["RED"; "GREEN"]];
     fp_Service := []; fp_Extension := [];
     fp_Options := None; fp_Syntax := "proto3" |}.

(** [x.proto], package [q], imports [y.proto]; its service takes a
    [p.Point] and returns the local message [Reply]. *)
Definition x_proto : FileDescriptorProto :=
  {| fp_Name := "x.proto"; fp_Package := "q";
     fp_Dependency := ["y.proto"]; fp_PublicDependency := [];
     fp_MessageType := [message "Reply" [] [] None];
     fp_EnumType := [];
     fp_Service :=
       [ {| sdp_Name := "Locator";
            sdp_Method := [ {| mdp_Name := "Find"; mdp_InputType := ".p.Point";
                               mdp_OutputType := ".q.Reply"; mdp_Options := None |} ];
            sdp_Options := None |} ];
     fp_Extension := [];
     fp_Options := None; fp_Syntax := "proto3" |}.

(** The batch in the order protoc sends it (dependencies first), and in
    the opposite order. *)
Definition request_yx : CodeGeneratorRequest :=
  {| FileToGenerate := ["x.proto"]; ProtoFile := [y_proto; x_proto] |}.
Definition request_xy : CodeGeneratorRequest :=
  {| FileToGenerate := ["x.proto"]; ProtoFile := [x_proto; y_proto] |}.
(** A generation target that is not in the batch. *)
Definition request_missing : CodeGeneratorRequest :=
  {| FileToGenerate := ["z.proto"]; ProtoFile := [y_proto; x_proto] |}.

Definition no_comments : FileDescriptorProto → gmap string Comment := λ _, ∅.
Definition preflight_ok : CodeGeneratorRequest → outcome () := λ _, Returned ().

(** A run with an empty registry, no authored comments and the map walked
    in key order. *)
Definition run (rev : revision) (req : CodeGeneratorRequest) : outcome (heap * list loc) :=
  ParseCodeGenRequestAllFiles rev [] no_comments preflight_ok map_to_list req.

(** The file built from a single descriptor. *)
Definition build (rev : revision) (fd : FileDescriptorProto) : outcome PKFileDescriptor :=
  parseFile rev [] no_comments ∅ 0 fd.
End Scenario.

(** * Properties *)

(** ** Strings *)

Lemma string_app_cons (a : ascii) (s t : string) :
  String a s +:+ t = String a (s +:+ t).
Proof. reflexivity. Qed.

Lemma string_app_nil_l (t : string) : "" +:+ t = t.
Proof. reflexivity. Qed.

Lemma string_app_nil_r (s : string) : s +:+ "" = s.
Proof. induction s as [|a s IH]; [done|]. by rewrite string_app_cons, IH. Qed.

Lemma string_app_assoc (s t u : string) : (s +:+ t) +:+ u = s +:+ t +:+ u.
Proof. induction s as [|a s IH]; [done|]. by rewrite !string_app_cons, IH. Qed.

Lemma prefix_spec (p s : string) :
  String.prefix p s = true ↔ ∃ rest, s = p +:+ rest.
Proof.
  revert s. induction p as [|a p IH]; intros s.
  - split; [intros _; by exists s |]. intros _. by destruct s.
  - destruct s as [|b s]; simpl.
    + split; [done | intros [rest Hr]; discriminate].
    + destruct (ascii_dec a b) as [->|Hne].
      * rewrite IH. split; intros [rest Hr]; exists rest.
        -- by rewrite Hr.
        -- by injection Hr.
      * split; [done | intros [rest Hr]; injection Hr; congruence].
Qed.

Lemma HasPrefix_dot_cons (s : string) : HasPrefix ("." +:+ s) "." = true.
Proof. apply prefix_spec. by exists s. Qed.

Lemma HasPrefix_app_l (a b p : string) :
  HasPrefix a p = true → HasPrefix (a +:+ b) p = true.
Proof.
  unfold HasPrefix. rewrite !prefix_spec. intros [rest ->].
  exists (rest +:+ b). by rewrite string_app_assoc.
Qed.


(** ** Loops with an index *)

Lemma range_from_lookup {A B} (body : nat → A → B) (i : nat) (xs : list A) (k : nat) :
  range_from body i xs !! k = body (i + k) <$> xs !! k.
Proof.
  revert i k. induction xs as [|x xs IH]; intros i [|k]; simpl; try done.
  - by rewrite Nat.add_0_r.
  - rewrite IH. by replace (S i + k) with (i + S k) by lia.
Qed.

Lemma range_loop_lookup {A B} (body : nat → A → B) (xs : list A) (k : nat) :
  range_loop body xs !! k = body k <$> xs !! k.
Proof. apply (range_from_lookup body 0). Qed.

Lemma elem_of_range_loop {A B} (body : nat → A → B) (xs : list A) (y : B) :
  y ∈ range_loop body xs ↔ ∃ k x, xs !! k = Some x ∧ y = body k x.
Proof.
  rewrite list_elem_of_lookup. split.
  - intros [k Hk]. rewrite range_loop_lookup in Hk.
    destruct (xs !! k) as [x|] eqn:Hx; [|done]. exists k, x. by simplify_eq/=.
  - intros (k & x & Hx & ->). exists k. by rewrite range_loop_lookup, Hx.
Qed.

Lemma length_range_from {A B} (body : nat → A → B) (i : nat) (xs : list A) :
  length (range_from body i xs) = length xs.
Proof. revert i. induction xs as [|x xs IH]; intros i; simpl; [done|]. by rewrite IH. Qed.

(** ** The shape of an assembled file *)

Lemma DescriptorProto_nested_ind (P : DescriptorProto → Prop) :
  (∀ md, Forall P (dp_NestedType md) → P md) → ∀ md, P md.
Proof.
  intros step. fix IH 1. intros md. apply step.
  destruct md as [name fields exts nested enums o]. simpl.
  induction nested as [|x rest IHrest]; constructor; [apply IH | apply IHrest].
Qed.

Lemma msg_flatten_unfold (m : PKDescriptor) :
  msg_flatten m = m :: (m_Messages m ≫= msg_flatten).
Proof. by destruct m. Qed.

(** How a nested entity is named and where its comment lies. *)
Definition nested_name (parent : option common) (name : string) : string :=
  match parent with
  | Some p => Sprintf_s_s (LongName p) name
  | None => name
  end.

Definition nested_path (parent : option common) (top nested i : nat) : string :=
  match parent with
  | Some p => Sprintf_s_d_d (c_path p) nested i
  | None => Sprintf_d_d top i
  end.

(** Unfolds the builder whose result is looked up on the left of the goal. *)
Ltac unfold_builder :=
  lazymatch goal with
  | |- ?f _ _ _ _ _ !! _ = _ => unfold f
  | |- ?f _ _ _ _ !! _ = _ => unfold f
  end.

Section shape.
Variable rev : revision.
Variable GlobalTypes : list ExtensionType.
Variable ParseComments : FileDescriptorProto → gmap string Comment.

Local Abbreviation with_options := (with_options GlobalTypes).
Local Abbreviation newCommon := (newCommon rev).
Local Abbreviation parseMessage := (parseMessage rev GlobalTypes).
Local Abbreviation parseMessages := (parseMessages rev GlobalTypes).
Local Abbreviation parseEnums := (parseEnums rev GlobalTypes).
Local Abbreviation parseEnumValues := (parseEnumValues rev GlobalTypes).
Local Abbreviation parseExtensions := (parseExtensions rev GlobalTypes).
Local Abbreviation parseMessageFields := (parseMessageFields rev GlobalTypes).
Local Abbreviation parseServices := (parseServices rev GlobalTypes).
Local Abbreviation parseServiceMethods := (parseServiceMethods rev GlobalTypes).
Local Abbreviation parseFile := (parseFile rev GlobalTypes ParseComments).

Lemma with_options_FullName c o : FullName (with_options c o) = FullName c.
Proof. by destruct o. Qed.
Lemma with_options_LongName c o : LongName (with_options c o) = LongName c.
Proof. by destruct o. Qed.
Lemma with_options_path c o : c_path (with_options c o) = c_path c.
Proof. by destruct o. Qed.
Lemma with_options_file c o : c_file (with_options c o) = c_file c.
Proof. by destruct o. Qed.

(** The Common facet of the message built from [md]. *)
Definition message_common (file : FilePtr) (parent : option common) (i : nat)
    (md : DescriptorProto) : common :=
  with_options
    (newCommon file (nested_path parent messageCommentPath messageMessageCommentPath i)
       (nested_name parent (dp_Name md)))
    (dp_Options md).

Lemma parseMessage_unfold file parent i md :
  parseMessage file parent i md =
  let c := message_common file parent i md in
  {| m_common := c;
     m_desc := md;
     m_Parent := parent;
     m_Comments := Comments_Get (comments_of file)
                     (nested_path parent messageCommentPath messageMessageCommentPath i);
     m_Enums := parseEnums file (Some c) (dp_EnumType md);
     m_Extensions := parseExtensions file (Some c) (dp_Extension md);
     m_Fields := parseMessageFields file c (dp_Field md);
     m_Messages := parseMessages file (Some c) (dp_NestedType md) |}.
Proof. destruct md, parent; reflexivity. Qed.

(** Every message of a tree is the result of one run of the loop body
    of [parseMessages], on a descriptor that inherits what held of the
    root. *)
Lemma msg_flatten_parseMessage (Q : DescriptorProto → Prop) file :
  (∀ md, Q md → Forall Q (dp_NestedType md)) →
  ∀ md parent i m,
    Q md → m ∈ msg_flatten (parseMessage file parent i md) →
    ∃ parent' i' md', Q md' ∧ m = parseMessage file parent' i' md'.
Proof.
  intros HQ md. induction md as [md IH] using DescriptorProto_nested_ind.
  intros parent i m Hmd. rewrite msg_flatten_unfold, elem_of_cons.
  intros [-> | Hin]; [by eauto|].
  apply list_elem_of_bind in Hin as (child & Hm & Hchild).
  rewrite parseMessage_unfold in Hchild. simpl in Hchild.
  apply elem_of_range_loop in Hchild as (k & x & Hx & ->).
  rewrite Forall_lookup in IH. eapply (IH k x Hx); [|done].
  specialize (HQ md Hmd). rewrite Forall_lookup in HQ. by eapply HQ.
Qed.

(** A pointer to the file under construction: its address, its raw
    descriptor and its Comment Index are fixed from the allocation on. *)
Definition points_to (self : loc) (fd : FileDescriptorProto) (p : FilePtr) : Prop :=
  ptr_addr p = self ∧ f_desc (ptr_deref p) = fd
  ∧ f_comments (ptr_deref p) = ParseComments fd.

Lemma parseFile_Returned allFilesMap self fd F :
  parseFile allFilesMap self fd = Returned F →
  f_desc F = fd ∧ f_comments F = ParseComments fd ∧
  (∃ p, points_to self fd p ∧ f_Enums F = parseEnums p None (fp_EnumType fd)) ∧
  (∃ p, points_to self fd p ∧ f_Extensions F = parseExtensions p None (fp_Extension fd)) ∧
  (∃ p, points_to self fd p ∧ f_Messages F = parseMessages p None (fp_MessageType fd)) ∧
  (∃ p, points_to self fd p ∧ f_Messages (ptr_deref p) = f_Messages F ∧
        f_Services F = parseServices p (fp_Service fd)).
Proof.
  unfold parseFile, points_to. intros HF.
  destruct rev; [destruct (for_each _ _ _) as [pdeps'| | |]|];
    unfold mret, outcome_mret in HF; simplify_eq/=.
  all: split_and!; try done.
  all: try by (eexists; split; cycle 1; [reflexivity | simpl; done]).
  all: by (eexists; split; cycle 1;
           [split; cycle 1; [reflexivity | simpl; reflexivity] | simpl; done]).
Qed.

(** *** What each loop puts at index [i] *)

Lemma parseEnums_lookup file parent protos i :
  parseEnums file parent protos !! i =
  (λ ed,
     let commentPath := nested_path parent enumCommentPath messageEnumCommentPath i in
     let c := with_options (newCommon file commentPath (nested_name parent (edp_Name ed)))
                (edp_Options ed) in
     {| e_common := c; e_desc := ed; e_Parent := parent;
        e_Values := parseEnumValues file c (edp_Value ed);
        e_Comments := Comments_Get (comments_of file) commentPath |}) <$> protos !! i.
Proof.
  unfold_builder. rewrite range_loop_lookup. by destruct parent.
Qed.

Lemma parseEnumValues_lookup file enum protos i :
  parseEnumValues file enum protos !! i =
  (λ vd,
     {| v_common := with_options
                      (newCommon file "" (Sprintf_s_s (LongName enum) (evp_Name vd)))
                      (evp_Options vd);
        v_desc := vd; v_Enum := enum;
        v_Comments := Comments_Get (comments_of file)
                        (Sprintf_s_d_d (c_path enum) enumValueCommentPath i) |})
  <$> protos !! i.
Proof. unfold_builder. by rewrite range_loop_lookup. Qed.

(** The long name [parseExtensions] gives to an extension. *)
Definition extension_longName (package : string) (ext : FieldDescriptorProto) : string :=
  if Contains (Sprintf_s_s (fdp_Extendee ext) (fdp_Name ext)) package
  then Sprintf_s_s (last_part (Split_dot (fdp_Extendee ext))) (fdp_Name ext)
  else Sprintf_s_s (fdp_Extendee ext) (fdp_Name ext).

Lemma parseExtensions_lookup file parent protos i :
  parseExtensions file parent protos !! i =
  (λ ext,
     let commentPath :=
       nested_path parent extensionCommentPath messageExtensionCommentPath i in
     {| x_common :=
          with_options
            (newCommon file commentPath
               (extension_longName (PKFileDescriptor_GetPackage (ptr_deref file)) ext))
            (fdp_Options ext);
        x_desc := ext; x_Parent := parent;
        x_Comments := Comments_Get (comments_of file) commentPath |}) <$> protos !! i.
Proof.
  unfold_builder. rewrite range_loop_lookup. by destruct parent.
Qed.

Lemma parseMessageFields_lookup file message protos i :
  parseMessageFields file message protos !! i =
  (λ fd,
     {| fl_common := with_options
                       (newCommon file "" (Sprintf_s_s (LongName message) (fdp_Name fd)))
                       (fdp_Options fd);
        fl_desc := fd;
        fl_Comments := Comments_Get (comments_of file)
                         (Sprintf_s_d_d (c_path message) messageFieldCommentPath i);
        fl_Message := message |}) <$> protos !! i.
Proof. unfold_builder. by rewrite range_loop_lookup. Qed.

Lemma parseMessages_lookup file parent protos i :
  parseMessages file parent protos !! i = parseMessage file parent i <$> protos !! i.
Proof. unfold_builder. by rewrite range_loop_lookup. Qed.

(** The input or output type of a method, as [parseServiceMethods]
    resolves it. *)
Definition resolve_type (file : FilePtr) (name : string) : option PKDescriptor :=
  match rev with
  | current => PKFileDescriptor_GetMessage rev (ptr_deref file) name
  | legacy => None
  end.

Lemma parseServiceMethods_lookup file svc protos i :
  parseServiceMethods file svc protos !! i =
  (λ md,
     {| md_common := with_options
                       (newCommon file "" (Sprintf_s_s (LongName svc) (mdp_Name md)))
                       (mdp_Options md);
        md_desc := md;
        md_Comments := Comments_Get (comments_of file)
                         (Sprintf_s_d_d (c_path svc) serviceMethodCommentPath i);
        md_Service := svc;
        md_InputType := resolve_type file (mdp_InputType md);
        md_OutputType := resolve_type file (mdp_OutputType md) |}) <$> protos !! i.
Proof. unfold_builder. by rewrite range_loop_lookup. Qed.

Lemma parseServices_lookup file protos i :
  parseServices file protos !! i =
  (λ sd,
     let commentPath := Sprintf_d_d serviceCommentPath i in
     let c := with_options (newCommon file commentPath (sdp_Name sd)) (sdp_Options sd) in
     {| s_common := c; s_desc := sd;
        s_Comments := Comments_Get (comments_of file) commentPath;
        s_Methods := parseServiceMethods file c (sdp_Method sd) |}) <$> protos !! i.
Proof. unfold_builder. by rewrite range_loop_lookup. Qed.

(** *** Where the entities of an assembled file come from *)

Section provenance.
Context (allFilesMap : gmap string loc) (self : loc) (fd : FileDescriptorProto).
Context (F : PKFileDescriptor).
Hypothesis HF : parseFile allFilesMap self fd = Returned F.

Lemma in_all_messages (Q : DescriptorProto → Prop) m :
  (∀ md, Q md → Forall Q (dp_NestedType md)) →
  Forall Q (fp_MessageType fd) →
  m ∈ all_messages F →
  ∃ p parent i md, points_to self fd p ∧ Q md ∧ m = parseMessage p parent i md.
Proof.
  intros HQ Htop Hm.
  destruct (parseFile_Returned _ _ _ _ HF) as (_ & _ & _ & _ & (p & Hp & Hmsgs) & _).
  unfold all_messages in Hm. rewrite Hmsgs in Hm.
  apply list_elem_of_bind in Hm as (root & Hm & Hroot).
  apply elem_of_range_loop in Hroot as (k & md & Hmd & ->).
  rewrite Forall_lookup in Htop.
  destruct (msg_flatten_parseMessage Q p HQ md None k m (Htop k md Hmd) Hm)
    as (parent' & i' & md' & HQ' & ->).
  by exists p, parent', i', md'.
Qed.

Lemma in_all_messages_plain m :
  m ∈ all_messages F →
  ∃ p parent i md, points_to self fd p ∧ m = parseMessage p parent i md.
Proof.
  intros Hm.
  destruct (in_all_messages (λ _, True) m) as (p & parent & i & md & Hp & _ & ->);
    [intros; by apply Forall_forall | by apply Forall_forall | done |].
  by exists p, parent, i, md.
Qed.

Lemma in_all_enums e :
  e ∈ all_enums F →
  ∃ p parent protos i, points_to self fd p ∧ parseEnums p parent protos !! i = Some e.
Proof.
  unfold all_enums. rewrite elem_of_app, list_elem_of_bind.
  intros [He | (m & He & Hm)].
  - destruct (parseFile_Returned _ _ _ _ HF) as (_ & _ & (p & Hp & Henums) & _).
    rewrite Henums in He. apply list_elem_of_lookup in He as [i Hi].
    by exists p, None, (fp_EnumType fd), i.
  - apply in_all_messages_plain in Hm as (p & parent & i & md & Hp & ->).
    rewrite parseMessage_unfold in He. simpl in He.
    apply list_elem_of_lookup in He as [k Hk]. by eexists p, _, _, k.
Qed.

Lemma in_all_extensions x :
  x ∈ all_extensions F →
  ∃ p parent protos i, points_to self fd p ∧ parseExtensions p parent protos !! i = Some x.
Proof.
  unfold all_extensions. rewrite elem_of_app, list_elem_of_bind.
  intros [Hx | (m & Hx & Hm)].
  - destruct (parseFile_Returned _ _ _ _ HF) as (_ & _ & _ & (p & Hp & Hexts) & _).
    rewrite Hexts in Hx. apply list_elem_of_lookup in Hx as [i Hi].
    by exists p, None, (fp_Extension fd), i.
  - apply in_all_messages_plain in Hm as (p & parent & i & md & Hp & ->).
    rewrite parseMessage_unfold in Hx. simpl in Hx.
    apply list_elem_of_lookup in Hx as [k Hk]. by eexists p, _, _, k.
Qed.

Lemma in_all_fields fl :
  fl ∈ all_fields F →
  ∃ p message protos i,
    points_to self fd p ∧ parseMessageFields p message protos !! i = Some fl.
Proof.
  unfold all_fields. rewrite list_elem_of_bind. intros (m & Hfl & Hm).
  apply in_all_messages_plain in Hm as (p & parent & i & md & Hp & ->).
  rewrite parseMessage_unfold in Hfl. simpl in Hfl.
  apply list_elem_of_lookup in Hfl as [k Hk]. by eexists p, _, _, k.
Qed.

Lemma in_all_values v :
  v ∈ all_values F →
  ∃ p enum protos i, points_to self fd p ∧ parseEnumValues p enum protos !! i = Some v.
Proof.
  unfold all_values. rewrite list_elem_of_bind. intros (e & Hv & He).
  apply in_all_enums in He as (p & parent & protos & i & Hp & Hi).
  rewrite parseEnums_lookup in Hi.
  destruct (protos !! i) as [ed|]; simplify_eq/=.
  apply list_elem_of_lookup in Hv as [k Hk]. by eexists p, _, _, k.
Qed.

Lemma in_f_Services s :
  s ∈ f_Services F →
  ∃ p i, points_to self fd p ∧ f_Messages (ptr_deref p) = f_Messages F
         ∧ parseServices p (fp_Service fd) !! i = Some s.
Proof.
  intros Hs.
  destruct (parseFile_Returned _ _ _ _ HF) as (_ & _ & _ & _ & _ & (p & Hp & Hm & Hsvcs)).
  rewrite Hsvcs in Hs. apply list_elem_of_lookup in Hs as [i Hi]. by exists p, i.
Qed.

Lemma in_all_methods md :
  md ∈ all_methods F →
  ∃ p svc protos i,
    points_to self fd p ∧ f_Messages (ptr_deref p) = f_Messages F
    ∧ parseServiceMethods p svc protos !! i = Some md.
Proof.
  unfold all_methods. rewrite list_elem_of_bind. intros (s & Hmd & Hs).
  apply in_f_Services in Hs as (p & i & Hp & Hm & Hi).
  rewrite parseServices_lookup in Hi.
  destruct (fp_Service fd !! i) as [sd|]; simplify_eq/=.
  apply list_elem_of_lookup in Hmd as [k Hk]. by eexists p, _, _, k.
Qed.

(** Every Common facet of the file was made by [newCommon] for this
    file, and only its option map was touched afterwards. *)
Lemma file_commons_newCommon c :
  c ∈ file_commons F →
  ∃ p path longName o,
    points_to self fd p ∧ c = with_options (newCommon p path longName) o.
Proof.
  unfold file_commons. rewrite !elem_of_app, !list_elem_of_fmap.
  intros [(m & -> & Hm) | [(e & -> & He) | [(v & -> & Hv) | [(fl & -> & Hfl)
    | [(x & -> & Hx) | [(s & -> & Hs) | (md & -> & Hmd)]]]]]].
  - apply in_all_messages_plain in Hm as (p & parent & i & md & Hp & ->).
    rewrite parseMessage_unfold. simpl. by eexists p, _, _, _.
  - apply in_all_enums in He as (p & parent & protos & i & Hp & Hi).
    rewrite parseEnums_lookup in Hi. destruct (protos !! i); simplify_eq/=.
    by eexists p, _, _, _.
  - apply in_all_values in Hv as (p & enum & protos & i & Hp & Hi).
    rewrite parseEnumValues_lookup in Hi. destruct (protos !! i); simplify_eq/=.
    by eexists p, _, _, _.
  - apply in_all_fields in Hfl as (p & msg & protos & i & Hp & Hi).
    rewrite parseMessageFields_lookup in Hi. destruct (protos !! i); simplify_eq/=.
    by eexists p, _, _, _.
  - apply in_all_extensions in Hx as (p & parent & protos & i & Hp & Hi).
    rewrite parseExtensions_lookup in Hi. destruct (protos !! i); simplify_eq/=.
    by eexists p, _, _, _.
  - apply in_f_Services in Hs as (p & i & Hp & _ & Hi).
    rewrite parseServices_lookup in Hi. destruct (fp_Service fd !! i); simplify_eq/=.
    by eexists p, _, _, _.
  - apply in_all_methods in Hmd as (p & svc & protos & i & Hp & _ & Hi).
    rewrite parseServiceMethods_lookup in Hi. destruct (protos !! i); simplify_eq/=.
    by eexists p, _, _, _.
Qed.
End provenance.
End shape.

(** ** Full names (newCommon) *)

Lemma prefix_empty (s : string) : String.prefix "" s = true.
Proof. by destruct s. Qed.

Lemma HasPrefix_app_nonempty (a b : string) :
  a ≠ "" → HasPrefix (a +:+ b) "." = HasPrefix a ".".
Proof.
  intros Ha. destruct a as [|c a]; [done|].
  apply Bool.eq_iff_eq_true. unfold HasPrefix. rewrite !prefix_spec.
  rewrite string_app_cons.
  split; intros [rest Hr]; change ("." +:+ rest) with (String "." rest) in Hr;
    injection Hr as -> _; by eexists.
Qed.

Section newCommon_facts.
Variables (p : FilePtr) (path longName : string).
Let package := PKFileDescriptor_GetPackage (ptr_deref p).

Lemma newCommon_LongName rev : LongName (newCommon rev p path longName) = longName.
Proof. done. Qed.

Lemma newCommon_path rev : c_path (newCommon rev p path longName) = path.
Proof. done. Qed.

Lemma newCommon_qualified rev :
  HasPrefix longName "." = true → FullName (newCommon rev p path longName) = longName.
Proof. unfold newCommon. cbn [FullName]. by intros ->. Qed.

Lemma newCommon_current_leading_dot :
  HasPrefix (FullName (newCommon current p path longName)) "." = true.
Proof.
  unfold newCommon. cbn [FullName].
  destruct (HasPrefix longName ".") eqn:Hl; cbn [negb]; [done|].
  destruct (HasPrefix (Sprintf_s_s _ _) ".") eqn:Hfn; cbn [negb]; [done|].
  apply HasPrefix_dot_cons.
Qed.

Lemma newCommon_current_no_package :
  HasPrefix longName "." = false → package = "" →
  FullName (newCommon current p path longName) = "." +:+ longName.
Proof.
  unfold newCommon. fold package. cbn [FullName]. intros Hl Hp. rewrite Hl, Hp.
  cbn [negb]. unfold Sprintf_s_s. by rewrite string_app_nil_l, HasPrefix_dot_cons.
Qed.

Lemma newCommon_current_package :
  HasPrefix longName "." = false → package ≠ "" → HasPrefix package "." = false →
  FullName (newCommon current p path longName) = "." +:+ package +:+ "." +:+ longName.
Proof.
  unfold newCommon. fold package. cbn [FullName]. intros Hl Hne Hp. rewrite Hl.
  cbn [negb]. unfold Sprintf_s_s. by rewrite HasPrefix_app_nonempty, Hp.
Qed.

Lemma newCommon_current_dotted_package :
  HasPrefix longName "." = false → HasPrefix package "." = true →
  FullName (newCommon current p path longName) = package +:+ "." +:+ longName.
Proof.
  unfold newCommon. fold package. cbn [FullName]. intros Hl Hp. rewrite Hl.
  cbn [negb]. unfold Sprintf_s_s. by rewrite (HasPrefix_app_l _ _ _ Hp).
Qed.

(** The older text of [newCommon] adds no leading dot. *)
Lemma newCommon_legacy_FullName :
  HasPrefix longName "." = false →
  FullName (newCommon legacy p path longName) = package +:+ "." +:+ longName.
Proof. unfold newCommon. fold package. cbn [FullName]. by intros ->. Qed.
End newCommon_facts.

(** C1 (as stated, refuted): in the file without a package the message [M]
    has the long name [M], which starts with no dot, and the full name
    [.M]; the stated formula ['.' + package + '.' + LongName] gives [..M]. *)
Lemma C1_counterexample :
  ∃ F c,
    Scenario.build current Scenario.bare_proto = Returned F
    ∧ c ∈ file_commons F
    ∧ HasPrefix (LongName c) "." = false
    ∧ FullName c = ".M"
    ∧ "." +:+ PKFileDescriptor_GetPackage F +:+ "." +:+ LongName c = "..M"
    ∧ FullName c ≠ "." +:+ PKFileDescriptor_GetPackage F +:+ "." +:+ LongName c.
Proof.
  eexists _, _. split; [vm_compute; reflexivity|].
  split; [apply list_elem_of_lookup_2 with 0; vm_compute; reflexivity|].
  vm_compute. by split_and!.
Qed.

(** C1 (amended): in the current revision every entity of an assembled file
    has a full name that begins with a dot; it is the long name itself when
    that begins with a dot, and otherwise ['.' + LongName] for a file without
    a package, ['.' + package + '.' + LongName] for a package that is not
    empty and begins with no dot, and [package + '.' + LongName] for a
    package that begins with a dot. *)
Theorem C1_FullName_of_entities GlobalTypes ParseComments allFilesMap self fd F c :
  parseFile current GlobalTypes ParseComments allFilesMap self fd = Returned F →
  c ∈ file_commons F →
  HasPrefix (FullName c) "." = true
  ∧ (HasPrefix (LongName c) "." = true → FullName c = LongName c)
  ∧ (HasPrefix (LongName c) "." = false →
       (fp_Package fd = "" → FullName c = "." +:+ LongName c)
       ∧ (fp_Package fd ≠ "" → HasPrefix (fp_Package fd) "." = false →
            FullName c = "." +:+ fp_Package fd +:+ "." +:+ LongName c)
       ∧ (HasPrefix (fp_Package fd) "." = true →
            FullName c = fp_Package fd +:+ "." +:+ LongName c)).
Proof.
  intros HF Hc.
  destruct (file_commons_newCommon _ _ _ _ _ _ _ HF c Hc)
    as (p & path & longName & o & (_ & Hdesc & _) & ->).
  rewrite with_options_FullName, with_options_LongName, newCommon_LongName.
  assert (PKFileDescriptor_GetPackage (ptr_deref p) = fp_Package fd) as Hpkg
    by (unfold PKFileDescriptor_GetPackage; by rewrite Hdesc).
  split; [apply newCommon_current_leading_dot|].
  split; [apply newCommon_qualified|].
  intros Hl. rewrite <- Hpkg. split_and!.
  - by apply newCommon_current_no_package.
  - by apply newCommon_current_package.
  - by apply newCommon_current_dotted_package.
Qed.

(** The nested message [M.N] of the package [a.b]. *)
Lemma C1_FullName_of_entities_witness :
  let F := match Scenario.build current Scenario.ab_proto with
           | Returned F => F
           | _ => new_file current [] Scenario.no_comments Scenario.ab_proto
           end in
  let c := {| c_file := 0; c_path := "4.0.3.0"; LongName := "M.N";
              FullName := ".a.b.M.N"; OptionExtensions := None |} in
  Scenario.build current Scenario.ab_proto = Returned F
  ∧ c ∈ file_commons F
  ∧ HasPrefix (FullName c) "." = true
  ∧ FullName c = "." +:+ "a.b" +:+ "." +:+ LongName c.
Proof.
  intros F c.
  assert (Scenario.build current Scenario.ab_proto = Returned F) as HF
    by (vm_compute; reflexivity).
  assert (c ∈ file_commons F) as Hc
    by (apply list_elem_of_lookup_2 with 1; vm_compute; reflexivity).
  split; [exact HF|]. split; [exact Hc|].
  destruct (C1_FullName_of_entities [] Scenario.no_comments ∅ 0 Scenario.ab_proto F c HF Hc)
    as (Hdot & _ & Hrest).
  split; [exact Hdot|].
  destruct (Hrest eq_refl) as (_ & Hpkg & _).
  apply Hpkg; [discriminate | reflexivity].
Defined.

(** ** Substrings and dot-separated segments *)

(** [sub] occurs in [s]. *)
Definition is_substring (sub s : string) : Prop :=
  ∃ pre post, s = pre +:+ sub +:+ post.

Definition dot_free (s : string) : Prop := ¬ is_substring "." s.

(** [seg] is the last dot-separated segment of [s]. *)
Definition last_segment (s seg : string) : Prop :=
  dot_free seg ∧ (s = seg ∨ ∃ pre, s = pre +:+ "." +:+ seg).

(** [strings.Join(parts, ".")]. *)
Fixpoint join_dot (parts : list string) : string :=
  match parts with
  | [] => ""
  | [x] => x
  | x :: rest => x +:+ "." +:+ join_dot rest
  end.

Lemma string_app_eq_empty (a b : string) : a +:+ b = "" → a = "" ∧ b = "".
Proof. destruct a; [done|]. rewrite string_app_cons. discriminate. Qed.

Lemma Contains_cons (c : ascii) (s sub : string) :
  Contains (String c s) sub = HasPrefix (String c s) sub || Contains s sub.
Proof. reflexivity. Qed.

Lemma Contains_spec (s sub : string) : Contains s sub = true ↔ is_substring sub s.
Proof.
  unfold is_substring. induction s as [|c s IH].
  - change (Contains "" sub) with (HasPrefix "" sub || false).
    rewrite orb_false_r. unfold HasPrefix. rewrite prefix_spec. split.
    + intros [rest ->]. by exists "", rest.
    + intros (pre & post & Heq). symmetry in Heq.
      apply string_app_eq_empty in Heq as [-> Heq].
      apply string_app_eq_empty in Heq as [-> ->]. by exists "".
  - rewrite Contains_cons, orb_true_iff, IH. unfold HasPrefix. rewrite prefix_spec.
    split.
    + intros [[rest ->] | (pre & post & ->)].
      * by exists "", rest.
      * by exists (String c pre), post.
    + intros ([|c' pre] & post & Heq).
      * left. by exists post.
      * right. rewrite string_app_cons in Heq. injection Heq as -> ->. by exists pre, post.
Qed.

Lemma dot_free_empty : dot_free "".
Proof.
  intros (pre & post & Heq). symmetry in Heq.
  apply string_app_eq_empty in Heq as [_ Heq]. discriminate.
Qed.

Lemma dot_free_cons (c : ascii) (s : string) :
  c ≠ "."%char → dot_free s → dot_free (String c s).
Proof.
  intros Hc Hs ([|c' pre] & post & Heq).
  - injection Heq as -> _. done.
  - rewrite string_app_cons in Heq. injection Heq as -> ->. apply Hs. by exists pre, post.
Qed.

Lemma Split_dot_cons (c : ascii) (s : string) :
  Split_dot (String c s) =
  if Ascii.eqb c "." then "" :: Split_dot s
  else match Split_dot s with
       | piece :: rest => String c piece :: rest
       | [] => [String c ""]
       end.
Proof. reflexivity. Qed.

Lemma Split_dot_nonempty (s : string) : Split_dot s ≠ [].
Proof.
  destruct s as [|c s]; [done|]. rewrite Split_dot_cons.
  destruct (Ascii.eqb c "."); [done|]. by destruct (Split_dot s).
Qed.

Lemma Split_dot_dot_free (s : string) : Forall dot_free (Split_dot s).
Proof.
  induction s as [|c s IH].
  - constructor; [apply dot_free_empty | constructor].
  - rewrite Split_dot_cons. destruct (Ascii.eqb c ".") eqn:Hc.
    + constructor; [apply dot_free_empty | done].
    + apply Ascii.eqb_neq in Hc. destruct (Split_dot s) as [|piece rest].
      * constructor; [|constructor]. apply dot_free_cons; [done | apply dot_free_empty].
      * inversion IH; subst. constructor; [|done]. by apply dot_free_cons.
Qed.

Lemma join_dot_Split_dot (s : string) : join_dot (Split_dot s) = s.
Proof.
  induction s as [|c s IH]; [done|]. rewrite Split_dot_cons.
  pose proof (Split_dot_nonempty s) as Hne.
  destruct (Ascii.eqb c ".") eqn:Hc.
  - apply Ascii.eqb_eq in Hc as ->.
    destruct (Split_dot s) as [|piece rest]; [done|].
    change (join_dot ("" :: piece :: rest)) with ("" +:+ "." +:+ join_dot (piece :: rest)).
    by rewrite IH.
  - destruct (Split_dot s) as [|piece rest]; [done|]. rewrite <- IH.
    destruct rest as [|piece' rest]; [done|].
    change (join_dot (String c piece :: piece' :: rest))
      with (String c piece +:+ "." +:+ join_dot (piece' :: rest)).
    by rewrite string_app_cons.
Qed.

Lemma join_dot_snoc (init : list string) (x : string) :
  join_dot (init ++ [x]) = x ∨ ∃ pre, join_dot (init ++ [x]) = pre +:+ "." +:+ x.
Proof.
  induction init as [|y init IH]; [by left|]. right.
  destruct init as [|z init].
  - by exists y.
  - change (join_dot ((y :: z :: init) ++ [x]))
      with (y +:+ "." +:+ join_dot ((z :: init) ++ [x])).
    destruct IH as [-> | [pre ->]].
    + by exists y.
    + exists (y +:+ "." +:+ pre). by rewrite !string_app_assoc.
Qed.

(** The last piece of a split is the last dot-separated segment. *)
Lemma last_part_Split_dot (s : string) : last_segment s (last_part (Split_dot s)).
Proof.
  pose proof (Split_dot_nonempty s) as Hne.
  pose proof (Split_dot_dot_free s) as Hfree.
  pose proof (join_dot_Split_dot s) as Hjoin.
  unfold last_part. destruct (Split_dot s) as [|x init _] using rev_ind; [done|].
  rewrite List.last_last. split.
  - apply Forall_app in Hfree as [_ Hx]. by inversion Hx.
  - rewrite <- Hjoin. apply join_dot_snoc.
Qed.

(** ** Extension long names *)

(** C6: for every extension of an assembled file (top-level or declared
    inside a message), the long name is [extendee + '.' + name], unless the
    package of the file occurs in that string: then it is the last
    dot-separated segment of the extendee, followed by ['.' + name].  The
    extension [ext] of [a.b.Base] in the package [a.b] is named
    [Base.ext]. *)
Theorem C6_extension_long_name rev GlobalTypes ParseComments allFilesMap self fd F x :
  parseFile rev GlobalTypes ParseComments allFilesMap self fd = Returned F →
  x ∈ all_extensions F →
  let extendee := fdp_Extendee (x_desc x) in
  let name := fdp_Name (x_desc x) in
  let naive := extendee +:+ "." +:+ name in
  (¬ is_substring (fp_Package fd) naive → LongName (x_common x) = naive)
  ∧ (is_substring (fp_Package fd) naive →
       ∃ seg, last_segment extendee seg ∧ LongName (x_common x) = seg +:+ "." +:+ name)
  ∧ (fp_Package fd = "a.b" → extendee = "a.b.Base" → name = "ext" →
       LongName (x_common x) = "Base.ext").
Proof.
  intros HF Hx.
  destruct (in_all_extensions _ _ _ _ _ _ _ HF x Hx)
    as (p & parent & protos & i & (_ & Hdesc & _) & Hi).
  rewrite parseExtensions_lookup in Hi.
  destruct (protos !! i) as [ext|]; [|done].
  injection Hi as <-. cbn [x_common x_desc].
  rewrite with_options_LongName, newCommon_LongName.
  unfold PKFileDescriptor_GetPackage, extension_longName, Sprintf_s_s. rewrite Hdesc.
  destruct (Contains _ (fp_Package fd)) eqn:Hc.
  - apply Contains_spec in Hc. split_and!.
    + by intros [].
    + intros _. eexists. split; [apply last_part_Split_dot | done].
    + intros _ -> ->. reflexivity.
  - assert (¬ is_substring (fp_Package fd)
                (fdp_Extendee ext +:+ "." +:+ fdp_Name ext)) as Hn.
    { rewrite <- Contains_spec. by rewrite Hc. }
    split_and!; [done | by intros ? |].
    intros Hpkg He Hname. exfalso. apply Hn. rewrite Hpkg, He.
    by exists "", (".Base." +:+ fdp_Name ext).
Qed.

(** The extension [ext] of [a.b.Base] in [ab.proto]. *)
Lemma C6_extension_long_name_witness :
  let F := match Scenario.build current Scenario.ab_proto with
           | Returned F => F
           | _ => new_file current [] Scenario.no_comments Scenario.ab_proto
           end in
  let x := {| x_common := {| c_file := 0; c_path := "7.0"; LongName := "Base.ext";
                             FullName := ".a.b.Base.ext"; OptionExtensions := None |};
              x_desc := {| fdp_Name := "ext"; fdp_Extendee := "a.b.Base";
                           fdp_Options := None |};
              x_Parent := None;
              x_Comments := Some no_comment |} in
  Scenario.build current Scenario.ab_proto = Returned F
  ∧ x ∈ all_extensions F
  ∧ LongName (x_common x) = "Base.ext".
Proof.
  intros F x.
  assert (Scenario.build current Scenario.ab_proto = Returned F) as HF
    by (vm_compute; reflexivity).
  assert (x ∈ all_extensions F) as Hx
    by (apply list_elem_of_lookup_2 with 0; vm_compute; reflexivity).
  split; [exact HF|]. split; [exact Hx|].
  destruct (C6_extension_long_name current [] Scenario.no_comments ∅ 0
              Scenario.ab_proto F x HF Hx) as (_ & _ & Hscenario).
  by apply Hscenario.
Defined.

(** ** Comments and comment paths *)

Lemma Sprintf_d_d_message i : Sprintf_d_d messageCommentPath i = "4." +:+ pretty i.
Proof. reflexivity. Qed.
Lemma Sprintf_d_d_enum i : Sprintf_d_d enumCommentPath i = "5." +:+ pretty i.
Proof. reflexivity. Qed.
Lemma Sprintf_d_d_service i : Sprintf_d_d serviceCommentPath i = "6." +:+ pretty i.
Proof. reflexivity. Qed.
Lemma Sprintf_d_d_extension i : Sprintf_d_d extensionCommentPath i = "7." +:+ pretty i.
Proof. reflexivity. Qed.

Lemma Sprintf_s_d_d_2 prefix i : Sprintf_s_d_d prefix 2 i = prefix +:+ ".2." +:+ pretty i.
Proof. reflexivity. Qed.
Lemma Sprintf_s_d_d_3 prefix i : Sprintf_s_d_d prefix 3 i = prefix +:+ ".3." +:+ pretty i.
Proof. reflexivity. Qed.
Lemma Sprintf_s_d_d_4 prefix i : Sprintf_s_d_d prefix 4 i = prefix +:+ ".4." +:+ pretty i.
Proof. reflexivity. Qed.
Lemma Sprintf_s_d_d_6 prefix i : Sprintf_s_d_d prefix 6 i = prefix +:+ ".6." +:+ pretty i.
Proof. reflexivity. Qed.

(** Closes a goal on the path and the comment of one entity, given how the
    Comment Index of the builder's file pointer relates to the file's. *)
Ltac entity_path Hc :=
  rewrite ?Hc; repeat rewrite with_options_path; split; reflexivity.

Section comments.
Variable rev : revision.
Variable GlobalTypes : list ExtensionType.
Variable ParseComments : FileDescriptorProto → gmap string Comment.
Context (allFilesMap : gmap string loc) (self : loc) (fd : FileDescriptorProto).
Context (F : PKFileDescriptor).
Hypothesis HF : parseFile rev GlobalTypes ParseComments allFilesMap self fd = Returned F.

Lemma comments_of_points_to p :
  points_to ParseComments self fd p → comments_of p = f_comments F.
Proof.
  intros (_ & _ & Hc). unfold comments_of. rewrite Hc.
  by destruct (parseFile_Returned _ _ _ _ _ _ _ HF) as (_ & -> & _).
Qed.

(** Every comment of an entity is the result of a lookup in the Comment
    Index of the file. *)
Lemma file_entity_comments_Get c :
  c ∈ file_entity_comments F → ∃ path, c = Comments_Get (f_comments F) path.
Proof.
  unfold file_entity_comments. rewrite !elem_of_app, !list_elem_of_fmap.
  intros [(m & -> & Hm) | [(e & -> & He) | [(v & -> & Hv) | [(fl & -> & Hfl)
    | [(x & -> & Hx) | [(s & -> & Hs) | (md & -> & Hmd)]]]]]].
  - apply (in_all_messages_plain _ _ _ _ _ _ _ HF) in Hm
      as (p & parent & i & md & Hp & ->).
    rewrite parseMessage_unfold. cbn. rewrite (comments_of_points_to p Hp). by eexists.
  - apply (in_all_enums _ _ _ _ _ _ _ HF) in He as (p & parent & protos & i & Hp & Hi).
    rewrite parseEnums_lookup in Hi. destruct (protos !! i); [|done].
    injection Hi as <-. cbn. rewrite (comments_of_points_to p Hp). by eexists.
  - apply (in_all_values _ _ _ _ _ _ _ HF) in Hv as (p & enum & protos & i & Hp & Hi).
    rewrite parseEnumValues_lookup in Hi. destruct (protos !! i); [|done].
    injection Hi as <-. cbn. rewrite (comments_of_points_to p Hp). by eexists.
  - apply (in_all_fields _ _ _ _ _ _ _ HF) in Hfl as (p & msg & protos & i & Hp & Hi).
    rewrite parseMessageFields_lookup in Hi. destruct (protos !! i); [|done].
    injection Hi as <-. cbn. rewrite (comments_of_points_to p Hp). by eexists.
  - apply (in_all_extensions _ _ _ _ _ _ _ HF) in Hx
      as (p & parent & protos & i & Hp & Hi).
    rewrite parseExtensions_lookup in Hi. destruct (protos !! i); [|done].
    injection Hi as <-. cbn. rewrite (comments_of_points_to p Hp). by eexists.
  - apply (in_f_Services _ _ _ _ _ _ _ HF) in Hs as (p & i & Hp & _ & Hi).
    rewrite parseServices_lookup in Hi. destruct (fp_Service fd !! i); [|done].
    injection Hi as <-. cbn. rewrite (comments_of_points_to p Hp). by eexists.
  - apply (in_all_methods _ _ _ _ _ _ _ HF) in Hmd
      as (p & svc & protos & i & Hp & _ & Hi).
    rewrite parseServiceMethods_lookup in Hi. destruct (protos !! i); [|done].
    injection Hi as <-. cbn. rewrite (comments_of_points_to p Hp). by eexists.
Qed.

(** *** Paths of the top-level entities *)

Lemma top_message_path i m :
  f_Messages F !! i = Some m →
  c_path (m_common m) = "4." +:+ pretty i
  ∧ m_Comments m = Comments_Get (f_comments F) ("4." +:+ pretty i).
Proof.
  destruct (parseFile_Returned _ _ _ _ _ _ _ HF) as (_ & _ & _ & _ & (p & Hp & ->) & _).
  rewrite parseMessages_lookup. destruct (fp_MessageType fd !! i); [|done].
  intros [= <-]. rewrite parseMessage_unfold. unfold message_common. cbn -[with_options Comments_Get].
  entity_path (comments_of_points_to p Hp).
Qed.

Lemma top_enum_path i e :
  f_Enums F !! i = Some e →
  c_path (e_common e) = "5." +:+ pretty i
  ∧ e_Comments e = Comments_Get (f_comments F) ("5." +:+ pretty i).
Proof.
  destruct (parseFile_Returned _ _ _ _ _ _ _ HF) as (_ & _ & (p & Hp & ->) & _).
  rewrite parseEnums_lookup. destruct (fp_EnumType fd !! i); [|done].
  intros [= <-]. cbn -[with_options Comments_Get]. entity_path (comments_of_points_to p Hp).
Qed.

Lemma top_service_path i s :
  f_Services F !! i = Some s →
  c_path (s_common s) = "6." +:+ pretty i
  ∧ s_Comments s = Comments_Get (f_comments F) ("6." +:+ pretty i).
Proof.
  destruct (parseFile_Returned _ _ _ _ _ _ _ HF)
    as (_ & _ & _ & _ & _ & (p & Hp & _ & ->)).
  rewrite parseServices_lookup. destruct (fp_Service fd !! i); [|done].
  intros [= <-]. cbn -[with_options Comments_Get]. entity_path (comments_of_points_to p Hp).
Qed.

Lemma top_extension_path i x :
  f_Extensions F !! i = Some x →
  c_path (x_common x) = "7." +:+ pretty i
  ∧ x_Comments x = Comments_Get (f_comments F) ("7." +:+ pretty i).
Proof.
  destruct (parseFile_Returned _ _ _ _ _ _ _ HF) as (_ & _ & _ & (p & Hp & ->) & _).
  rewrite parseExtensions_lookup. destruct (fp_Extension fd !! i); [|done].
  intros [= <-]. cbn -[with_options Comments_Get]. entity_path (comments_of_points_to p Hp).
Qed.

(** *** Paths of what a message, an enum or a service contains *)

Lemma message_children_paths m :
  m ∈ all_messages F →
  (∀ i fl, m_Fields m !! i = Some fl →
     fl_Comments fl = Comments_Get (f_comments F) (c_path (m_common m) +:+ ".2." +:+ pretty i)
     ∧ c_path (fl_common fl) = "")
  ∧ (∀ i n, m_Messages m !! i = Some n →
       c_path (m_common n) = c_path (m_common m) +:+ ".3." +:+ pretty i
       ∧ m_Comments n = Comments_Get (f_comments F)
                          (c_path (m_common m) +:+ ".3." +:+ pretty i))
  ∧ (∀ i e, m_Enums m !! i = Some e →
       c_path (e_common e) = c_path (m_common m) +:+ ".4." +:+ pretty i
       ∧ e_Comments e = Comments_Get (f_comments F)
                          (c_path (m_common m) +:+ ".4." +:+ pretty i))
  ∧ (∀ i x, m_Extensions m !! i = Some x →
       c_path (x_common x) = c_path (m_common m) +:+ ".6." +:+ pretty i
       ∧ x_Comments x = Comments_Get (f_comments F)
                          (c_path (m_common m) +:+ ".6." +:+ pretty i)).
Proof.
  intros Hm.
  apply (in_all_messages_plain _ _ _ _ _ _ _ HF) in Hm as (p & parent & k & md & Hp & ->).
  rewrite parseMessage_unfold. cbn [m_common m_Fields m_Messages m_Enums m_Extensions].
  unfold message_common.
  pose proof (comments_of_points_to p Hp) as Hc.
  split_and!; intros i y.
  - rewrite parseMessageFields_lookup. destruct (dp_Field md !! i); [|done].
    intros [= <-]. cbn -[with_options Comments_Get]. entity_path Hc.
  - rewrite parseMessages_lookup. destruct (dp_NestedType md !! i); [|done].
    intros [= <-]. rewrite parseMessage_unfold. unfold message_common.
    cbn -[with_options Comments_Get]. entity_path Hc.
  - rewrite parseEnums_lookup. destruct (dp_EnumType md !! i); [|done].
    intros [= <-]. cbn -[with_options Comments_Get]. entity_path Hc.
  - rewrite parseExtensions_lookup. destruct (dp_Extension md !! i); [|done].
    intros [= <-]. cbn -[with_options Comments_Get]. entity_path Hc.
Qed.

Lemma enum_values_paths e :
  e ∈ all_enums F →
  ∀ i v, e_Values e !! i = Some v →
    v_Comments v = Comments_Get (f_comments F) (c_path (e_common e) +:+ ".2." +:+ pretty i)
    ∧ c_path (v_common v) = "".
Proof.
  intros He i v.
  apply (in_all_enums _ _ _ _ _ _ _ HF) in He as (p & parent & protos & k & Hp & Hk).
  rewrite parseEnums_lookup in Hk. destruct (protos !! k) as [ed|]; [|done].
  injection Hk as <-. cbn [e_Values e_common].
  rewrite parseEnumValues_lookup. destruct (edp_Value ed !! i); [|done].
  intros [= <-]. cbn -[with_options Comments_Get]. entity_path (comments_of_points_to p Hp).
Qed.

Lemma service_methods_paths s :
  s ∈ f_Services F →
  ∀ i md, s_Methods s !! i = Some md →
    md_Comments md = Comments_Get (f_comments F)
                       (c_path (s_common s) +:+ ".2." +:+ pretty i)
    ∧ c_path (md_common md) = "".
Proof.
  intros Hs i md.
  apply (in_f_Services _ _ _ _ _ _ _ HF) in Hs as (p & k & Hp & _ & Hk).
  rewrite parseServices_lookup in Hk. destruct (fp_Service fd !! k) as [sd|]; [|done].
  injection Hk as <-. cbn [s_Methods s_common].
  rewrite parseServiceMethods_lookup. destruct (sdp_Method sd !! i); [|done].
  intros [= <-]. cbn -[with_options Comments_Get]. entity_path (comments_of_points_to p Hp).
Qed.
End comments.

(** C9: the lookup in the Comment Index is total.  Every message, enum,
    enum value, field, extension, service and method of an assembled file
    carries a comment, so its [GetComments] accessor never yields nil; a path
    without authored documentation yields the "no comment" value. *)
Theorem C9_comments_never_absent rev GlobalTypes ParseComments allFilesMap self fd F :
  parseFile rev GlobalTypes ParseComments allFilesMap self fd = Returned F →
  (∀ c, c ∈ file_entity_comments F → c ≠ None)
  ∧ (∀ (index : gmap string Comment) (path : string),
       index !! path = None → Comments_Get index path = Some no_comment)
  ∧ (∀ (index : gmap string Comment) (path : string), Comments_Get index path ≠ None).
Proof.
  intros HF. split_and!.
  - intros c Hc.
    destruct (file_entity_comments_Get _ _ _ _ _ _ _ HF c Hc) as [path ->]. done.
  - intros index path Hnone. unfold Comments_Get. by rewrite Hnone.
  - done.
Qed.

(** The entities of [ab.proto], which has no authored comment at all. *)
Lemma C9_comments_never_absent_witness :
  let F := match Scenario.build current Scenario.ab_proto with
           | Returned F => F
           | _ => new_file current [] Scenario.no_comments Scenario.ab_proto
           end in
  Scenario.build current Scenario.ab_proto = Returned F
  ∧ length (file_entity_comments F) = 8
  ∧ ∀ c, c ∈ file_entity_comments F → c ≠ None.
Proof.
  intros F.
  assert (Scenario.build current Scenario.ab_proto = Returned F) as HF
    by (vm_compute; reflexivity).
  split; [exact HF|]. split; [vm_compute; reflexivity|].
  exact (proj1 (C9_comments_never_absent current [] Scenario.no_comments ∅ 0
                  Scenario.ab_proto F HF)).
Defined.

(** C8 (as stated, refuted): the field [f] of the nested message [M.N] has
    its comment looked up at [4.0.3.0.2.0], but the path attached to the
    field by its constructor is the empty string. *)
Lemma C8_counterexample :
  ∃ F m fl,
    Scenario.build current Scenario.ab_proto = Returned F
    ∧ m ∈ all_messages F
    ∧ m_Fields m !! 0 = Some fl
    ∧ c_path (m_common m) +:+ ".2." +:+ pretty 0 = "4.0.3.0.2.0"
    ∧ c_path (fl_common fl) = ""
    ∧ c_path (fl_common fl) ≠ c_path (m_common m) +:+ ".2." +:+ pretty 0.
Proof.
  eexists _, _, _. split; [vm_compute; reflexivity|].
  split; [apply list_elem_of_lookup_2 with 1; vm_compute; reflexivity|].
  split; [vm_compute; reflexivity|].
  vm_compute. by split_and!.
Qed.

(** C8 (amended): for the entity at index [i] among its siblings, the
    comment is the Comment Index entry at [tag.i] for a top-level entity
    (message 4, enum 5, service 6, extension 7) and at [parent path.tag.i]
    for a contained one (field 2, nested message 3, nested enum 4, nested
    extension 6, enum value 2, method 2).  That path is also the path kept
    in the Common facet of a message, an enum, a service and an extension;
    the Common facet of a field, an enum value and a method keeps the empty
    path. *)
Theorem C8_comment_paths rev GlobalTypes ParseComments allFilesMap self fd F :
  parseFile rev GlobalTypes ParseComments allFilesMap self fd = Returned F →
  let comment_at := Comments_Get (f_comments F) in
  (∀ i m, f_Messages F !! i = Some m →
     c_path (m_common m) = "4." +:+ pretty i
     ∧ GetComments_message m = comment_at ("4." +:+ pretty i))
  ∧ (∀ i e, f_Enums F !! i = Some e →
       c_path (e_common e) = "5." +:+ pretty i
       ∧ GetComments_enum e = comment_at ("5." +:+ pretty i))
  ∧ (∀ i s, f_Services F !! i = Some s →
       c_path (s_common s) = "6." +:+ pretty i
       ∧ GetComments_service s = comment_at ("6." +:+ pretty i))
  ∧ (∀ i x, f_Extensions F !! i = Some x →
       c_path (x_common x) = "7." +:+ pretty i
       ∧ GetComments_extension x = comment_at ("7." +:+ pretty i))
  ∧ (∀ m, m ∈ all_messages F →
       (∀ i fl, m_Fields m !! i = Some fl →
          GetComments_field fl = comment_at (c_path (m_common m) +:+ ".2." +:+ pretty i)
          ∧ c_path (fl_common fl) = "")
       ∧ (∀ i n, m_Messages m !! i = Some n →
            c_path (m_common n) = c_path (m_common m) +:+ ".3." +:+ pretty i
            ∧ GetComments_message n
              = comment_at (c_path (m_common m) +:+ ".3." +:+ pretty i))
       ∧ (∀ i e, m_Enums m !! i = Some e →
            c_path (e_common e) = c_path (m_common m) +:+ ".4." +:+ pretty i
            ∧ GetComments_enum e
              = comment_at (c_path (m_common m) +:+ ".4." +:+ pretty i))
       ∧ (∀ i x, m_Extensions m !! i = Some x →
            c_path (x_common x) = c_path (m_common m) +:+ ".6." +:+ pretty i
            ∧ GetComments_extension x
              = comment_at (c_path (m_common m) +:+ ".6." +:+ pretty i)))
  ∧ (∀ e, e ∈ all_enums F → ∀ i v, e_Values e !! i = Some v →
       GetComments_value v = comment_at (c_path (e_common e) +:+ ".2." +:+ pretty i)
       ∧ c_path (v_common v) = "")
  ∧ (∀ s, s ∈ f_Services F → ∀ i md, s_Methods s !! i = Some md →
       GetComments_method md = comment_at (c_path (s_common s) +:+ ".2." +:+ pretty i)
       ∧ c_path (md_common md) = "").
Proof.
  intros HF comment_at. split_and!.
  - exact (top_message_path _ _ _ _ _ _ _ HF).
  - exact (top_enum_path _ _ _ _ _ _ _ HF).
  - exact (top_service_path _ _ _ _ _ _ _ HF).
  - exact (top_extension_path _ _ _ _ _ _ _ HF).
  - exact (message_children_paths _ _ _ _ _ _ _ HF).
  - exact (enum_values_paths _ _ _ _ _ _ _ HF).
  - exact (service_methods_paths _ _ _ _ _ _ _ HF).
Qed.

(** In [ab.proto] the top-level message [M] lies at [4.0]. *)
Lemma C8_comment_paths_witness :
  let F := match Scenario.build current Scenario.ab_proto with
           | Returned F => F
           | _ => new_file current [] Scenario.no_comments Scenario.ab_proto
           end in
  Scenario.build current Scenario.ab_proto = Returned F
  ∧ ∀ i m, f_Messages F !! i = Some m →
      c_path (m_common m) = "4." +:+ pretty i
      ∧ GetComments_message m = Comments_Get (f_comments F) ("4." +:+ pretty i).
Proof.
  intros F.
  assert (Scenario.build current Scenario.ab_proto = Returned F) as HF
    by (vm_compute; reflexivity).
  split; [exact HF|].
  exact (proj1 (C8_comment_paths current [] Scenario.no_comments ∅ 0
                  Scenario.ab_proto F HF)).
Defined.

(** ** The driver: building the files *)

Ltac unfold_outcome :=
  unfold mbind, outcome_mbind, outcome_bind, mret, outcome_mret in *.

Lemma for_each_app {S A} (body : S → A → outcome S) (st : S) (xs ys : list A) :
  for_each body st (xs ++ ys) = for_each body st xs ≫= λ st', for_each body st' ys.
Proof.
  revert st. induction xs as [|x xs IH]; intros st; [done|].
  cbn [app for_each]. unfold_outcome. destruct (body st x); [apply IH | done..].
Qed.

(** The map from file names to addresses after the files [pfs] have been
    entered one after the other, the first at address [next]. *)
Fixpoint enter_names (m : gmap string loc) (next : loc) (pfs : list FileDescriptorProto)
    : gmap string loc :=
  match pfs with
  | [] => m
  | pf :: rest => enter_names (<[fp_Name pf := next]> m) (S next) rest
  end.

Definition names_map (pfs : list FileDescriptorProto) : gmap string loc :=
  enter_names ∅ 0 pfs.

Lemma enter_names_app m next xs ys :
  enter_names m next (xs ++ ys) = enter_names (enter_names m next xs) (next + length xs) ys.
Proof.
  revert m next. induction xs as [|x xs IH]; intros m next; cbn [app enter_names length].
  - by rewrite Nat.add_0_r.
  - rewrite IH. by replace (S next + length xs) with (next + S (length xs)) by lia.
Qed.

Lemma names_map_snoc pfs pf :
  names_map (pfs ++ [pf]) = <[fp_Name pf := length pfs]> (names_map pfs).
Proof. unfold names_map. by rewrite enter_names_app. Qed.

(** A name is mapped to the last entry that carries it. *)
Lemma names_map_Some pfs name j :
  names_map pfs !! name = Some j ↔
  (∃ pf, pfs !! j = Some pf ∧ fp_Name pf = name)
  ∧ (∀ j' pf', j < j' → pfs !! j' = Some pf' → fp_Name pf' ≠ name).
Proof.
  revert j. induction pfs as [|pf pfs IH] using rev_ind; intros j.
  - unfold names_map. cbn. rewrite lookup_empty. split; [done|]. by intros [[pf [? _]] _].
  - rewrite names_map_snoc. destruct (decide (fp_Name pf = name)) as [Hn|Hn].
    + rewrite Hn, lookup_insert_eq. split.
      * intros [= <-]. split.
        -- exists pf. by rewrite lookup_app_r, Nat.sub_diag by lia.
        -- intros j' pf' Hlt Hj'. apply lookup_lt_Some in Hj'.
           rewrite length_app in Hj'. cbn in Hj'. lia.
      * intros [[pf0 [Hj Hname]] Hlast]. f_equal.
        destruct (decide (j = length pfs)) as [|Hne]; [done|].
        exfalso. apply lookup_lt_Some in Hj as Hlt. rewrite length_app in Hlt. cbn in Hlt.
        apply (Hlast (length pfs) pf); [lia | | done].
        by rewrite lookup_app_r, Nat.sub_diag by lia.
    + rewrite lookup_insert_ne by done. rewrite IH. split.
      * intros [[pf0 [Hj Hname]] Hlast]. apply lookup_lt_Some in Hj as Hlt. split.
        -- exists pf0. by rewrite lookup_app_l.
        -- intros j' pf' Hjj' Hj'. destruct (decide (j' < length pfs)) as [Hl|Hl].
           ++ rewrite lookup_app_l in Hj' by done. by eapply Hlast.
           ++ rewrite lookup_app_r in Hj' by lia.
              destruct (j' - length pfs) as [|k]; cbn in Hj'; [|done].
              by injection Hj' as <-.
      * intros [[pf0 [Hj Hname]] Hlast].
        destruct (decide (j < length pfs)) as [Hl|Hl].
        -- rewrite lookup_app_l in Hj by done. split; [by exists pf0|].
           intros j' pf' Hjj' Hj'. apply (Hlast j' pf' Hjj').
           apply lookup_lt_Some in Hj' as Hl'. by rewrite lookup_app_l.
        -- rewrite lookup_app_r in Hj by lia.
           destruct (j - length pfs) as [|k]; cbn in Hj; [|done].
           injection Hj as <-. done.
Qed.

Lemma names_map_None pfs name :
  names_map pfs !! name = None ↔ name ∉ fp_Name <$> pfs.
Proof.
  induction pfs as [|pf pfs IH] using rev_ind.
  - unfold names_map. cbn. rewrite lookup_empty. split; [intros _ | done].
    by apply not_elem_of_nil.
  - rewrite names_map_snoc, fmap_app, not_elem_of_app. cbn.
    rewrite list_elem_of_singleton. destruct (decide (fp_Name pf = name)) as [Hn|Hn].
    + rewrite Hn, lookup_insert_eq. split; [done|]. by intros [_ []].
    + rewrite lookup_insert_ne by done. rewrite IH. split; [by intros ? | by intros []].
Qed.

Section driver.
Variable rev : revision.
Variable GlobalTypes : list ExtensionType.
Variable ParseComments : FileDescriptorProto → gmap string Comment.

Local Abbreviation parseFile := (parseFile rev GlobalTypes ParseComments).
Local Abbreviation build := (build_files rev GlobalTypes ParseComments).

Lemma build_files_snoc pfs pf :
  build (pfs ++ [pf]) =
  build pfs ≫= λ '(h, allFilesMap),
    parseFile allFilesMap (length h) pf ≫= λ file,
      Returned (h ++ [file], <[fp_Name pf := length h]> allFilesMap).
Proof.
  unfold build_files. rewrite for_each_app. unfold_outcome.
  destruct (for_each _ _ pfs) as [[h m]| | |]; [|done..].
  cbn [for_each]. unfold_outcome. by destruct (parseFile m (length h) pf).
Qed.

(** After the first loop the store holds, at address [j], the file parsed
    from the [j]-th descriptor against the map of the descriptors before
    it. *)
Lemma build_files_Returned pfs h m :
  build pfs = Returned (h, m) →
  m = names_map pfs ∧ length h = length pfs
  ∧ ∀ j pf, pfs !! j = Some pf →
      ∃ F, h !! j = Some F ∧ parseFile (names_map (take j pfs)) j pf = Returned F.
Proof.
  revert h m. induction pfs as [|pf pfs IH] using rev_ind; intros h m.
  - intros [= <- <-]. split_and!; [done..|]. intros j pf Hj. by rewrite lookup_nil in Hj.
  - rewrite build_files_snoc. unfold_outcome.
    destruct (build pfs) as [[h0 m0]| | |]; [|done..].
    destruct (IH h0 m0 eq_refl) as (-> & Hlen & Hfiles).
    destruct (parseFile (names_map pfs) (length h0) pf) as [F| | |] eqn:HF; [|done..].
    intros [= <- <-]. split_and!.
    + by rewrite names_map_snoc, Hlen.
    + rewrite !length_app. cbn. lia.
    + intros j pf' Hj. destruct (decide (j < length pfs)) as [Hl|Hl].
      * rewrite lookup_app_l in Hj by done.
        destruct (Hfiles j pf' Hj) as (F' & HF' & Hparse).
        exists F'. rewrite lookup_app_l by lia. split; [done|].
        by rewrite take_app_le by lia.
      * rewrite lookup_app_r in Hj by lia.
        destruct (j - length pfs) as [|k] eqn:Hk; cbn in Hj; [|done].
        injection Hj as <-. assert (j = length pfs) as -> by lia.
        exists F. rewrite lookup_app_r, Hlen, Nat.sub_diag by lia. split; [done|].
        rewrite take_app_length. by rewrite <- Hlen.
Qed.
End driver.

(** ** The driver: imports *)

(** The files behind the dependency names [deps]; [None] when a name is
    not in the map. *)
Fixpoint dependency_files (h : heap) (m : gmap string loc) (deps : list string)
    : option (list PKFileDescriptor) :=
  match deps with
  | [] => Some []
  | name :: rest =>
      match m !! name ≫= (h !!.) with
      | Some D => (D ::.) <$> dependency_files h m rest
      | None => None
      end
  end.

(** The file at [l] with its import list filled in from the store [h]. *)
Definition link_file (h : heap) (m : gmap string loc) (l : loc) : option PKFileDescriptor :=
  F ← h !! l;
  Ds ← dependency_files h m (fp_Dependency (f_desc F));
  Some (set_Imports F (Ds ≫= imports_of)).

(** Two files that differ at most in their import lists. *)
Definition same_but_imports (F F' : PKFileDescriptor) : Prop :=
  F' = set_Imports F (f_Imports F').

Lemma same_but_imports_refl F : same_but_imports F F.
Proof. by destruct F. Qed.

Lemma same_but_imports_set F F' imports :
  same_but_imports F F' → same_but_imports F (set_Imports F' imports).
Proof. unfold same_but_imports. intros ->. by destruct F. Qed.

Lemma same_but_imports_set_eq F F' imports :
  same_but_imports F F' → set_Imports F' imports = set_Imports F imports.
Proof. unfold same_but_imports. intros ->. by destruct F. Qed.

Lemma same_but_imports_desc F F' : same_but_imports F F' → f_desc F' = f_desc F.
Proof. unfold same_but_imports. by intros ->. Qed.

Lemma same_but_imports_imports_of F F' :
  same_but_imports F F' → imports_of F' = imports_of F.
Proof. unfold same_but_imports. by intros ->. Qed.

Lemma imports_loop (h : heap) (m : gmap string loc) deps acc :
  for_each (λ (acc : list PKImportedDescriptor) (fileName : string),
              match m !! fileName ≫= (h !!.) with
              | Some file => mret (acc ++ imports_of file)
              | None => Panicked NilPointerDereference
              end) acc deps
  = match dependency_files h m deps with
    | Some Ds => Returned (acc ++ (Ds ≫= imports_of))
    | None => Panicked NilPointerDereference
    end.
Proof.
  revert acc. induction deps as [|name deps IH]; intros acc; cbn [for_each dependency_files].
  - by rewrite app_nil_r.
  - destruct (m !! name ≫= (h !!.)) as [D|]; [|done].
    unfold_outcome. rewrite IH. destruct (dependency_files h m deps) as [Ds|]; [|done].
    cbn. by rewrite <- app_assoc.
Qed.

Lemma parseAllImports_unfold (h : heap) (l : loc) (m : gmap string loc) :
  parseAllImports h l m =
  match h !! l with
  | Some F =>
      match dependency_files h m (fp_Dependency (f_desc F)) with
      | Some Ds => Returned (<[l := set_Imports F (Ds ≫= imports_of)]> h)
      | None => Panicked NilPointerDereference
      end
  | None => Panicked NilPointerDereference
  end.
Proof.
  unfold parseAllImports. destruct (h !! l) as [F|]; [|done].
  rewrite imports_loop. unfold_outcome. by destruct (dependency_files h m _).
Qed.

Lemma dependency_files_compat (R : relation PKFileDescriptor) (h0 h : heap)
    (m : gmap string loc) deps :
  (∀ F F', R F F' → imports_of F' = imports_of F) →
  Forall2 R h0 h →
  (λ Ds, Ds ≫= imports_of) <$> dependency_files h m deps
  = (λ Ds, Ds ≫= imports_of) <$> dependency_files h0 m deps.
Proof.
  intros HR Hh. induction deps as [|name deps IH]; [done|]. cbn [dependency_files].
  destruct (m !! name) as [l|]; cbn; [|done].
  destruct (h0 !! l) as [D0|] eqn:HD0.
  - destruct (Forall2_lookup_l _ _ _ _ _ Hh HD0) as (D & -> & HDD).
    destruct (dependency_files h m deps) as [Ds|],
             (dependency_files h0 m deps) as [Ds0|]; cbn in *; try done.
    injection IH as IH. by rewrite IH, (HR _ _ HDD).
  - assert (h !! l = None) as ->; [|done].
    apply lookup_ge_None. apply lookup_ge_None in HD0.
    by rewrite <- (Forall2_length _ _ _ Hh).
Qed.

Lemma Forall2_insert_right {A B} (P : A → B → Prop) (l : list A) (k : list B) i x y :
  Forall2 P l k → l !! i = Some x → P x y → Forall2 P l (<[i := y]> k).
Proof.
  intros Hlk. revert i. induction Hlk as [|a b l k Hab Hlk IH]; intros [|i] Hi Hxy;
    simplify_eq/=; constructor; eauto.
Qed.

(** On a store that differs from [h0] in import lists only,
    [parseAllImports] writes what [link_file] computes from [h0]. *)
Lemma parseAllImports_compat (h0 h : heap) (m : gmap string loc) (l : loc) :
  Forall2 same_but_imports h0 h →
  match link_file h0 m l with
  | Some F => parseAllImports h l m = Returned (<[l := F]> h)
              ∧ Forall2 same_but_imports h0 (<[l := F]> h)
  | None => parseAllImports h l m = Panicked NilPointerDereference
  end.
Proof.
  intros Hh. rewrite parseAllImports_unfold. unfold link_file.
  destruct (h0 !! l) as [F0|] eqn:HF0; cbn.
  - destruct (Forall2_lookup_l _ _ _ _ _ Hh HF0) as (F & -> & HFF).
    pose proof (dependency_files_compat _ h0 h m (fp_Dependency (f_desc F0))
                  same_but_imports_imports_of Hh) as Hd.
    rewrite (same_but_imports_desc _ _ HFF).
    destruct (dependency_files h m _) as [Ds|], (dependency_files h0 m _) as [Ds0|];
      cbn in *; try done.
    injection Hd as ->. rewrite (same_but_imports_set_eq _ _ _ HFF). split; [done|].
    apply Forall2_insert_right with F0; [done | done |].
    apply same_but_imports_set, same_but_imports_refl.
  - assert (h !! l = None) as ->; [|done].
    apply lookup_ge_None. apply lookup_ge_None in HF0.
    by rewrite <- (Forall2_length _ _ _ Hh).
Qed.

Definition link_step (m : gmap string loc) :=
  λ '((h, allFiles) : heap * list loc) '((_, f) : string * loc),
    h' ← parseAllImports h f m; mret (h', allFiles ++ [f]).

Lemma link_imports_unfold range m h :
  link_imports range m h = for_each (link_step m) (h, []) range.
Proof. reflexivity. Qed.

(** The second loop succeeds when every walked file can be linked; the
    store then holds the linked file at every walked address. *)
Lemma link_loop_Returned (h0 : heap) (m : gmap string loc) range :
  ∀ h acc,
    Forall2 same_but_imports h0 h →
    Forall (λ e, is_Some (link_file h0 m e.2)) range →
    ∃ h', for_each (link_step m) (h, acc) range = Returned (h', acc ++ range.*2)
          ∧ Forall2 same_but_imports h0 h'
          ∧ ∀ l, h' !! l = if bool_decide (l ∈ range.*2) then link_file h0 m l else h !! l.
Proof.
  induction range as [|[name f] range IH]; intros h acc Hh Hall.
  - exists h. cbn. rewrite app_nil_r. split_and!; [done..|].
    intros l. by rewrite bool_decide_eq_false_2 by apply not_elem_of_nil.
  - apply Forall_cons in Hall as [[F HF] Hall]. cbn [for_each link_step].
    pose proof (parseAllImports_compat h0 h m f Hh) as Hstep. cbn in HF.
    rewrite HF in Hstep. destruct Hstep as [-> Hh'].
    unfold_outcome. destruct (IH (<[f := F]> h) (acc ++ [f]) Hh' Hall) as (h' & -> & Hh'' & Hl).
    exists h'. split_and!; [by rewrite <- app_assoc | done |].
    intros l. rewrite Hl. cbn [fmap list_fmap snd]. clear Hl.
    destruct (decide (l ∈ range.*2)) as [Hin|Hin].
    + rewrite !bool_decide_eq_true_2; [done | by right | done].
    + rewrite (bool_decide_eq_false_2 _ Hin). destruct (decide (l = f)) as [->|Hne].
      * rewrite bool_decide_eq_true_2 by left.
        rewrite list_lookup_insert_eq; [done|].
        unfold link_file in HF. destruct (h0 !! f) eqn:Hf; [|done].
        apply lookup_lt_Some in Hf. by rewrite <- (Forall2_length _ _ _ Hh).
      * rewrite list_lookup_insert_ne by done.
        rewrite bool_decide_eq_false_2; [done|]. by rewrite elem_of_cons; intros [|].
Qed.

(** It panics when some walked file cannot be linked. *)
Lemma link_loop_Panicked (h0 : heap) (m : gmap string loc) range :
  ∀ h acc,
    Forall2 same_but_imports h0 h →
    Exists (λ e, link_file h0 m e.2 = None) range →
    for_each (link_step m) (h, acc) range = Panicked NilPointerDereference.
Proof.
  induction range as [|[name f] range IH]; intros h acc Hh Hex.
  - by apply Exists_nil in Hex.
  - cbn [for_each link_step].
    pose proof (parseAllImports_compat h0 h m f Hh) as Hstep.
    destruct (link_file h0 m f) as [F|] eqn:HF.
    + destruct Hstep as [-> Hh']. unfold_outcome. apply IH; [done|].
      apply Exists_cons in Hex as [Hex|Hex]; [|done]. cbn in Hex. congruence.
    + by rewrite Hstep.
Qed.

(** ** The driver: generation targets *)

(** Whether one of the names [names] is mapped to the address [l]. *)
Definition is_target (m : gmap string loc) (names : list string) (l : loc) : bool :=
  bool_decide (Exists (λ f, m !! f = Some l) names).

Lemma set_IsFileToGenerate_twice F b :
  set_IsFileToGenerate (set_IsFileToGenerate F b) b = set_IsFileToGenerate F b.
Proof. done. Qed.

Lemma mark_loop_Returned (m : gmap string loc) names :
  ∀ h : heap,
    (∀ name l, m !! name = Some l → l < length h) →
    Forall (λ f, is_Some (m !! f)) names →
    ∃ h', for_each (mark_file m) h names = Returned h'
          ∧ length h' = length h
          ∧ ∀ l, h' !! l =
                 (λ F, if is_target m names l then set_IsFileToGenerate F true else F)
                 <$> h !! l.
Proof.
  induction names as [|f names IH]; intros h Hvalid Hall.
  - exists h. split_and!; [done..|]. intros l. unfold is_target.
    rewrite bool_decide_eq_false_2 by (by intros ?%Exists_nil).
    by destruct (h !! l).
  - apply Forall_cons in Hall as [[l0 Hl0] Hall]. cbn [for_each].
    destruct (lookup_lt_is_Some_2 h l0 (Hvalid _ _ Hl0)) as [file Hfile].
    assert (mark_file m h f = Returned (<[l0 := set_IsFileToGenerate file true]> h)) as ->
      by (unfold mark_file; by rewrite Hl0, Hfile).
    unfold_outcome.
    destruct (IH (<[l0 := set_IsFileToGenerate file true]> h)) as (h' & -> & Hlen & Hl);
      [by rewrite length_insert | done |].
    exists h'. split_and!; [done | by rewrite Hlen, length_insert |].
    intros l. rewrite Hl. unfold is_target. destruct (decide (l = l0)) as [->|Hne].
    + rewrite list_lookup_insert_eq by (by eapply lookup_lt_Some). rewrite Hfile. cbn.
      rewrite (bool_decide_eq_true_2 (Exists _ (f :: names))) by (by left).
      by destruct (bool_decide _).
    + rewrite list_lookup_insert_ne by done. destruct (h !! l) as [F|]; [|done]. cbn.
      f_equal. assert (Exists (λ f0, m !! f0 = Some l) (f :: names)
                       ↔ Exists (λ f0, m !! f0 = Some l) names) as Hiff.
      { rewrite Exists_cons. split; [|by right]. intros [Hf|]; [|done]. congruence. }
      by rewrite (bool_decide_ext _ _ Hiff).
Qed.

Lemma mark_loop_Panicked (m : gmap string loc) names :
  ∀ h : heap,
    (∀ name l, m !! name = Some l → l < length h) →
    Exists (λ f, m !! f = None) names →
    for_each (mark_file m) h names = Panicked NilPointerDereference.
Proof.
  induction names as [|f names IH]; intros h Hvalid Hex.
  - by apply Exists_nil in Hex.
  - cbn [for_each]. destruct (m !! f) as [l0|] eqn:Hl0.
    2: { assert (mark_file m h f = Panicked NilPointerDereference) as ->
           by (unfold mark_file; by rewrite Hl0).
         done. }
    destruct (lookup_lt_is_Some_2 h l0 (Hvalid _ _ Hl0)) as [file Hfile].
    assert (mark_file m h f = Returned (<[l0 := set_IsFileToGenerate file true]> h)) as ->
      by (unfold mark_file; by rewrite Hl0, Hfile).
    unfold_outcome. apply IH.
    + intros name l Hl. rewrite length_insert. by eapply Hvalid.
    + apply Exists_cons in Hex as [Hex|Hex]; [congruence | done].
Qed.

(** Two files that differ at most in the import list and in the
    generation flag: the fields that the driver writes after [parseFile]. *)
Definition same_tree (F F' : PKFileDescriptor) : Prop :=
  F' = set_IsFileToGenerate (set_Imports F (f_Imports F')) (f_IsFileToGenerate F').

Lemma same_tree_imports_of F F' : same_tree F F' → imports_of F' = imports_of F.
Proof. unfold same_tree. by intros ->. Qed.

Lemma same_tree_desc F F' : same_tree F F' → f_desc F' = f_desc F.
Proof. unfold same_tree. by intros ->. Qed.

Lemma same_but_imports_same_tree F F' b :
  same_but_imports F F' →
  same_tree F (if b : bool then set_IsFileToGenerate F' true else F').
Proof. unfold same_but_imports, same_tree. intros ->. destruct b; by destruct F. Qed.

(** ** The driver as a whole *)

(** What [parseFile] leaves to the later phases. *)
Lemma parseFile_fresh rev GlobalTypes ParseComments allFilesMap self fd F :
  parseFile rev GlobalTypes ParseComments allFilesMap self fd = Returned F →
  f_Imports F = [] ∧ f_IsFileToGenerate F = false.
Proof.
  unfold parseFile. intros HF.
  destruct rev; [destruct (for_each _ _ _) as [pdeps| | |]|];
    unfold_outcome; by simplify_eq/=.
Qed.

Section batch.
Variable rev : revision.
Variable GlobalTypes : list ExtensionType.
Variable ParseComments : FileDescriptorProto → gmap string Comment.
Variable preflight : CodeGeneratorRequest → outcome ().
(** The order in which the map of files is walked; Go fixes none. *)
Variable range : gmap string loc → list (string * loc).
Hypothesis range_walks : ∀ m, range m ≡ₚ map_to_list m.

Local Abbreviation run :=
  (ParseCodeGenRequestAllFiles rev GlobalTypes ParseComments preflight range).
Local Abbreviation build := (build_files rev GlobalTypes ParseComments).

(** The list the driver returns for the walked addresses [walked]. *)
Definition returned_order (h : heap) (walked : list loc) : list loc :=
  match rev with
  | current => sort_Slice (λ i j, string_lt (name_at h i) (name_at h j)) walked
  | legacy => walked
  end.

Lemma elem_of_range_values (m : gmap string loc) l :
  l ∈ (range m).*2 ↔ ∃ name, m !! name = Some l.
Proof.
  rewrite (range_walks m), list_elem_of_fmap. split.
  - intros ([name l'] & -> & Hin). exists name. by apply elem_of_map_to_list.
  - intros [name Hname]. exists (name, l). split; [done|]. by apply elem_of_map_to_list.
Qed.

Lemma names_map_valid pfs name l : names_map pfs !! name = Some l → l < length pfs.
Proof. rewrite names_map_Some. intros [(pf & Hpf & _) _]. by eapply lookup_lt_Some. Qed.

(** The phases of a run that returns. *)
Lemma run_Returned req h files :
  run req = Returned (h, files) →
  let m := names_map (ProtoFile req) in
  ∃ h0 h1,
    preflight req = Returned ()
    ∧ build (ProtoFile req) = Returned (h0, m)
    ∧ Forall2 same_but_imports h0 h1
    ∧ (∀ l, l ∈ (range m).*2 → is_Some (link_file h0 m l) ∧ h1 !! l = link_file h0 m l)
    ∧ (∀ l, l ∉ (range m).*2 → h1 !! l = h0 !! l)
    ∧ Forall (λ f, is_Some (m !! f)) (FileToGenerate req)
    ∧ (∀ l, h !! l =
            (λ F, if is_target m (FileToGenerate req) l
                  then set_IsFileToGenerate F true else F) <$> h1 !! l)
    ∧ files = returned_order h (range m).*2.
Proof.
  intros Hrun m. unfold ParseCodeGenRequestAllFiles in Hrun. unfold_outcome.
  destruct (preflight req) as [[]| | |] eqn:Hpre; [|done..].
  destruct (build (ProtoFile req)) as [[h0 m0]| | |] eqn:Hbuild; [|done..].
  destruct (build_files_Returned _ _ _ _ _ _ Hbuild) as (-> & Hlen & _). fold m in Hrun, Hbuild.
  rewrite link_imports_unfold in Hrun.
  destruct (decide (Forall (λ e, is_Some (link_file h0 m e.2)) (range m))) as [Hall|Hall].
  2: { apply not_Forall_Exists in Hall; try (by apply _).
       rewrite (link_loop_Panicked h0 m (range m) h0 []) in Hrun; [done | |].
       - apply Forall2_same_length_lookup_2; [done|].
         intros i F F' HF HF'. simplify_eq. apply same_but_imports_refl.
       - eapply Exists_impl; [exact Hall|]. intros e He. cbn in He.
         by apply eq_None_not_Some. }
  destruct (link_loop_Returned h0 m (range m) h0 []) as (h1 & Hlink & Hh1 & Hl1); [|done|].
  { apply Forall2_same_length_lookup_2; [done|].
    intros i F F' HF HF'. simplify_eq. apply same_but_imports_refl. }
  rewrite Hlink in Hrun. cbn [app] in Hrun.
  assert (∀ name l, m !! name = Some l → l < length h1) as Hvalid.
  { intros name l Hl. rewrite <- (Forall2_length _ _ _ Hh1), Hlen.
    by eapply names_map_valid. }
  destruct (decide (Forall (λ f, is_Some (m !! f)) (FileToGenerate req))) as [Hgen|Hgen].
  2: { apply not_Forall_Exists in Hgen; try (by apply _).
       rewrite (mark_loop_Panicked m (FileToGenerate req) h1) in Hrun; [done | done |].
       eapply Exists_impl; [exact Hgen|]. intros f Hf. cbn in Hf.
       by apply eq_None_not_Some. }
  destruct (mark_loop_Returned m (FileToGenerate req) h1 Hvalid Hgen) as (h2 & Hmark & _ & Hl2).
  rewrite Hmark in Hrun.
  assert (h = h2 ∧ files = returned_order h2 (range m).*2) as [-> ->].
  { unfold returned_order. destruct rev; by simplify_eq. }
  exists h0, h1. split_and!; try done.
  - intros l Hl. rewrite Hl1, (bool_decide_eq_true_2 _ Hl). split; [|done].
    rewrite Forall_forall in Hall. apply list_elem_of_fmap in Hl as ([name l'] & -> & Hin).
    by apply (Hall _ Hin).
  - intros l Hl. by rewrite Hl1, (bool_decide_eq_false_2 _ Hl).
Qed.
End batch.

Lemma dependency_files_Forall2 (h : heap) (m : gmap string loc) deps Ds :
  dependency_files h m deps = Some Ds →
  Forall2 (λ dep D, ∃ l, m !! dep = Some l ∧ h !! l = Some D) deps Ds.
Proof.
  revert Ds. induction deps as [|dep deps IH]; intros Ds; cbn [dependency_files].
  - intros [= <-]. constructor.
  - destruct (m !! dep) as [l|] eqn:Hl; cbn; [|done].
    destruct (h !! l) as [D|] eqn:HD; [|done].
    destruct (dependency_files h m deps) as [Ds'|]; cbn; [|done].
    intros [= <-]. constructor; [by exists l | by apply IH].
Qed.

Lemma sort_Slice_Permutation {A} (less : A → A → bool) (xs : list A) :
  sort_Slice less xs ≡ₚ xs.
Proof. apply merge_sort_Permutation. Qed.

Section returned_files.
Variable rev : revision.
Variable GlobalTypes : list ExtensionType.
Variable ParseComments : FileDescriptorProto → gmap string Comment.
Variable preflight : CodeGeneratorRequest → outcome ().
Variable range : gmap string loc → list (string * loc).
Hypothesis range_walks : ∀ m, range m ≡ₚ map_to_list m.

Local Abbreviation run :=
  (ParseCodeGenRequestAllFiles rev GlobalTypes ParseComments preflight range).
Local Abbreviation build := (build_files rev GlobalTypes ParseComments).
Local Abbreviation parseFile := (parseFile rev GlobalTypes ParseComments).

Lemma elem_of_returned_order (h : heap) walked l :
  l ∈ returned_order rev h walked ↔ l ∈ walked.
Proof.
  unfold returned_order. destruct rev; [|done]. by rewrite sort_Slice_Permutation.
Qed.

(** The returned pointers are the addresses in the map of files. *)
Lemma run_files req h files :
  run req = Returned (h, files) →
  ∀ l, l ∈ files ↔ ∃ name, names_map (ProtoFile req) !! name = Some l.
Proof.
  intros Hrun l.
  destruct (run_Returned _ _ _ _ _ _ _ _ Hrun)
    as (h0 & h1 & _ & _ & _ & _ & _ & _ & _ & ->).
  by rewrite elem_of_returned_order, (elem_of_range_values _ range_walks).
Qed.

(** The final store differs from the store after the first loop in import
    lists and generation flags only. *)
Lemma run_heap req h files :
  run req = Returned (h, files) →
  ∃ h0, build (ProtoFile req) = Returned (h0, names_map (ProtoFile req))
        ∧ Forall2 same_tree h0 h.
Proof.
  intros Hrun.
  destruct (run_Returned _ _ _ _ _ _ _ _ Hrun)
    as (h0 & h1 & _ & Hbuild & Hh1 & _ & _ & _ & Hh & _).
  exists h0. split; [done|]. apply Forall2_lookup. intros i. rewrite Hh.
  rewrite Forall2_lookup in Hh1. destruct (Hh1 i) as [F0 F1 HF|]; cbn; constructor.
  by apply same_but_imports_same_tree.
Qed.

(** What the driver returns for one file: the tree that [parseFile] built
    from the descriptor at the same position, against the map of the
    descriptors before it, with the import list and the flag filled in. *)
Lemma run_file req h files l :
  run req = Returned (h, files) → l ∈ files →
  let pfs := ProtoFile req in
  ∃ pf F0 F,
    pfs !! l = Some pf
    ∧ names_map pfs !! fp_Name pf = Some l
    ∧ parseFile (names_map (take l pfs)) l pf = Returned F0
    ∧ h !! l = Some F
    ∧ same_tree F0 F
    ∧ f_IsFileToGenerate F = is_target (names_map pfs) (FileToGenerate req) l
    ∧ ∃ Ds, dependency_files h (names_map pfs) (fp_Dependency pf) = Some Ds
            ∧ f_Imports F = Ds ≫= imports_of.
Proof.
  intros Hrun Hl pfs.
  pose proof (proj1 (run_files _ _ _ Hrun l) Hl) as [name Hname].
  destruct (run_heap _ _ _ Hrun) as (h0' & Hbuild' & Htree).
  destruct (run_Returned _ _ _ _ _ _ _ _ Hrun)
    as (h0 & h1 & _ & Hbuild & Hh1 & Hlinked & _ & _ & Hh & _).
  fold pfs in Hbuild, Hbuild', Hlinked, Hh, Hname.
  rewrite Hbuild in Hbuild'. injection Hbuild' as <-.
  destruct (build_files_Returned _ _ _ _ _ _ Hbuild) as (_ & Hlen & Hfiles).
  pose proof (proj1 (names_map_Some pfs name l) Hname) as [(pf & Hpf & Hpfname) _].
  destruct (Hfiles l pf Hpf) as (F0 & HF0 & Hparse).
  destruct (Hlinked l) as [[F1 HF1] Hh1l];
    [by apply (elem_of_range_values _ range_walks); exists name|].
  rewrite HF1 in Hh1l. unfold link_file in HF1. rewrite HF0 in HF1. cbn in HF1.
  destruct (parseFile_Returned _ _ _ _ _ _ _ Hparse) as (Hdesc & _).
  rewrite Hdesc in HF1.
  destruct (dependency_files h0 (names_map pfs) (fp_Dependency pf)) as [Ds0|] eqn:HDs0;
    [|done].
  cbn in HF1. injection HF1 as <-.
  destruct (parseFile_fresh _ _ _ _ _ _ _ Hparse) as (_ & Hflag).
  pose proof (Hh l) as HhF. rewrite Hh1l in HhF. cbn in HhF.
  eexists pf, F0, _. split_and!; [done | by rewrite Hpfname | done | exact HhF | | |].
  - rewrite Forall2_lookup in Htree. pose proof (Htree l) as Ht.
    rewrite HF0, HhF in Ht. by inversion Ht.
  - destruct (is_target _ _ l); cbn; [done | exact Hflag].
  - pose proof (dependency_files_compat _ h0 h (names_map pfs) (fp_Dependency pf)
                  same_tree_imports_of Htree) as Hcompat.
    rewrite HDs0 in Hcompat.
    destruct (dependency_files h (names_map pfs) (fp_Dependency pf)) as [Ds|]; [|done].
    cbn in Hcompat. injection Hcompat as Hcompat. exists Ds. split; [done|].
    rewrite Hcompat. by destruct (is_target _ _ l).
Qed.

(** The file behind a name of the map. *)
Lemma run_named_file req h files name l :
  run req = Returned (h, files) →
  names_map (ProtoFile req) !! name = Some l →
  l ∈ files ∧ ∃ F, h !! l = Some F ∧ PKFileDescriptor_GetName F = name.
Proof.
  intros Hrun Hname.
  assert (l ∈ files) as Hl by (apply (run_files _ _ _ Hrun); by exists name).
  split; [done|].
  destruct (run_file _ _ _ _ Hrun Hl) as (pf & F0 & F & Hpf & Hpfl & Hparse & HF & Ht & _).
  exists F. split; [done|].
  pose proof (proj1 (names_map_Some _ name l) Hname) as [(pf' & Hpf' & Hn) _].
  rewrite Hpf in Hpf'. injection Hpf' as <-.
  unfold PKFileDescriptor_GetName. rewrite (same_tree_desc _ _ Ht).
  by destruct (parseFile_Returned _ _ _ _ _ _ _ Hparse) as (-> & _).
Qed.
End returned_files.

(** ** Import lists *)

(** C2 (as stated, refuted): [x.proto] depends on [y.proto], whose message
    [Outer] contains the ordinary nested message [Outer.Inner]; the import
    list of [x.proto] holds the top-level [Point], [Outer] and [Color] only,
    and no entry for the nested message. *)
Lemma C2_counterexample :
  ∃ h files F D n,
    Scenario.run current Scenario.request_yx = Returned (h, files)
    ∧ files = [1; 0] ∧ h !! 1 = Some F ∧ h !! 0 = Some D
    ∧ fp_Dependency (f_desc F) = ["y.proto"]
    ∧ PKFileDescriptor_GetName D = "y.proto"
    ∧ n ∈ all_messages D
    ∧ LongName (m_common n) = "Outer.Inner"
    ∧ GetMapEntry (dp_Options (m_desc n)) = false
    ∧ (LongName ∘ i_common) <$> f_Imports F = ["Point"; "Outer"; "Color"]
    ∧ {| i_common := m_common n |} ∉ f_Imports F.
Proof.
  eexists _, _, _, _, _. split; [vm_compute; reflexivity|].
  split; [reflexivity|]. split; [vm_compute; reflexivity|].
  split; [vm_compute; reflexivity|]. split; [vm_compute; reflexivity|].
  split; [vm_compute; reflexivity|].
  split; [apply list_elem_of_lookup_2 with 2; vm_compute; reflexivity|].
  split; [vm_compute; reflexivity|]. split; [vm_compute; reflexivity|].
  assert (∀ F : PKFileDescriptor, ∀ n : PKDescriptor,
            (LongName ∘ i_common) <$> f_Imports F = ["Point"; "Outer"; "Color"] →
            LongName (m_common n) = "Outer.Inner" →
            {| i_common := m_common n |} ∉ f_Imports F) as Hnot.
  { intros F n Hnames Hn Hin.
    apply (list_elem_of_fmap_2 (LongName ∘ i_common)) in Hin.
    rewrite Hnames in Hin. cbn in Hin. rewrite Hn in Hin.
    repeat (apply elem_of_cons in Hin as [Hin|Hin]; [discriminate|]).
    by apply not_elem_of_nil in Hin. }
  split; [vm_compute; reflexivity|].
  apply Hnot; vm_compute; reflexivity.
Qed.

(** C2 (amended): for every returned file [F], the import list is, for the
    names in [F]'s dependency list in their declared order, what the
    returned file [D] of that name contributes: its top-level messages that
    are no map entries, then its top-level enums, then its top-level
    extensions, each in declaration order; an import entry holds the Common
    facet of its entity.  Nested messages, enums and extensions of [D] are not
    imported. *)
Theorem C2_import_lists rev GlobalTypes ParseComments preflight range req h files l F :
  (∀ m, range m ≡ₚ map_to_list m) →
  ParseCodeGenRequestAllFiles rev GlobalTypes ParseComments preflight range req
    = Returned (h, files) →
  l ∈ files → h !! l = Some F →
  ∃ Ds,
    Forall2 (λ dep D, ∃ lD, lD ∈ files ∧ h !! lD = Some D
                            ∧ PKFileDescriptor_GetName D = dep)
      (fp_Dependency (f_desc F)) Ds
    ∧ f_Imports F =
      Ds ≫= (λ D,
        ((λ d, {| i_common := m_common d |}) <$>
           filter (λ d, negb (GetMapEntry (dp_Options (m_desc d)))) (f_Messages D))
        ++ ((λ e, {| i_common := e_common e |}) <$> f_Enums D)
        ++ ((λ ext, {| i_common := x_common ext |}) <$> f_Extensions D)).
Proof.
  intros Hrange Hrun Hl HF.
  destruct (run_file _ _ _ _ _ Hrange _ _ _ _ Hrun Hl)
    as (pf & F0 & F' & Hpf & _ & Hparse & HF' & Htree & _ & (Ds & HDs & Himports)).
  rewrite HF in HF'. injection HF' as <-.
  assert (f_desc F = pf) as ->.
  { rewrite (same_tree_desc _ _ Htree).
    by destruct (parseFile_Returned _ _ _ _ _ _ _ Hparse) as (-> & _). }
  exists Ds. split; [|exact Himports].
  apply dependency_files_Forall2 in HDs.
  eapply Forall2_impl; [exact HDs|]. intros dep D (lD & HlD & HD).
  destruct (run_named_file _ _ _ _ _ Hrange _ _ _ _ _ Hrun HlD) as (Hin & D' & HD' & Hname).
  rewrite HD in HD'. injection HD' as <-. by exists lD.
Qed.

(** The batch [y.proto], [x.proto]: the imports of [x.proto]. *)
Lemma C2_import_lists_witness :
  let h := match Scenario.run current Scenario.request_yx with
           | Returned (h, _) => h
           | _ => []
           end in
  let F := default (new_file current [] Scenario.no_comments Scenario.x_proto) (h !! 1) in
  Scenario.run current Scenario.request_yx = Returned (h, [1; 0])
  ∧ 1 ∈ [1; 0] ∧ h !! 1 = Some F
  ∧ ∃ Ds,
      Forall2 (λ dep D, ∃ lD, lD ∈ [1; 0] ∧ h !! lD = Some D
                              ∧ PKFileDescriptor_GetName D = dep)
        (fp_Dependency (f_desc F)) Ds
      ∧ f_Imports F = Ds ≫= imports_of.
Proof.
  intros h F.
  assert (Scenario.run current Scenario.request_yx = Returned (h, [1; 0])) as Hrun
    by (vm_compute; reflexivity).
  assert (1 ∈ [1; 0]) as Hl by (by left).
  assert (h !! 1 = Some F) as HF by (vm_compute; reflexivity).
  split; [exact Hrun|]. split; [exact Hl|]. split; [exact HF|].
  exact (C2_import_lists current [] Scenario.no_comments Scenario.preflight_ok map_to_list
           Scenario.request_yx h [1; 0] 1 F (λ m, reflexivity _) Hrun Hl HF).
Defined.

(** ** Method input and output types *)

Lemma find_Some_elem {A} (f : A → bool) (l : list A) (x : A) :
  List.find f l = Some x → x ∈ l ∧ f x = true.
Proof.
  induction l as [|y l IH]; cbn; [done|]. destruct (f y) eqn:Hy.
  - intros [= <-]. split; [by left | done].
  - intros Hx. destruct (IH Hx). split; [by right | done].
Qed.

Lemma find_is_Some {A} (f : A → bool) (l : list A) :
  is_Some (List.find f l) ↔ ∃ x, x ∈ l ∧ f x = true.
Proof.
  split.
  - intros [x Hx]. exists x. by apply find_Some_elem.
  - intros (x & Hin & Hfx). induction l as [|y l IH]; cbn.
    + by apply not_elem_of_nil in Hin.
    + destruct (f y) eqn:Hy; [done|]. apply IH.
      apply elem_of_cons in Hin as [->|]; [congruence | done].
Qed.

(** [name] is the name, the long name or the full name of [m]. *)
Definition names_message (name : string) (m : PKDescriptor) : Prop :=
  PKDescriptor_GetName m = name ∨ LongName (m_common m) = name
  ∨ FullName (m_common m) = name.

Lemma GetMessage_current_test (name : string) (m : PKDescriptor) :
  bool_decide (PKDescriptor_GetName m = name)
  || bool_decide (LongName (m_common m) = name)
  || bool_decide (FullName (m_common m) = name) = true ↔ names_message name m.
Proof.
  unfold names_message. rewrite !orb_true_iff, !bool_decide_eq_true. tauto.
Qed.

Lemma method_types_resolved GlobalTypes ParseComments allFilesMap self fd F md :
  parseFile current GlobalTypes ParseComments allFilesMap self fd = Returned F →
  md ∈ all_methods F →
  md_InputType md = PKFileDescriptor_GetMessage current F (mdp_InputType (md_desc md))
  ∧ md_OutputType md = PKFileDescriptor_GetMessage current F (mdp_OutputType (md_desc md)).
Proof.
  intros HF Hmd.
  destruct (in_all_methods _ _ _ _ _ _ _ HF md Hmd) as (p & svc & protos & i & _ & Hm & Hi).
  rewrite parseServiceMethods_lookup in Hi. destruct (protos !! i) as [d|]; [|done].
  injection Hi as <-. cbn. unfold PKFileDescriptor_GetMessage. by rewrite Hm.
Qed.

(** C3 (as stated, refuted): in the batch [y.proto], [x.proto] (dependency
    first) the method [Locator.Find] of [x.proto] declares the input type
    [.p.Point], the full name of a top-level message of [y.proto], and its
    input type is nil; in [ab.proto] the method [S.Call] declares the output
    type [.a.b.M.N], the full name of a message nested in the same file, and
    its output type is nil. *)
Lemma C3_counterexample :
  (∃ h files F D md point,
     Scenario.run current Scenario.request_yx = Returned (h, files)
     ∧ 1 ∈ files ∧ 0 ∈ files ∧ h !! 1 = Some F ∧ h !! 0 = Some D
     ∧ md ∈ all_methods F
     ∧ mdp_InputType (md_desc md) = ".p.Point"
     ∧ point ∈ f_Messages D ∧ FullName (m_common point) = ".p.Point"
     ∧ GetInputType md = None)
  ∧ (∃ F md inner,
       Scenario.build current Scenario.ab_proto = Returned F
       ∧ md ∈ all_methods F
       ∧ mdp_OutputType (md_desc md) = ".a.b.M.N"
       ∧ inner ∈ all_messages F ∧ FullName (m_common inner) = ".a.b.M.N"
       ∧ GetOutputType md = None).
Proof.
  split.
  - eexists _, _, _, _, _, _. split; [vm_compute; reflexivity|].
    split; [by left|]. split; [by right; left|].
    split; [vm_compute; reflexivity|]. split; [vm_compute; reflexivity|].
    split; [apply list_elem_of_lookup_2 with 0; vm_compute; reflexivity|].
    split; [vm_compute; reflexivity|].
    split; [apply list_elem_of_lookup_2 with 0; vm_compute; reflexivity|].
    split; vm_compute; reflexivity.
  - eexists _, _, _. split; [vm_compute; reflexivity|].
    split; [apply list_elem_of_lookup_2 with 0; vm_compute; reflexivity|].
    split; [vm_compute; reflexivity|].
    split; [apply list_elem_of_lookup_2 with 1; vm_compute; reflexivity|].
    split; vm_compute; reflexivity.
Qed.

(** C3 (amended): in the current revision the input and the output type of
    every method of a returned file [F] are what [F.GetMessage] finds for the
    declared type name among the top-level messages of [F] itself: the first
    one whose name, long name or full name is the declared name.  They are
    non-nil exactly when such a top-level message of the owning file exists,
    and nil for a type that is nested or defined in another file. *)
Theorem C3_method_types GlobalTypes ParseComments preflight range req h files l F md :
  (∀ m, range m ≡ₚ map_to_list m) →
  ParseCodeGenRequestAllFiles current GlobalTypes ParseComments preflight range req
    = Returned (h, files) →
  l ∈ files → h !! l = Some F → md ∈ all_methods F →
  GetInputType md = PKFileDescriptor_GetMessage current F (mdp_InputType (md_desc md))
  ∧ GetOutputType md = PKFileDescriptor_GetMessage current F (mdp_OutputType (md_desc md))
  ∧ (∀ name, is_Some (PKFileDescriptor_GetMessage current F name)
             ↔ ∃ m, m ∈ f_Messages F ∧ names_message name m)
  ∧ (∀ name m, PKFileDescriptor_GetMessage current F name = Some m →
               m ∈ f_Messages F ∧ names_message name m).
Proof.
  intros Hrange Hrun Hl HF Hmd.
  destruct (run_file _ _ _ _ _ Hrange _ _ _ _ Hrun Hl)
    as (pf & F0 & F' & _ & _ & Hparse & HF' & Htree & _).
  rewrite HF in HF'. injection HF' as <-.
  assert (all_methods F = all_methods F0 ∧ f_Messages F = f_Messages F0) as [Hms Hmsgs].
  { unfold same_tree in Htree. by rewrite Htree. }
  rewrite Hms in Hmd.
  destruct (method_types_resolved _ _ _ _ _ _ _ Hparse Hmd) as [Hin Hout].
  unfold GetInputType, GetOutputType, PKFileDescriptor_GetMessage in *.
  rewrite Hmsgs. split_and!; [done | done | |].
  - intros name. unfold GetMessage_in. rewrite find_is_Some.
    by setoid_rewrite GetMessage_current_test.
  - intros name m Hfind. apply find_Some_elem in Hfind as [Hm Htest].
    by apply GetMessage_current_test in Htest.
Qed.

(** The method [Locator.Find] of [x.proto]: its output type [.q.Reply] is a
    top-level message of [x.proto]. *)
Lemma C3_method_types_witness :
  let h := match Scenario.run current Scenario.request_yx with
           | Returned (h, _) => h
           | _ => []
           end in
  let F := default (new_file current [] Scenario.no_comments Scenario.x_proto) (h !! 1) in
  let md := default {| md_common := newCommon current (Build_FilePtr 1 F) "" "";
                       md_desc := Build_MethodDescriptorProto "" "" "" None;
                       md_Comments := None; md_Service := newCommon current (Build_FilePtr 1 F) "" "";
                       md_InputType := None; md_OutputType := None |}
              (all_methods F !! 0) in
  Scenario.run current Scenario.request_yx = Returned (h, [1; 0])
  ∧ 1 ∈ [1; 0] ∧ h !! 1 = Some F ∧ md ∈ all_methods F
  ∧ GetOutputType md = PKFileDescriptor_GetMessage current F ".q.Reply"
  ∧ GetInputType md = PKFileDescriptor_GetMessage current F ".p.Point".
Proof.
  intros h F md.
  assert (Scenario.run current Scenario.request_yx = Returned (h, [1; 0])) as Hrun
    by (vm_compute; reflexivity).
  assert (1 ∈ [1; 0]) as Hl by (by left).
  assert (h !! 1 = Some F) as HF by (vm_compute; reflexivity).
  assert (md ∈ all_methods F) as Hmd
    by (apply list_elem_of_lookup_2 with 0; vm_compute; reflexivity).
  split; [exact Hrun|]. split; [exact Hl|]. split; [exact HF|]. split; [exact Hmd|].
  destruct (C3_method_types [] Scenario.no_comments Scenario.preflight_ok map_to_list
              Scenario.request_yx h [1; 0] 1 F md (λ m, reflexivity _) Hrun Hl HF Hmd)
    as (Hin & Hout & _).
  split; [exact Hout | exact Hin].
Defined.

(** ** Dependency pointers *)

Lemma dependency_at_Returned fd (k : Z) (name : string) :
  dependency_at fd k = Returned name →
  (0 ≤ k)%Z ∧ fp_Dependency fd !! Z.to_nat k = Some name.
Proof.
  unfold dependency_at. case_bool_decide as Hk; [|done].
  destruct (lookup_lt_is_Some_2 (fp_Dependency fd) (Z.to_nat k)) as [dep Hdep]; [lia|].
  rewrite Hdep. cbn. intros [= <-]. split; [lia | done].
Qed.

Lemma public_dependency_loop fd (allFilesMap : gmap string loc) ks :
  ∀ acc res,
    for_each (λ (acc : list (option loc)) (dep : Z),
                name ← dependency_at fd dep;
                mret (acc ++ [allFilesMap !! name])) acc ks = Returned res →
    ∃ ps, res = acc ++ ps
          ∧ Forall2 (λ k p, ∃ dep, fp_Dependency fd !! Z.to_nat k = Some dep
                                   ∧ (0 ≤ k)%Z ∧ p = allFilesMap !! dep) ks ps.
Proof.
  induction ks as [|k ks IH]; intros acc res; cbn [for_each].
  - intros [= <-]. exists []. by rewrite app_nil_r.
  - destruct (dependency_at fd k) as [dep| | |] eqn:Hk; unfold_outcome; [|done..].
    apply dependency_at_Returned in Hk as [Hk Hdep]. intros Hres.
    destruct (IH _ _ Hres) as (ps & -> & Hps).
    exists ((allFilesMap !! dep) :: ps). split; [by rewrite <- app_assoc|].
    constructor; [|done]. by exists dep.
Qed.

Lemma parseFile_current_Dependencies GlobalTypes ParseComments allFilesMap self fd F :
  parseFile current GlobalTypes ParseComments allFilesMap self fd = Returned F →
  f_Dependencies F = (λ dep, allFilesMap !! dep) <$> fp_Dependency fd
  ∧ Forall2 (λ k p, ∃ dep, fp_Dependency fd !! Z.to_nat k = Some dep
                           ∧ (0 ≤ k)%Z ∧ p = allFilesMap !! dep)
      (fp_PublicDependency fd) (f_PublicDependencies F).
Proof.
  unfold parseFile. intros HF.
  destruct (for_each _ _ (fp_PublicDependency fd)) as [pdeps| | |] eqn:Hp;
    unfold_outcome; [|done..].
  injection HF as <-. cbn. split; [done|].
  by destruct (public_dependency_loop _ _ _ _ _ Hp) as (ps & -> & Hps).
Qed.

(** C4 (as stated, refuted): in the batch [x.proto], [y.proto], where the
    importing file comes first, both files are returned, [x.proto] declares
    the dependency [y.proto], and its only dependency pointer is nil. *)
Lemma C4_counterexample :
  ∃ h files F D,
    Scenario.run current Scenario.request_xy = Returned (h, files)
    ∧ files = [0; 1] ∧ h !! 0 = Some F ∧ h !! 1 = Some D
    ∧ fp_Dependency (f_desc F) = ["y.proto"]
    ∧ PKFileDescriptor_GetName D = "y.proto"
    ∧ f_Dependencies F = [None].
Proof.
  eexists _, _, _, _. split; [vm_compute; reflexivity|].
  split; [reflexivity|]. split; [vm_compute; reflexivity|].
  split; [vm_compute; reflexivity|]. split_and!; vm_compute; reflexivity.
Qed.

(** C4 (amended): the dependency pointers of a file are set while the file
    is built, from the files built before it.  For the returned file [F]
    built from the [l]-th descriptor of the request, [F.Dependencies[i]] is
    the address of the last descriptor before position [l] that carries the
    [i]-th dependency name, and nil when no earlier descriptor carries it;
    [F.PublicDependencies] holds the same for the names that the public
    indices select.  A non-nil pointer points to an assembled file of that
    name. *)
Theorem C4_dependency_pointers GlobalTypes ParseComments preflight range req h files l F :
  (∀ m, range m ≡ₚ map_to_list m) →
  ParseCodeGenRequestAllFiles current GlobalTypes ParseComments preflight range req
    = Returned (h, files) →
  l ∈ files → h !! l = Some F →
  let pfs := ProtoFile req in
  let earlier (dep : string) : option loc := names_map (take l pfs) !! dep in
  f_Dependencies F = earlier <$> fp_Dependency (f_desc F)
  ∧ Forall2 (λ k p, ∃ dep, fp_Dependency (f_desc F) !! Z.to_nat k = Some dep
                           ∧ (0 ≤ k)%Z ∧ p = earlier dep)
      (fp_PublicDependency (f_desc F)) (f_PublicDependencies F)
  ∧ (∀ dep, earlier dep = None ↔ dep ∉ fp_Name <$> take l pfs)
  ∧ (∀ dep j, earlier dep = Some j ↔
        j < l ∧ (∃ pf, pfs !! j = Some pf ∧ fp_Name pf = dep)
        ∧ ∀ j' pf', j < j' < l → pfs !! j' = Some pf' → fp_Name pf' ≠ dep)
  ∧ (∀ dep j, earlier dep = Some j →
        ∃ D, h !! j = Some D ∧ PKFileDescriptor_GetName D = dep).
Proof.
  intros Hrange Hrun Hl HF pfs earlier.
  destruct (run_file _ _ _ _ _ Hrange _ _ _ _ Hrun Hl)
    as (pf & F0 & F' & Hpf & _ & Hparse & HF' & Htree & _).
  rewrite HF in HF'. injection HF' as <-. fold pfs in Hpf, Hparse.
  destruct (parseFile_current_Dependencies _ _ _ _ _ _ Hparse) as [Hdeps Hpdeps].
  assert (f_desc F = pf) as Hdesc.
  { rewrite (same_tree_desc _ _ Htree).
    by destruct (parseFile_Returned _ _ _ _ _ _ _ Hparse) as (-> & _). }
  assert (f_Dependencies F = f_Dependencies F0
          ∧ f_PublicDependencies F = f_PublicDependencies F0) as [-> ->].
  { unfold same_tree in Htree. by rewrite Htree. }
  rewrite Hdesc.
  assert (∀ dep j, earlier dep = Some j ↔
            j < l ∧ (∃ pf, pfs !! j = Some pf ∧ fp_Name pf = dep)
            ∧ ∀ j' pf', j < j' < l → pfs !! j' = Some pf' → fp_Name pf' ≠ dep) as Hsome.
  { intros dep j. unfold earlier. rewrite names_map_Some. split.
    - intros [(pf' & Hj & Hn) Hlast]. apply lookup_take_Some in Hj as [Hj Hjl].
      split_and!; [done | by exists pf' |].
      intros j' pf'' [Hlt Hlt'] Hj'. apply (Hlast j' pf'' Hlt).
      by apply lookup_take_Some.
    - intros (Hjl & (pf' & Hj & Hn) & Hlast). split.
      + exists pf'. split; [|done]. by apply lookup_take_Some.
      + intros j' pf'' Hlt Hj'. apply lookup_take_Some in Hj' as [Hj' Hj'l].
        by apply (Hlast j' pf''). }
  split_and!; [done | done | | done |].
  - intros dep. apply names_map_None.
  - intros dep j Hj. apply Hsome in Hj as (Hjl & (pf' & Hpf' & Hn) & _).
    destruct (run_heap _ _ _ _ _ _ _ _ Hrun) as (h0 & Hbuild & Hh).
    destruct (build_files_Returned _ _ _ _ _ _ Hbuild) as (_ & _ & Hfiles).
    destruct (Hfiles j pf' Hpf') as (D0 & HD0 & HparseD).
    destruct (Forall2_lookup_l _ _ _ _ _ Hh HD0) as (D & HD & HDD).
    exists D. split; [done|]. unfold PKFileDescriptor_GetName.
    rewrite (same_tree_desc _ _ HDD).
    by destruct (parseFile_Returned _ _ _ _ _ _ _ HparseD) as (-> & _).
Qed.

(** The batch in the order protoc sends it: the pointer of [x.proto] to
    [y.proto]. *)
Lemma C4_dependency_pointers_witness :
  let h := match Scenario.run current Scenario.request_yx with
           | Returned (h, _) => h
           | _ => []
           end in
  let F := default (new_file current [] Scenario.no_comments Scenario.x_proto) (h !! 1) in
  Scenario.run current Scenario.request_yx = Returned (h, [1; 0])
  ∧ 1 ∈ [1; 0] ∧ h !! 1 = Some F
  ∧ f_Dependencies F
    = (λ dep, names_map (take 1 (ProtoFile Scenario.request_yx)) !! dep)
      <$> fp_Dependency (f_desc F)
  ∧ f_Dependencies F = [Some 0].
Proof.
  intros h F.
  assert (Scenario.run current Scenario.request_yx = Returned (h, [1; 0])) as Hrun
    by (vm_compute; reflexivity).
  assert (1 ∈ [1; 0]) as Hl by (by left).
  assert (h !! 1 = Some F) as HF by (vm_compute; reflexivity).
  split; [exact Hrun|]. split; [exact Hl|]. split; [exact HF|].
  split; [|vm_compute; reflexivity].
  exact (proj1 (C4_dependency_pointers [] Scenario.no_comments Scenario.preflight_ok
                  map_to_list Scenario.request_yx h [1; 0] 1 F (λ m, reflexivity _)
                  Hrun Hl HF)).
Defined.

(** ** Generation targets *)


Lemma is_target_true (m : gmap string loc) names l :
  is_target m names l = true ↔ ∃ f, f ∈ names ∧ m !! f = Some l.
Proof. unfold is_target. by rewrite bool_decide_eq_true, Exists_exists. Qed.



(** ** The order of the returned files *)

Lemma string_lt_negb_le (a b : string) : negb (string_lt b a) ↔ String.le a b.
Proof.
  unfold string_lt, String.le, String.ltb, String.leb.
  rewrite (String.compare_antisym a b). by destruct (String.compare b a).
Qed.

Lemma string_le_neq_lt (a b : string) : String.le a b → a ≠ b → string_lt a b = true.
Proof.
  unfold string_lt, String.le, String.ltb, String.leb.
  destruct (String.compare a b) eqn:Hc; [|done..].
  apply String.compare_eq_iff in Hc. by intros _ [].
Qed.

(** The order by which the current driver sorts: not greater by name. *)
Definition name_le (h : heap) (i j : loc) : Prop :=
  negb (string_lt (name_at h j) (name_at h i)).

Lemma name_le_le h i j : name_le h i j ↔ String.le (name_at h i) (name_at h j).
Proof. apply string_lt_negb_le. Qed.

#[local] Instance name_le_total h : Total (name_le h).
Proof.
  intros i j. rewrite !name_le_le. apply String.le_total.
Qed.

#[local] Instance name_le_trans h : Transitive (name_le h).
Proof.
  intros i j k. rewrite !name_le_le. apply String.le_po.
Qed.

Lemma sort_Slice_Sorted (h : heap) (xs : list loc) :
  Sorted (name_le h) (sort_Slice (λ i j, string_lt (name_at h i) (name_at h j)) xs).
Proof. unfold sort_Slice. apply (Sorted_merge_sort (name_le h)). Qed.

Lemma StronglySorted_strict {A B} (R : relation A) (S : relation B) (f : A → B) (l : list A) :
  (∀ a b, a ∈ l → b ∈ l → a ≠ b → R a b → S (f a) (f b)) →
  NoDup l → StronglySorted R l → StronglySorted S (f <$> l).
Proof.
  intros HRS Hnd Hsorted. induction Hsorted as [|a l Hl IH Ha]; [constructor|].
  apply NoDup_cons in Hnd as [Hnotin Hnd]. cbn. constructor.
  - apply IH; [|done]. intros x y Hx Hy. apply HRS; by right.
  - apply Forall_fmap, Forall_forall. intros b Hb. rewrite Forall_forall in Ha.
    apply HRS; [by left | by right | | by apply Ha]. by intros ->.
Qed.

Section order.
Variable rev : revision.
Variable GlobalTypes : list ExtensionType.
Variable ParseComments : FileDescriptorProto → gmap string Comment.
Variable preflight : CodeGeneratorRequest → outcome ().

Local Abbreviation run :=
  (ParseCodeGenRequestAllFiles rev GlobalTypes ParseComments preflight).

(** The returned files have pairwise different names. *)
Lemma run_names_distinct range req h files l1 l2 :
  (∀ m, range m ≡ₚ map_to_list m) →
  run range req = Returned (h, files) →
  l1 ∈ files → l2 ∈ files → name_at h l1 = name_at h l2 → l1 = l2.
Proof.
  intros Hrange Hrun Hl1 Hl2 Hnames.
  destruct (run_file _ _ _ _ _ Hrange _ _ _ _ Hrun Hl1)
    as (pf1 & F01 & F1 & Hpf1 & Hm1 & Hparse1 & HF1 & Ht1 & _).
  destruct (run_file _ _ _ _ _ Hrange _ _ _ _ Hrun Hl2)
    as (pf2 & F02 & F2 & Hpf2 & Hm2 & Hparse2 & HF2 & Ht2 & _).
  unfold name_at in Hnames. rewrite HF1, HF2 in Hnames. cbn in Hnames.
  unfold PKFileDescriptor_GetName in Hnames.
  rewrite (same_tree_desc _ _ Ht1), (same_tree_desc _ _ Ht2) in Hnames.
  destruct (parseFile_Returned _ _ _ _ _ _ _ Hparse1) as (Hd1 & _).
  destruct (parseFile_Returned _ _ _ _ _ _ _ Hparse2) as (Hd2 & _).
  rewrite Hd1, Hd2 in Hnames. rewrite Hnames in Hm1. congruence.
Qed.

Lemma walked_NoDup range (m : gmap string loc) :
  (∀ m, range m ≡ₚ map_to_list m) →
  (∀ n1 n2 l, m !! n1 = Some l → m !! n2 = Some l → n1 = n2) →
  NoDup (range m).*2.
Proof.
  intros Hrange Hinj. rewrite (Hrange m). apply NoDup_fmap_2_strong.
  - intros [n1 l1] [n2 l2] H1%elem_of_map_to_list H2%elem_of_map_to_list Heq.
    cbn in Heq. subst l2. f_equal. by eapply Hinj.
  - apply NoDup_map_to_list.
Qed.

Lemma names_map_inj pfs n1 n2 l :
  names_map pfs !! n1 = Some l → names_map pfs !! n2 = Some l → n1 = n2.
Proof.
  rewrite !names_map_Some. intros [(pf1 & H1 & <-) _] [(pf2 & H2 & <-) _]. congruence.
Qed.
End order.

Lemma link_imports_perm range1 range2 (m : gmap string loc) (h0 : heap) :
  range1 ≡ₚ range2 →
  (∃ h1, link_imports range1 m h0 = Returned (h1, range1.*2)
         ∧ link_imports range2 m h0 = Returned (h1, range2.*2))
  ∨ (link_imports range1 m h0 = Panicked NilPointerDereference
     ∧ link_imports range2 m h0 = Panicked NilPointerDereference).
Proof.
  intros Hperm. rewrite !link_imports_unfold.
  assert (Forall2 same_but_imports h0 h0) as Hrefl.
  { apply Forall2_same_length_lookup_2; [done|].
    intros i F F' HF HF'. simplify_eq. apply same_but_imports_refl. }
  destruct (decide (Forall (λ e, is_Some (link_file h0 m e.2)) range1)) as [Hall|Hall].
  - left.
    destruct (link_loop_Returned h0 m range1 h0 [] Hrefl Hall) as (h1 & Hlink1 & _ & Hl1).
    rewrite Hperm in Hall.
    destruct (link_loop_Returned h0 m range2 h0 [] Hrefl Hall) as (h2 & Hlink2 & _ & Hl2).
    exists h1. split; [done|]. rewrite Hlink2. do 2 f_equal.
    apply list_eq. intros l. rewrite Hl1, Hl2.
    apply (f_equal (λ b : bool, if b then link_file h0 m l else h0 !! l)).
    apply bool_decide_ext. by rewrite Hperm.
  - right. apply not_Forall_Exists in Hall; try (by apply _).
    assert (Exists (λ e : string * loc, link_file h0 m e.2 = None) range1) as Hex.
    { eapply Exists_impl; [exact Hall|]. intros e He. cbn in He.
      by apply eq_None_not_Some. }
    split; [by apply (link_loop_Panicked h0)|].
    apply (link_loop_Panicked h0); [done|]. by rewrite <- Hperm.
Qed.

(** Any sorted rearrangement of addresses with pairwise different names is
    the one [sort_Slice] computes. *)
Lemma sorted_walk_unique (h : heap) (xs ys : list loc) :
  (∀ i j, i ∈ xs → j ∈ xs → name_at h i = name_at h j → i = j) →
  ys ≡ₚ xs → Sorted (name_le h) ys →
  ys = sort_Slice (λ i j, string_lt (name_at h i) (name_at h j)) xs.
Proof.
  intros Hdistinct Hperm Hsorted. apply (Sorted_unique_strong (name_le h)).
  - intros x1 x2 Hx1 Hx2 H12 H21. apply Hdistinct.
    + by rewrite <- Hperm.
    + by rewrite sort_Slice_Permutation in Hx2.
    + apply name_le_le in H12, H21. by apply (anti_symm String.le).
  - done.
  - apply sort_Slice_Sorted.
  - by rewrite sort_Slice_Permutation.
Qed.

(** In the current revision the names of the returned files increase
    strictly along the returned list. *)
Theorem current_result_sorted GlobalTypes ParseComments preflight range req h files :
  (∀ m, range m ≡ₚ map_to_list m) →
  ParseCodeGenRequestAllFiles current GlobalTypes ParseComments preflight range req
    = Returned (h, files) →
  StronglySorted (λ a b, string_lt a b = true) (name_at h <$> files).
Proof.
  intros Hrange Hrun.
  destruct (run_Returned _ _ _ _ _ _ _ _ Hrun)
    as (h0 & h1 & _ & _ & _ & _ & _ & _ & _ & Hfiles).
  unfold returned_order in Hfiles.
  apply (StronglySorted_strict (name_le h)).
  - intros a b Ha Hb Hne Hle. apply string_le_neq_lt; [by apply name_le_le|].
    intros Hnames. apply Hne. by eapply run_names_distinct.
  - rewrite Hfiles, sort_Slice_Permutation.
    apply walked_NoDup; [done|]. intros n1 n2 l. apply names_map_inj.
  - rewrite Hfiles. apply Sorted_StronglySorted; [apply _|]. apply sort_Slice_Sorted.
Qed.

(** In the current revision the outcome of the driver does not depend on
    the order in which the map of files is walked. *)
Theorem current_result_deterministic GlobalTypes ParseComments preflight range1 range2 req :
  (∀ m, range1 m ≡ₚ map_to_list m) →
  (∀ m, range2 m ≡ₚ map_to_list m) →
  ParseCodeGenRequestAllFiles current GlobalTypes ParseComments preflight range1 req
  = ParseCodeGenRequestAllFiles current GlobalTypes ParseComments preflight range2 req.
Proof.
  intros Hrange1 Hrange2.
  pose proof (run_names_distinct current GlobalTypes ParseComments preflight range1 req)
    as Hdistinct.
  unfold ParseCodeGenRequestAllFiles in Hdistinct |- *. unfold_outcome.
  destruct (preflight req) as [[]| | |]; [|done..].
  destruct (build_files _ _ _ _) as [[h0 m]| | |]; [|done..].
  destruct (link_imports_perm (range1 m) (range2 m) m h0) as [(h1 & Hl1 & Hl2)|[Hl1 Hl2]];
    [by rewrite Hrange1, Hrange2 | | by rewrite Hl1, Hl2].
  rewrite Hl1, Hl2. rewrite Hl1 in Hdistinct.
  destruct (for_each (mark_file m) h1 (FileToGenerate req)) as [h2| | |]; [|done..].
  do 2 f_equal. apply (Sorted_unique_strong (name_le h2)).
  - intros x1 x2 Hx1 Hx2 H12 H21.
    apply (Hdistinct h2 _ x1 x2 Hrange1 eq_refl); [done | |].
    + rewrite sort_Slice_Permutation in Hx2 |- *. by rewrite Hrange1, <- Hrange2.
    + apply name_le_le in H12, H21. by apply (anti_symm String.le).
  - apply sort_Slice_Sorted.
  - apply sort_Slice_Sorted.
  - rewrite !sort_Slice_Permutation. by rewrite Hrange1, Hrange2.
Qed.

(** With another order of the walk over the map. *)
Definition walk_reversed (m : gmap string loc) : list (string * loc) :=
  reverse (map_to_list m).

Lemma walk_reversed_walks m : walk_reversed m ≡ₚ map_to_list m.
Proof. apply reverse_Permutation. Qed.

(** The legacy driver returns the files in the order of the walk. *)
Lemma legacy_result_walk_order GlobalTypes ParseComments preflight range req h files :
  ParseCodeGenRequestAllFiles legacy GlobalTypes ParseComments preflight range req
    = Returned (h, files) →
  files = (range (names_map (ProtoFile req))).*2.
Proof.
  intros Hrun.
  by destruct (run_Returned _ _ _ _ _ _ _ _ Hrun) as (h0 & h1 & _ & _ & _ & _ & _ & _ & _ & ->).
Qed.

(** C7 (the legacy driver at a failing input): for the batch [y.proto],
    [x.proto] the legacy driver returns the files in the order in which the
    map is walked: [y.proto] before [x.proto] for one order of the walk,
    [x.proto] before [y.proto] for the opposite one.  The first result is not
    sorted by name, and the result depends on the walk.  The current driver
    returns [x.proto], [y.proto] for both. *)
Lemma C7_legacy_result_unsorted :
  let run range rev :=
    ParseCodeGenRequestAllFiles rev [] Scenario.no_comments Scenario.preflight_ok
      range Scenario.request_yx in
  let names (o : outcome (heap * list loc)) :=
    match o with
    | Returned (h, files) => Some (name_at h <$> files)
    | _ => None
    end in
  names (run map_to_list legacy) = Some ["y.proto"; "x.proto"]
  ∧ names (run walk_reversed legacy) = Some ["x.proto"; "y.proto"]
  ∧ string_lt "y.proto" "x.proto" = false
  ∧ names (run map_to_list current) = Some ["x.proto"; "y.proto"]
  ∧ names (run walk_reversed current) = Some ["x.proto"; "y.proto"].
Proof. vm_compute. by split_and!. Qed.

(** ** Lookup by name *)

(** Sibling names as the compiler front-end produces them: identifiers
    without a dot, pairwise different. *)
Definition good_names (names : list string) : bool :=
  forallb (λ n, negb (Contains n ".")) names && bool_decide (NoDup names).

Definition wf_enum (ed : EnumDescriptorProto) : bool :=
  bool_decide (NoDup (evp_Name <$> edp_Value ed)).

Fixpoint wf_message (md : DescriptorProto) : bool :=
  good_names (dp_Name <$> dp_NestedType md)
  && good_names (edp_Name <$> dp_EnumType md)
  && good_names (fdp_Name <$> dp_Field md)
  && forallb wf_enum (dp_EnumType md)
  && forallb wf_message (dp_NestedType md).

Definition wf_file (fd : FileDescriptorProto) : bool :=
  good_names (dp_Name <$> fp_MessageType fd)
  && good_names (edp_Name <$> fp_EnumType fd)
  && good_names (sdp_Name <$> fp_Service fd)
  && forallb wf_enum (fp_EnumType fd)
  && forallb wf_message (fp_MessageType fd)
  && forallb (λ sd, good_names (mdp_Name <$> sdp_Method sd)) (fp_Service fd).

Lemma wf_message_unfold md :
  wf_message md =
  good_names (dp_Name <$> dp_NestedType md)
  && good_names (edp_Name <$> dp_EnumType md)
  && good_names (fdp_Name <$> dp_Field md)
  && forallb wf_enum (dp_EnumType md)
  && forallb wf_message (dp_NestedType md).
Proof. by destruct md. Qed.

Lemma forallb_Forall {A} (f : A → bool) (l : list A) :
  forallb f l = true ↔ Forall (λ x, f x = true) l.
Proof.
  induction l as [|x l IH]; cbn; [by split; [constructor|]|].
  rewrite andb_true_iff, IH, Forall_cons. done.
Qed.

Lemma good_names_spec {A} (name : A → string) (xs : list A) i j x y :
  good_names (name <$> xs) = true →
  xs !! i = Some x → xs !! j = Some y →
  dot_free (name y) ∧ (name y = name x → j = i).
Proof.
  unfold good_names. rewrite andb_true_iff, forallb_Forall, bool_decide_eq_true.
  intros [Hplain Hnd] Hx Hy. split.
  - rewrite Forall_forall in Hplain. specialize (Hplain (name y)).
    unfold dot_free. rewrite <- Contains_spec.
    destruct (Contains (name y) "."); [|done].
    exfalso. enough (negb true = true) by done. apply Hplain.
    apply list_elem_of_fmap. exists y. split; [done|]. by eapply list_elem_of_lookup_2.
  - intros Heq. eapply (NoDup_lookup _ _ _ (name x) Hnd).
    + rewrite list_lookup_fmap, Hy. cbn. by rewrite Heq.
    + by rewrite list_lookup_fmap, Hx.
Qed.

Lemma dot_free_no_prefix (n : string) : dot_free n → HasPrefix n "." = false.
Proof.
  intros Hn. destruct (HasPrefix n ".") eqn:Hp; [|done]. exfalso. apply Hn.
  apply prefix_spec in Hp as [rest ->]. by exists "", rest.
Qed.

(** The first element at which the test holds is what [find] returns. *)
Lemma find_first {A} (f : A → bool) (l : list A) i x :
  l !! i = Some x → f x = true →
  (∀ j y, j < i → l !! j = Some y → f y = false) →
  List.find f l = Some x.
Proof.
  revert i. induction l as [|z l IH]; intros [|i] Hx Hfx Hbefore; simplify_eq/=.
  - by rewrite Hfx.
  - rewrite (Hbefore 0 z); [|lia|done]. apply (IH i); [done..|].
    intros j y Hj Hy. apply (Hbefore (S j) y); [lia | done].
Qed.

(** A lookup in the result of an indexed loop: the entry built at [i] is
    found when no entry built before it passes the test. *)
Lemma find_range_loop {A B} (body : nat → A → B) (test : B → bool) (xs : list A) i x :
  xs !! i = Some x → test (body i x) = true →
  (∀ j y, j ≠ i → xs !! j = Some y → test (body j y) = false) →
  List.find test (range_loop body xs) = Some (body i x).
Proof.
  intros Hx Htest Hothers. apply find_first with i.
  - by rewrite range_loop_lookup, Hx.
  - done.
  - intros j b Hj. rewrite range_loop_lookup. destruct (xs !! j) as [y|] eqn:Hy; [|done].
    intros [= <-]. apply (Hothers j y); [lia | done].
Qed.

Lemma nested_name_other (parent : option common) (n n' : string) :
  dot_free n' → n' ≠ n →
  n' ≠ nested_name parent n ∧ nested_name parent n' ≠ nested_name parent n.
Proof.
  intros Hplain Hne. destruct parent as [p|]; cbn; [|done]. unfold Sprintf_s_s. split.
  - intros ->. apply Hplain. by exists (LongName p), n.
  - intros Heq. apply Hne. apply (inj (String.app (LongName p))) in Heq.
    by apply (inj (String.app ".")) in Heq.
Qed.

Lemma name_test_false (n' ln' target : string) :
  n' ≠ target → ln' ≠ target →
  bool_decide (n' = target) || bool_decide (ln' = target) = false.
Proof. intros. by rewrite !bool_decide_eq_false_2. Qed.

Lemma name_test_true (n' ln' : string) :
  bool_decide (n' = ln') || bool_decide (ln' = ln') = true.
Proof. rewrite (bool_decide_eq_true_2 (ln' = ln')); [|done]. apply orb_true_r. Qed.

Section round_trip.
Variable rev : revision.
Variable GlobalTypes : list ExtensionType.

Local Abbreviation with_options := (with_options GlobalTypes).
Local Abbreviation newCommon := (newCommon rev).
Local Abbreviation parseMessage := (parseMessage rev GlobalTypes).
Local Abbreviation parseMessages := (parseMessages rev GlobalTypes).
Local Abbreviation parseEnums := (parseEnums rev GlobalTypes).
Local Abbreviation parseEnumValues := (parseEnumValues rev GlobalTypes).
Local Abbreviation parseMessageFields := (parseMessageFields rev GlobalTypes).
Local Abbreviation parseServices := (parseServices rev GlobalTypes).
Local Abbreviation parseServiceMethods := (parseServiceMethods rev GlobalTypes).

Lemma parseMessage_names file parent i md :
  PKDescriptor_GetName (parseMessage file parent i md) = dp_Name md
  ∧ LongName (m_common (parseMessage file parent i md)) = nested_name parent (dp_Name md).
Proof.
  rewrite parseMessage_unfold. unfold message_common. cbn -[with_options].
  by rewrite with_options_LongName.
Qed.

Lemma parseEnums_round_trip file parent protos e :
  good_names (edp_Name <$> protos) = true →
  e ∈ parseEnums file parent protos →
  List.find (λ e', bool_decide (PKEnumDescriptor_GetName e' = LongName (e_common e))
                   || bool_decide (LongName (e_common e') = LongName (e_common e)))
    (parseEnums file parent protos) = Some e.
Proof.
  intros Hgood He. apply list_elem_of_lookup in He as [i Hi].
  apply find_first with i; [done | apply name_test_true |].
  intros j y Hj Hy. rewrite parseEnums_lookup in Hi, Hy.
  destruct (protos !! i) as [ed|] eqn:Hed; [|done].
  destruct (protos !! j) as [ed'|] eqn:Hed'; [|done].
  injection Hi as <-. injection Hy as <-.
  unfold PKEnumDescriptor_GetName. cbn -[with_options].
  rewrite !with_options_LongName, !newCommon_LongName.
  destruct (good_names_spec edp_Name protos i j ed ed' Hgood Hed Hed') as [Hplain Hinj].
  assert (edp_Name ed' ≠ edp_Name ed) as Hne by (intros Heq; apply Hinj in Heq; lia).
  destruct (nested_name_other parent _ _ Hplain Hne). by apply name_test_false.
Qed.

Lemma parseMessageFields_round_trip file message protos fl :
  good_names (fdp_Name <$> protos) = true →
  fl ∈ parseMessageFields file message protos →
  List.find (λ f, bool_decide (PKFieldDescriptor_GetName f = LongName (fl_common fl))
                  || bool_decide (LongName (fl_common f) = LongName (fl_common fl)))
    (parseMessageFields file message protos) = Some fl.
Proof.
  intros Hgood He. apply list_elem_of_lookup in He as [i Hi].
  apply find_first with i; [done | apply name_test_true |].
  intros j y Hj Hy. rewrite parseMessageFields_lookup in Hi, Hy.
  destruct (protos !! i) as [d|] eqn:Hd; [|done].
  destruct (protos !! j) as [d'|] eqn:Hd'; [|done].
  injection Hi as <-. injection Hy as <-.
  unfold PKFieldDescriptor_GetName. cbn -[with_options].
  rewrite !with_options_LongName, !newCommon_LongName.
  destruct (good_names_spec fdp_Name protos i j d d' Hgood Hd Hd') as [Hplain Hinj].
  assert (fdp_Name d' ≠ fdp_Name d) as Hne by (intros Heq; apply Hinj in Heq; lia).
  destruct (nested_name_other (Some message) _ _ Hplain Hne). by apply name_test_false.
Qed.

Lemma parseServiceMethods_round_trip file svc protos md :
  good_names (mdp_Name <$> protos) = true →
  md ∈ parseServiceMethods file svc protos →
  List.find (λ m, bool_decide (PKMethodDescriptor_GetName m = LongName (md_common md))
                  || bool_decide (LongName (md_common m) = LongName (md_common md)))
    (parseServiceMethods file svc protos) = Some md.
Proof.
  intros Hgood He. apply list_elem_of_lookup in He as [i Hi].
  apply find_first with i; [done | apply name_test_true |].
  intros j y Hj Hy. rewrite parseServiceMethods_lookup in Hi, Hy.
  destruct (protos !! i) as [d|] eqn:Hd; [|done].
  destruct (protos !! j) as [d'|] eqn:Hd'; [|done].
  injection Hi as <-. injection Hy as <-.
  unfold PKMethodDescriptor_GetName. cbn -[with_options].
  rewrite !with_options_LongName, !newCommon_LongName.
  destruct (good_names_spec mdp_Name protos i j d d' Hgood Hd Hd') as [Hplain Hinj].
  assert (mdp_Name d' ≠ mdp_Name d) as Hne by (intros Heq; apply Hinj in Heq; lia).
  destruct (nested_name_other (Some svc) _ _ Hplain Hne). by apply name_test_false.
Qed.

Lemma parseServices_round_trip file protos s :
  good_names (sdp_Name <$> protos) = true →
  s ∈ parseServices file protos →
  List.find (λ s', bool_decide (PKServiceDescriptor_GetName s' = LongName (s_common s))
                   || bool_decide (LongName (s_common s') = LongName (s_common s)))
    (parseServices file protos) = Some s.
Proof.
  intros Hgood He. apply list_elem_of_lookup in He as [i Hi].
  apply find_first with i; [done | apply name_test_true |].
  intros j y Hj Hy. rewrite parseServices_lookup in Hi, Hy.
  destruct (protos !! i) as [d|] eqn:Hd; [|done].
  destruct (protos !! j) as [d'|] eqn:Hd'; [|done].
  injection Hi as <-. injection Hy as <-.
  unfold PKServiceDescriptor_GetName. cbn -[with_options].
  rewrite !with_options_LongName, !newCommon_LongName.
  destruct (good_names_spec sdp_Name protos i j d d' Hgood Hd Hd') as [Hplain Hinj].
  assert (sdp_Name d' ≠ sdp_Name d) as Hne by (intros Heq; apply Hinj in Heq; lia).
  destruct (nested_name_other None _ _ Hplain Hne). by apply name_test_false.
Qed.

Lemma parseMessages_round_trip file (parent : common) protos n :
  good_names (dp_Name <$> protos) = true →
  n ∈ parseMessages file (Some parent) protos →
  List.find (λ msg, bool_decide (PKDescriptor_GetName msg = LongName (m_common n))
                    || bool_decide (LongName (m_common msg) = LongName (m_common n)))
    (parseMessages file (Some parent) protos) = Some n.
Proof.
  intros Hgood He. apply list_elem_of_lookup in He as [i Hi].
  apply find_first with i; [done | apply name_test_true |].
  intros j y Hj Hy. rewrite parseMessages_lookup in Hi, Hy.
  destruct (protos !! i) as [d|] eqn:Hd; [|done].
  destruct (protos !! j) as [d'|] eqn:Hd'; [|done].
  injection Hi as <-. injection Hy as <-.
  destruct (parseMessage_names file (Some parent) i d) as [_ ->].
  destruct (parseMessage_names file (Some parent) j d') as [-> ->].
  destruct (good_names_spec dp_Name protos i j d d' Hgood Hd Hd') as [Hplain Hinj].
  assert (dp_Name d' ≠ dp_Name d) as Hne by (intros Heq; apply Hinj in Heq; lia).
  destruct (nested_name_other (Some parent) _ _ Hplain Hne). by apply name_test_false.
Qed.

Lemma parseEnumValues_round_trip file enum protos v :
  NoDup (evp_Name <$> protos) →
  v ∈ parseEnumValues file enum protos →
  List.find (λ v', bool_decide (PKEnumValueDescriptor_GetName v'
                                = PKEnumValueDescriptor_GetName v))
    (parseEnumValues file enum protos) = Some v.
Proof.
  intros Hnd He. apply list_elem_of_lookup in He as [i Hi].
  apply find_first with i; [done | by apply bool_decide_eq_true_2 |].
  intros j y Hj Hy. rewrite parseEnumValues_lookup in Hi, Hy.
  destruct (protos !! i) as [d|] eqn:Hd; [|done].
  destruct (protos !! j) as [d'|] eqn:Hd'; [|done].
  injection Hi as <-. injection Hy as <-.
  unfold PKEnumValueDescriptor_GetName. cbn -[with_options].
  apply bool_decide_eq_false_2. intros Heq.
  assert (j = i); [|lia]. eapply (NoDup_lookup _ _ _ (evp_Name d) Hnd).
  - rewrite list_lookup_fmap, Hd'. cbn. by rewrite Heq.
  - by rewrite list_lookup_fmap, Hd.
Qed.
End round_trip.

(** What the current [newCommon] puts in front of ['.' + longName]. *)
Definition qualifier (package : string) : string :=
  if HasPrefix (package +:+ ".") "." then package else "." +:+ package.

Lemma newCommon_current_plain p path longName :
  HasPrefix longName "." = false →
  FullName (newCommon current p path longName)
  = qualifier (PKFileDescriptor_GetPackage (ptr_deref p)) +:+ "." +:+ longName.
Proof.
  intros Hl. unfold newCommon. cbn [FullName]. rewrite Hl. cbn [negb].
  unfold Sprintf_s_s, qualifier.
  set (package := PKFileDescriptor_GetPackage (ptr_deref p)).
  assert (HasPrefix (package +:+ "." +:+ longName) "." = HasPrefix (package +:+ ".") ".")
    as ->.
  { destruct (decide (package = "")) as [->|Hne].
    - rewrite !string_app_nil_l, HasPrefix_dot_cons. reflexivity.
    - by rewrite !HasPrefix_app_nonempty. }
  by destruct (HasPrefix (package +:+ ".") ".").
Qed.

Lemma top_messages_round_trip rev GlobalTypes file protos m :
  good_names (dp_Name <$> protos) = true →
  m ∈ parseMessages rev GlobalTypes file None protos →
  GetMessage_in rev (parseMessages rev GlobalTypes file None protos) (LongName (m_common m))
  = Some m
  ∧ (rev = current →
     GetMessage_in rev (parseMessages rev GlobalTypes file None protos)
       (FullName (m_common m)) = Some m).
Proof.
  intros Hgood He. apply list_elem_of_lookup in He as [i Hi].
  assert (∀ k d, protos !! k = Some d →
            dot_free (dp_Name d)
            ∧ PKDescriptor_GetName (parseMessage rev GlobalTypes file None k d) = dp_Name d
            ∧ LongName (m_common (parseMessage rev GlobalTypes file None k d)) = dp_Name d
            ∧ (rev = current →
               FullName (m_common (parseMessage rev GlobalTypes file None k d))
               = qualifier (PKFileDescriptor_GetPackage (ptr_deref file))
                 +:+ "." +:+ dp_Name d)) as Hnames.
  { intros k d Hd.
    destruct (good_names_spec dp_Name protos k k d d Hgood Hd Hd) as [Hplain _].
    destruct (parseMessage_names rev GlobalTypes file None k d) as [-> ->].
    split_and!; [done..|]. intros ->. rewrite parseMessage_unfold. unfold message_common.
    cbn -[with_options]. rewrite with_options_FullName.
    by apply newCommon_current_plain, dot_free_no_prefix. }
  pose proof Hi as Hi'. rewrite parseMessages_lookup in Hi'.
  destruct (protos !! i) as [d|] eqn:Hd; [|done]. injection Hi' as <-.
  destruct (Hnames i d Hd) as (Hplain & Hn & Hln & Hfn).
  assert (∀ j d', j < i → protos !! j = Some d' → dp_Name d' ≠ dp_Name d) as Hothers.
  { intros j d' Hj Hd' Heq.
    destruct (good_names_spec dp_Name protos i j d d' Hgood Hd Hd') as [_ Hinj].
    apply Hinj in Heq. lia. }
  assert (∀ q n n', dot_free n → n ≠ q +:+ "." +:+ n') as Hdot.
  { intros q n n' Hfree ->. apply Hfree. by exists q, n'. }
  split.
  - apply find_first with i; [done | |].
    { rewrite Hn, Hln. by rewrite (bool_decide_eq_true_2 (dp_Name d = dp_Name d)). }
    intros j y Hj Hy. rewrite parseMessages_lookup in Hy.
    destruct (protos !! j) as [d'|] eqn:Hd'; [|done]. injection Hy as <-.
    destruct (Hnames j d' Hd') as (Hplain' & -> & -> & Hfn'). rewrite Hln.
    rewrite (name_test_false _ _ _ (Hothers j d' Hj Hd') (Hothers j d' Hj Hd')).
    destruct rev; [|done]. rewrite (Hfn' eq_refl). cbn.
    apply bool_decide_eq_false_2. intros Heq. symmetry in Heq.
    by apply (Hdot _ _ _ Hplain) in Heq.
  - intros ->. apply find_first with i; [done | |].
    { rewrite (bool_decide_eq_true_2 (FullName _ = FullName _)); [|done].
      apply orb_true_r. }
    intros j y Hj Hy. rewrite parseMessages_lookup in Hy.
    destruct (protos !! j) as [d'|] eqn:Hd'; [|done]. injection Hy as <-.
    destruct (Hnames j d' Hd') as (Hplain' & -> & -> & Hfn').
    rewrite (Hfn eq_refl), (Hfn' eq_refl).
    rewrite (name_test_false _ _ _ (Hdot _ _ _ Hplain') (Hdot _ _ _ Hplain')). cbn.
    apply bool_decide_eq_false_2. intros Heq.
    apply (inj (String.app _)) in Heq. apply (inj (String.app ".")) in Heq.
    by apply (Hothers j d' Hj Hd').
Qed.

(** C5 (as stated, refuted): in [ab.proto] the enum [Color] and its value
    [RED] are not found under names that their own accessors return:
    [GetNamedValue] finds nothing under the long name [Color.RED] of the
    value, and the file's [GetEnum] finds nothing under the full name
    [.a.b.Color] of the enum. *)
Lemma C5_counterexample :
  ∃ F e v,
    Scenario.build current Scenario.ab_proto = Returned F
    ∧ e ∈ f_Enums F ∧ v ∈ e_Values e
    ∧ LongName (v_common v) = "Color.RED"
    ∧ GetNamedValue e (LongName (v_common v)) = None
    ∧ FullName (e_common e) = ".a.b.Color"
    ∧ PKFileDescriptor_GetEnum F (FullName (e_common e)) = None.
Proof.
  eexists _, _, _. split; [vm_compute; reflexivity|].
  split; [apply list_elem_of_lookup_2 with 0; vm_compute; reflexivity|].
  split; [apply list_elem_of_lookup_2 with 0; vm_compute; reflexivity|].
  split_and!; vm_compute; reflexivity.
Qed.

Lemma wf_message_hereditary md :
  wf_message md = true → Forall (λ d, wf_message d = true) (dp_NestedType md).
Proof.
  rewrite wf_message_unfold. intros H. apply andb_true_iff in H as [_ H].
  by apply forallb_Forall.
Qed.

(** C5 (amended): for a file whose sibling names are identifiers without a
    dot and pairwise different, looking an entity up by the long name that
    its accessor returns gives back that entity, through the file's
    [GetMessage], [GetEnum] and [GetService], a message's [GetMessage],
    [GetEnum] and [GetMessageField], and a service's [GetNamedMethod]; in the
    current revision the file's [GetMessage] also gives a top-level message
    back for its full name; [GetNamedValue] gives an enum value back for its
    bare name. *)
Theorem C5_lookup_round_trip rev GlobalTypes ParseComments allFilesMap self fd F :
  parseFile rev GlobalTypes ParseComments allFilesMap self fd = Returned F →
  wf_file fd = true →
  (∀ m, m ∈ f_Messages F →
     PKFileDescriptor_GetMessage rev F (LongName (m_common m)) = Some m
     ∧ (rev = current →
        PKFileDescriptor_GetMessage rev F (FullName (m_common m)) = Some m))
  ∧ (∀ e, e ∈ f_Enums F → PKFileDescriptor_GetEnum F (LongName (e_common e)) = Some e)
  ∧ (∀ s, s ∈ f_Services F →
       PKFileDescriptor_GetService F (LongName (s_common s)) = Some s
       ∧ ∀ md, md ∈ s_Methods s → GetNamedMethod s (LongName (md_common md)) = Some md)
  ∧ (∀ m, m ∈ all_messages F →
       (∀ n, n ∈ m_Messages m → PKDescriptor_GetMessage m (LongName (m_common n)) = Some n)
       ∧ (∀ e, e ∈ m_Enums m → PKDescriptor_GetEnum m (LongName (e_common e)) = Some e)
       ∧ (∀ fl, fl ∈ m_Fields m → GetMessageField m (LongName (fl_common fl)) = Some fl))
  ∧ (∀ e, e ∈ all_enums F → ∀ v, v ∈ e_Values e →
       GetNamedValue e (PKEnumValueDescriptor_GetName v) = Some v).
Proof.
  intros HF Hwf. unfold wf_file in Hwf. rewrite !andb_true_iff, !forallb_Forall in Hwf.
  destruct Hwf as (((((Hmsgs & Henums) & Hsvcs) & Hwfenums) & Hwfmsgs) & Hmethods).
  destruct (parseFile_Returned _ _ _ _ _ _ _ HF)
    as (_ & _ & (pe & _ & HEnums) & _ & (pm & _ & HMessages) & (ps & _ & _ & HServices)).
  assert (∀ m, m ∈ all_messages F →
            ∃ p parent i md, wf_message md = true
                             ∧ m = parseMessage rev GlobalTypes p parent i md) as Hall.
  { intros m Hm.
    destruct (in_all_messages _ _ _ _ _ _ _ HF (λ d, wf_message d = true) m
                wf_message_hereditary Hwfmsgs Hm) as (p & parent & i & md & _ & Hmd & ->).
    by exists p, parent, i, md. }
  split_and!.
  - intros m Hm. unfold PKFileDescriptor_GetMessage. rewrite HMessages in Hm |- *.
    by apply top_messages_round_trip.
  - intros e He. unfold PKFileDescriptor_GetEnum. rewrite HEnums in He |- *.
    by apply parseEnums_round_trip.
  - intros s Hs. unfold PKFileDescriptor_GetService. rewrite HServices in Hs |- *.
    split; [by apply parseServices_round_trip|].
    apply list_elem_of_lookup in Hs as [i Hi]. rewrite parseServices_lookup in Hi.
    destruct (fp_Service fd !! i) as [sd|] eqn:Hsd; [|done]. injection Hi as <-.
    intros md Hmd. unfold GetNamedMethod. cbn [s_Methods] in Hmd |- *.
    apply parseServiceMethods_round_trip; [|done].
    rewrite Forall_forall in Hmethods. apply Hmethods. by eapply list_elem_of_lookup_2.
  - intros m Hm. destruct (Hall m Hm) as (p & parent & i & md & Hmd & ->).
    rewrite wf_message_unfold, !andb_true_iff in Hmd.
    destruct Hmd as ((((Hn & He) & Hf) & _) & _).
    unfold PKDescriptor_GetMessage, PKDescriptor_GetEnum, GetMessageField.
    rewrite parseMessage_unfold. cbn [m_Messages m_Enums m_Fields].
    split_and!.
    + intros n. by apply parseMessages_round_trip.
    + intros e. by apply parseEnums_round_trip.
    + intros fl. by apply parseMessageFields_round_trip.
  - intros e He v Hv.
    assert (∃ p parent protos i ed,
              protos !! i = Some ed ∧ wf_enum ed = true
              ∧ parseEnums rev GlobalTypes p parent protos !! i = Some e)
      as (p & parent & protos & i & ed & Hed & Hwfed & Hi).
    { unfold all_enums in He. apply elem_of_app in He as [He|He].
      - rewrite HEnums in He. apply list_elem_of_lookup in He as [i Hi].
        pose proof Hi as Hi'. rewrite parseEnums_lookup in Hi'.
        destruct (fp_EnumType fd !! i) as [ed|] eqn:Hed; [|done].
        exists pe, None, (fp_EnumType fd), i, ed. split_and!; [done | | done].
        rewrite Forall_forall in Hwfenums. apply Hwfenums. by eapply list_elem_of_lookup_2.
      - apply list_elem_of_bind in He as (m & He & Hm).
        destruct (Hall m Hm) as (p & parent & k & md & Hmd & ->).
        rewrite wf_message_unfold, !andb_true_iff, !forallb_Forall in Hmd.
        destruct Hmd as ((((_ & _) & _) & Hwfe) & _).
        rewrite parseMessage_unfold in He. cbn [m_Enums] in He.
        apply list_elem_of_lookup in He as [i Hi].
        pose proof Hi as Hi'. rewrite parseEnums_lookup in Hi'.
        destruct (dp_EnumType md !! i) as [ed|] eqn:Hed; [|done].
        eexists p, _, (dp_EnumType md), i, ed. split_and!; [done | | done].
        rewrite Forall_forall in Hwfe. apply Hwfe. by eapply list_elem_of_lookup_2. }
    rewrite parseEnums_lookup, Hed in Hi. injection Hi as <-.
    unfold GetNamedValue. cbn [e_Values] in Hv |- *.
    apply parseEnumValues_round_trip; [|done]. unfold wf_enum in Hwfed.
    by apply bool_decide_eq_true in Hwfed.
Qed.

(** The entities of [ab.proto]. *)
Lemma C5_lookup_round_trip_witness :
  let F := match Scenario.build current Scenario.ab_proto with
           | Returned F => F
           | _ => new_file current [] Scenario.no_comments Scenario.ab_proto
           end in
  Scenario.build current Scenario.ab_proto = Returned F
  ∧ wf_file Scenario.ab_proto = true
  ∧ (∀ m, m ∈ f_Messages F →
       PKFileDescriptor_GetMessage current F (LongName (m_common m)) = Some m
       ∧ (current = current →
          PKFileDescriptor_GetMessage current F (FullName (m_common m)) = Some m))
  ∧ (∀ e, e ∈ f_Enums F → PKFileDescriptor_GetEnum F (LongName (e_common e)) = Some e).
Proof.
  intros F.
  assert (Scenario.build current Scenario.ab_proto = Returned F) as HF
    by (vm_compute; reflexivity).
  assert (wf_file Scenario.ab_proto = true) as Hwf by (vm_compute; reflexivity).
  split; [exact HF|]. split; [exact Hwf|].
  destruct (C5_lookup_round_trip current [] Scenario.no_comments ∅ 0 Scenario.ab_proto F
              HF Hwf) as (Hm & He & _).
  split; [exact Hm | exact He].
Defined.

(** * Further properties of the assembler *)

(** ** Names, back-references and the shape of the tree *)

(** Takes the entry [x] of the result of a builder apart: [H : x ∈ builder ...]
    becomes the index and the raw descriptor it was built from. *)
Ltac built_from H lookup_lemma :=
  let k := fresh "k" in
  let Hk := fresh "Hk" in
  apply list_elem_of_lookup in H as [k Hk];
  rewrite lookup_lemma in Hk;
  match type of Hk with
  | _ <$> ?l !! _ = _ => destruct (l !! k) eqn:?; [|done]
  end;
  injection Hk as <-.

(** What [newCommon] puts in front of ['.' + longName] in either revision. *)
Definition package_prefix (rev : revision) (package : string) : string :=
  match rev with
  | current => qualifier package
  | legacy => package
  end.

Lemma newCommon_plain rev p path longName :
  HasPrefix longName "." = false →
  FullName (newCommon rev p path longName)
  = package_prefix rev (PKFileDescriptor_GetPackage (ptr_deref p)) +:+ "." +:+ longName.
Proof.
  intros Hl. destruct rev; cbn [package_prefix].
  - by apply newCommon_current_plain.
  - by apply newCommon_legacy_FullName.
Qed.

Lemma newCommon_nested rev p p' path path' longName name :
  PKFileDescriptor_GetPackage (ptr_deref p) = PKFileDescriptor_GetPackage (ptr_deref p') →
  longName ≠ "" → HasPrefix longName "." = false →
  FullName (newCommon rev p path (Sprintf_s_s longName name))
  = FullName (newCommon rev p' path' longName) +:+ "." +:+ name.
Proof.
  intros Hpkg Hne Hl. unfold Sprintf_s_s.
  rewrite !newCommon_plain, Hpkg; [|done|by rewrite HasPrefix_app_nonempty].
  by rewrite !string_app_assoc.
Qed.

Section tree_facts.
Variable rev : revision.
Variable GlobalTypes : list ExtensionType.
Variable ParseComments : FileDescriptorProto → gmap string Comment.
Context (allFilesMap : gmap string loc) (self : loc) (fd : FileDescriptorProto).
Context (F : PKFileDescriptor).
Hypothesis HF : parseFile rev GlobalTypes ParseComments allFilesMap self fd = Returned F.

Local Abbreviation in_messages := (in_all_messages_plain _ _ _ _ _ _ _ HF).
Local Abbreviation in_enums := (in_all_enums _ _ _ _ _ _ _ HF).
Local Abbreviation in_services := (in_f_Services _ _ _ _ _ _ _ HF).
Local Abbreviation built := (parseFile_Returned _ _ _ _ _ _ _ HF).

(** X1: a top-level message, enum or service has its bare name as long
    name; a nested message or enum, a field, an enum value and a method has
    the long name of what contains it, a dot, and its own name. *)
Theorem long_names_follow_nesting :
  (∀ m, m ∈ f_Messages F → LongName (m_common m) = PKDescriptor_GetName m)
  ∧ (∀ e, e ∈ f_Enums F → LongName (e_common e) = PKEnumDescriptor_GetName e)
  ∧ (∀ s, s ∈ f_Services F → LongName (s_common s) = PKServiceDescriptor_GetName s)
  ∧ (∀ m, m ∈ all_messages F →
       (∀ n, n ∈ m_Messages m →
          LongName (m_common n)
          = LongName (m_common m) +:+ "." +:+ PKDescriptor_GetName n)
       ∧ (∀ e, e ∈ m_Enums m →
            LongName (e_common e)
            = LongName (m_common m) +:+ "." +:+ PKEnumDescriptor_GetName e)
       ∧ (∀ fl, fl ∈ m_Fields m →
            LongName (fl_common fl)
            = LongName (m_common m) +:+ "." +:+ PKFieldDescriptor_GetName fl))
  ∧ (∀ e, e ∈ all_enums F → ∀ v, v ∈ e_Values e →
       LongName (v_common v)
       = LongName (e_common e) +:+ "." +:+ PKEnumValueDescriptor_GetName v)
  ∧ (∀ s, s ∈ f_Services F → ∀ md, md ∈ s_Methods s →
       LongName (md_common md)
       = LongName (s_common s) +:+ "." +:+ PKMethodDescriptor_GetName md).
Proof.
  destruct built as (_ & _ & (pe & _ & HE) & _ & (pm & _ & HM) & (ps & _ & _ & HS)).
  split_and!.
  - intros m Hm. rewrite HM in Hm. built_from Hm parseMessages_lookup.
    by destruct (parseMessage_names rev GlobalTypes pm None k d) as [-> ->].
  - intros e He. rewrite HE in He. built_from He parseEnums_lookup.
    cbn -[with_options]. by rewrite with_options_LongName.
  - intros s Hs. rewrite HS in Hs. built_from Hs parseServices_lookup.
    cbn -[with_options]. by rewrite with_options_LongName.
  - intros m Hm. destruct (in_messages m Hm) as (p & parent & i & md & _ & ->).
    rewrite parseMessage_unfold. cbn [m_common m_Messages m_Enums m_Fields].
    split_and!.
    + intros n Hn. built_from Hn parseMessages_lookup.
      by destruct (parseMessage_names rev GlobalTypes p
                     (Some (message_common rev GlobalTypes p parent i md)) k d) as [-> ->].
    + intros e He. built_from He parseEnums_lookup.
      cbn -[with_options message_common]. by rewrite with_options_LongName.
    + intros fl Hfl. built_from Hfl parseMessageFields_lookup.
      cbn -[with_options message_common]. by rewrite with_options_LongName.
  - intros e He v Hv. destruct (in_enums e He) as (p & parent & protos & i & _ & Hi).
    rewrite parseEnums_lookup in Hi. destruct (protos !! i) as [ed|]; [|done].
    injection Hi as <-. cbn [e_Values e_common] in *.
    built_from Hv parseEnumValues_lookup.
    cbn -[with_options]. by rewrite !with_options_LongName.
  - intros s Hs md Hmd. destruct (in_services s Hs) as (p & i & _ & _ & Hi).
    rewrite parseServices_lookup in Hi. destruct (fp_Service fd !! i) as [sd|]; [|done].
    injection Hi as <-. cbn [s_Methods s_common] in *.
    built_from Hmd parseServiceMethods_lookup.
    cbn -[with_options]. by rewrite !with_options_LongName.
Qed.
End tree_facts.

Lemma fmap_range_loop {A B} (body : nat → A → B) (f : B → A) (xs : list A) :
  (∀ i x, f (body i x) = x) → f <$> range_loop body xs = xs.
Proof.
  intros Hf. apply list_eq. intros i.
  rewrite list_lookup_fmap, range_loop_lookup. destruct (xs !! i); cbn; [|done].
  by rewrite Hf.
Qed.

Lemma parseMessage_desc rev GlobalTypes file parent i md :
  m_desc (parseMessage rev GlobalTypes file parent i md) = md
  ∧ m_Parent (parseMessage rev GlobalTypes file parent i md) = parent.
Proof. by rewrite parseMessage_unfold. Qed.

Lemma child_FullName rev GlobalTypes p (c : common) path name o :
  (∃ path0 longName o0, c = with_options GlobalTypes (newCommon rev p path0 longName) o0) →
  LongName c ≠ "" → HasPrefix (LongName c) "." = false →
  FullName (with_options GlobalTypes (newCommon rev p path (Sprintf_s_s (LongName c) name)) o)
  = FullName c +:+ "." +:+ name.
Proof.
  intros (path0 & longName & o0 & ->).
  rewrite !with_options_LongName, !with_options_FullName, newCommon_LongName.
  intros Hne Hl. by apply newCommon_nested.
Qed.

Section tree_facts_more.
Variable rev : revision.
Variable GlobalTypes : list ExtensionType.
Variable ParseComments : FileDescriptorProto → gmap string Comment.
Context (allFilesMap : gmap string loc) (self : loc) (fd : FileDescriptorProto).
Context (F : PKFileDescriptor).
Hypothesis HF : parseFile rev GlobalTypes ParseComments allFilesMap self fd = Returned F.

Local Abbreviation in_messages := (in_all_messages_plain _ _ _ _ _ _ _ HF).
Local Abbreviation in_enums := (in_all_enums _ _ _ _ _ _ _ HF).
Local Abbreviation in_services := (in_f_Services _ _ _ _ _ _ _ HF).
Local Abbreviation built := (parseFile_Returned _ _ _ _ _ _ _ HF).

(** X2: below a container whose long name is not empty and begins with no
    dot, full names nest like long names: the full name of a nested message
    or enum, a field, an enum value or a method is the full name of what
    contains it, a dot, and its own name.  This holds of both revisions. *)
Theorem full_names_follow_nesting :
  (∀ m, m ∈ all_messages F →
     LongName (m_common m) ≠ "" → HasPrefix (LongName (m_common m)) "." = false →
     (∀ n, n ∈ m_Messages m →
        FullName (m_common n)
        = FullName (m_common m) +:+ "." +:+ PKDescriptor_GetName n)
     ∧ (∀ e, e ∈ m_Enums m →
          FullName (e_common e)
          = FullName (m_common m) +:+ "." +:+ PKEnumDescriptor_GetName e)
     ∧ (∀ fl, fl ∈ m_Fields m →
          FullName (fl_common fl)
          = FullName (m_common m) +:+ "." +:+ PKFieldDescriptor_GetName fl))
  ∧ (∀ e, e ∈ all_enums F →
       LongName (e_common e) ≠ "" → HasPrefix (LongName (e_common e)) "." = false →
       ∀ v, v ∈ e_Values e →
         FullName (v_common v)
         = FullName (e_common e) +:+ "." +:+ PKEnumValueDescriptor_GetName v)
  ∧ (∀ s, s ∈ f_Services F →
       LongName (s_common s) ≠ "" → HasPrefix (LongName (s_common s)) "." = false →
       ∀ md, md ∈ s_Methods s →
         FullName (md_common md)
         = FullName (s_common s) +:+ "." +:+ PKMethodDescriptor_GetName md).
Proof.
  split_and!.
  - intros m Hm. destruct (in_messages m Hm) as (p & parent & i & md & _ & ->).
    rewrite parseMessage_unfold. cbn [m_common m_Messages m_Enums m_Fields].
    intros Hne Hl.
    assert (∃ path0 longName o0,
              message_common rev GlobalTypes p parent i md
              = with_options GlobalTypes (newCommon rev p path0 longName) o0) as Hc
      by (by eexists _, _, _).
    split_and!.
    + intros n Hn. built_from Hn parseMessages_lookup.
      rewrite parseMessage_unfold. cbn [m_common]. unfold PKDescriptor_GetName.
      cbn [m_desc]. unfold message_common at 1. cbn [nested_name].
      by apply child_FullName.
    + intros e He. built_from He parseEnums_lookup.
      unfold PKEnumDescriptor_GetName. cbn [e_common e_desc nested_name].
      by apply child_FullName.
    + intros fl Hfl. built_from Hfl parseMessageFields_lookup.
      unfold PKFieldDescriptor_GetName. cbn [fl_common fl_desc].
      by apply child_FullName.
  - intros e He. destruct (in_enums e He) as (p & parent & protos & i & _ & Hi).
    rewrite parseEnums_lookup in Hi. destruct (protos !! i) as [ed|]; [|done].
    injection Hi as <-. cbn [e_Values e_common]. intros Hne Hl v Hv.
    built_from Hv parseEnumValues_lookup.
    unfold PKEnumValueDescriptor_GetName. cbn [v_common v_desc].
    apply child_FullName; [by eexists _, _, _ | done..].
  - intros s Hs. destruct (in_services s Hs) as (p & i & _ & _ & Hi).
    rewrite parseServices_lookup in Hi. destruct (fp_Service fd !! i) as [sd|]; [|done].
    injection Hi as <-. cbn [s_Methods s_common]. intros Hne Hl md Hmd.
    built_from Hmd parseServiceMethods_lookup.
    unfold PKMethodDescriptor_GetName. cbn [md_common md_desc].
    apply child_FullName; [by eexists _, _, _ | done..].
Qed.

(** X3: the back-references name the enclosing entity.  A top-level
    message, enum or extension has no parent; a nested one has the Common
    facet of the message that contains it as parent; a field refers to its
    message, an enum value to its enum, a method to its service. *)
Theorem back_references :
  (∀ m, m ∈ f_Messages F → m_Parent m = None)
  ∧ (∀ e, e ∈ f_Enums F → e_Parent e = None)
  ∧ (∀ x, x ∈ f_Extensions F → x_Parent x = None)
  ∧ (∀ m, m ∈ all_messages F →
       (∀ n, n ∈ m_Messages m → m_Parent n = Some (m_common m))
       ∧ (∀ e, e ∈ m_Enums m → e_Parent e = Some (m_common m))
       ∧ (∀ x, x ∈ m_Extensions m → x_Parent x = Some (m_common m))
       ∧ (∀ fl, fl ∈ m_Fields m → fl_Message fl = m_common m))
  ∧ (∀ e, e ∈ all_enums F → ∀ v, v ∈ e_Values e → v_Enum v = e_common e)
  ∧ (∀ s, s ∈ f_Services F → ∀ md, md ∈ s_Methods s → md_Service md = s_common s).
Proof.
  destruct built as (_ & _ & (pe & _ & HE) & (px & _ & HX) & (pm & _ & HM) & _).
  split_and!.
  - intros m Hm. rewrite HM in Hm. built_from Hm parseMessages_lookup.
    apply parseMessage_desc.
  - intros e He. rewrite HE in He. by built_from He parseEnums_lookup.
  - intros x Hx. rewrite HX in Hx. by built_from Hx parseExtensions_lookup.
  - intros m Hm. destruct (in_messages m Hm) as (p & parent & i & md & _ & ->).
    rewrite parseMessage_unfold. cbn [m_common m_Messages m_Enums m_Extensions m_Fields].
    split_and!.
    + intros n Hn. built_from Hn parseMessages_lookup. apply parseMessage_desc.
    + intros e He. by built_from He parseEnums_lookup.
    + intros x Hx. by built_from Hx parseExtensions_lookup.
    + intros fl Hfl. by built_from Hfl parseMessageFields_lookup.
  - intros e He v Hv. destruct (in_enums e He) as (p & parent & protos & i & _ & Hi).
    rewrite parseEnums_lookup in Hi. destruct (protos !! i) as [ed|]; [|done].
    injection Hi as <-. cbn [e_Values e_common] in *.
    by built_from Hv parseEnumValues_lookup.
  - intros s Hs md Hmd. destruct (in_services s Hs) as (p & i & _ & _ & Hi).
    rewrite parseServices_lookup in Hi. destruct (fp_Service fd !! i) as [sd|]; [|done].
    injection Hi as <-. cbn [s_Methods s_common] in *.
    by built_from Hmd parseServiceMethods_lookup.
Qed.

(** X4: the assembled tree mirrors the raw descriptor.  At every level
    the entities stand in the order of their descriptors, one for each, and
    [ProtoDesc] of the [i]-th entity is the [i]-th descriptor. *)
Theorem tree_mirrors_descriptor :
  f_desc F = fd
  ∧ m_desc <$> f_Messages F = fp_MessageType fd
  ∧ e_desc <$> f_Enums F = fp_EnumType fd
  ∧ x_desc <$> f_Extensions F = fp_Extension fd
  ∧ s_desc <$> f_Services F = fp_Service fd
  ∧ (∀ m, m ∈ all_messages F →
       m_desc <$> m_Messages m = dp_NestedType (m_desc m)
       ∧ e_desc <$> m_Enums m = dp_EnumType (m_desc m)
       ∧ x_desc <$> m_Extensions m = dp_Extension (m_desc m)
       ∧ fl_desc <$> m_Fields m = dp_Field (m_desc m))
  ∧ (∀ e, e ∈ all_enums F → v_desc <$> e_Values e = edp_Value (e_desc e))
  ∧ (∀ s, s ∈ f_Services F → md_desc <$> s_Methods s = sdp_Method (s_desc s)).
Proof.
  destruct built
    as (Hd & _ & (pe & _ & HE) & (px & _ & HX) & (pm & _ & HM) & (ps & _ & _ & HS)).
  assert (∀ file parent protos,
            m_desc <$> parseMessages rev GlobalTypes file parent protos = protos) as Hmsgs.
  { intros. apply fmap_range_loop. intros. apply parseMessage_desc. }
  assert (∀ file parent protos,
            e_desc <$> parseEnums rev GlobalTypes file parent protos = protos) as Henums
    by (intros; by apply fmap_range_loop).
  assert (∀ file parent protos,
            x_desc <$> parseExtensions rev GlobalTypes file parent protos = protos) as Hexts
    by (intros; by apply fmap_range_loop).
  split_and!; [done | by rewrite HM | by rewrite HE | by rewrite HX | | | |].
  - rewrite HS. by apply fmap_range_loop.
  - intros m Hm. destruct (in_messages m Hm) as (p & parent & i & md & _ & ->).
    rewrite parseMessage_unfold.
    cbn [m_desc m_common m_Messages m_Enums m_Extensions m_Fields].
    split_and!; [done.. |]. by apply fmap_range_loop.
  - intros e He. destruct (in_enums e He) as (p & parent & protos & i & _ & Hi).
    rewrite parseEnums_lookup in Hi. destruct (protos !! i) as [ed|]; [|done].
    injection Hi as <-. cbn [e_Values e_desc]. by apply fmap_range_loop.
  - intros s Hs. destruct (in_services s Hs) as (p & i & _ & _ & Hi).
    rewrite parseServices_lookup in Hi. destruct (fp_Service fd !! i) as [sd|]; [|done].
    injection Hi as <-. cbn [s_Methods s_desc]. by apply fmap_range_loop.
Qed.
End tree_facts_more.

(** ** Option extensions *)

(** An extension type that the registry holds for a message type. *)
Definition registered (GlobalTypes : list ExtensionType) (descriptor name : string) : Prop :=
  ∃ et, et ∈ GlobalTypes ∧ et_FullName et = name ∧ et_ContainingMessage et = descriptor.

(** Reading a key of a map that may be nil. *)
Definition option_value (m : option (gmap string OptValue)) (k : string) : option OptValue :=
  m ≫= (.!! k).

Lemma getOptions_snoc GlobalTypes et options :
  getOptions (GlobalTypes ++ [et]) options
  = if bool_decide (et_ContainingMessage et = om_Descriptor options)
    then match om_Extensions options !! et_FullName et with
         | Some ext => Some (<[et_FullName et := ext]> (default ∅ (getOptions GlobalTypes options)))
         | None => getOptions GlobalTypes options
         end
    else getOptions GlobalTypes options.
Proof. unfold getOptions. by rewrite foldl_app. Qed.

Lemma registered_snoc GlobalTypes et descriptor name :
  registered (GlobalTypes ++ [et]) descriptor name
  ↔ registered GlobalTypes descriptor name
    ∨ (et_FullName et = name ∧ et_ContainingMessage et = descriptor).
Proof.
  unfold registered. split.
  - intros (et' & Hin & Hn & Hd). apply elem_of_app in Hin as [Hin | Hin].
    + left. by exists et'.
    + apply list_elem_of_singleton in Hin as ->. by right.
  - intros [(et' & Hin & Hn & Hd) | [Hn Hd]].
    + exists et'. split; [apply elem_of_app; by left | done].
    + exists et. split; [apply elem_of_app; right; by apply list_elem_of_singleton | done].
Qed.

Lemma option_value_default (m : option (gmap string OptValue)) k :
  default ∅ m !! k = option_value m k.
Proof. by destruct m. Qed.

Lemma getOptions_value GlobalTypes options k v :
  option_value (getOptions GlobalTypes options) k = Some v
  ↔ om_Extensions options !! k = Some v
    ∧ registered GlobalTypes (om_Descriptor options) k.
Proof.
  induction GlobalTypes as [|et l IH] using rev_ind.
  - split; [done|]. intros (_ & et & Hin & _). by apply elem_of_nil in Hin.
  - rewrite getOptions_snoc, registered_snoc. case_bool_decide as Hd.
    + destruct (om_Extensions options !! et_FullName et) as [ext|] eqn:Hext.
      * unfold option_value at 1. cbn [mbind option_bind].
        destruct (decide (et_FullName et = k)) as [<-|Hk].
        -- rewrite lookup_insert_eq, Hext.
           split; [intros Hv; split; [done | by right] | by intros [Hv _]].
        -- rewrite lookup_insert_ne, option_value_default, IH by done.
           split; [intros [Hv Hr]; split; [done | by left] | ].
           intros [Hv [Hr | [Hn _]]]; done.
      * rewrite IH. split; [intros [Hv Hr]; split; [done | by left] |].
        intros [Hv [Hr | [<- _]]]; [done | congruence].
    + rewrite IH. split; [intros [Hv Hr]; split; [done | by left] |].
      intros [Hv [Hr | [_ Hd']]]; done.
Qed.

Lemma getOptions_nonempty GlobalTypes options :
  getOptions GlobalTypes options ≠ Some ∅.
Proof.
  induction GlobalTypes as [|et l IH] using rev_ind; [done|].
  rewrite getOptions_snoc. case_bool_decide; [|done].
  destruct (om_Extensions options !! et_FullName et); [|done].
  intros [=Hm]. by apply insert_non_empty in Hm.
Qed.

(** X5: [getOptions] returns exactly the extensions that are set on the
    options message and registered for its message type, each under the
    full name of its extension type with the value that is set, whatever
    the order of the registry; a message type of another name contributes
    nothing, and the result is nil rather than an empty map when there is
    no such extension. *)
Theorem getOptions_registered_and_set GlobalTypes options :
  (∀ k v, option_value (getOptions GlobalTypes options) k = Some v
          ↔ om_Extensions options !! k = Some v
            ∧ registered GlobalTypes (om_Descriptor options) k)
  ∧ getOptions GlobalTypes options ≠ Some ∅
  ∧ (getOptions GlobalTypes options = None
     ↔ ∀ k, registered GlobalTypes (om_Descriptor options) k →
            om_Extensions options !! k = None).
Proof.
  split_and!.
  - apply getOptions_value.
  - apply getOptions_nonempty.
  - split.
    + intros Hnone k Hr. destruct (om_Extensions options !! k) as [v|] eqn:Hv; [|done].
      assert (option_value (getOptions GlobalTypes options) k = Some v) as Hk
        by (by apply getOptions_value).
      by rewrite Hnone in Hk.
    + intros Hall. destruct (getOptions GlobalTypes options) as [m|] eqn:Hm; [|done].
      destruct (decide (m = ∅)) as [->|Hne];
        [by apply getOptions_nonempty in Hm|].
      apply map_choose in Hne as (k & v & Hk).
      assert (option_value (getOptions GlobalTypes options) k = Some v) as Hv
        by (by rewrite Hm).
      apply getOptions_value in Hv as [Hv Hr]. by rewrite Hall in Hv.
Qed.

Lemma merge_options_Some GlobalTypes cur options opts :
  getOptions GlobalTypes options = Some opts →
  merge_options GlobalTypes cur options
  = Some (match cur with None => opts | Some old => opts ∪ old end).
Proof.
  intros Hopts. unfold merge_options. rewrite Hopts.
  rewrite bool_decide_eq_true_2; [by destruct cur|].
  destruct (decide (opts = ∅)) as [->|Hne];
    [by apply getOptions_nonempty in Hopts|].
  assert (size opts ≠ 0) by (by intros ?%map_size_empty_inv). lia.
Qed.

Lemma merge_options_None GlobalTypes cur options :
  getOptions GlobalTypes options = None →
  merge_options GlobalTypes cur options = cur.
Proof. intros Hopts. unfold merge_options. by rewrite Hopts. Qed.

Lemma merge_options_nil GlobalTypes options :
  merge_options GlobalTypes None options = getOptions GlobalTypes options.
Proof.
  destruct (getOptions GlobalTypes options) as [opts|] eqn:Hopts.
  - by rewrite (merge_options_Some _ _ _ opts).
  - by rewrite merge_options_None.
Qed.

(** X6: [setOptions] merges.  A key that [getOptions] finds takes the new
    value, every other key keeps the value it had; an options message with
    nothing to find leaves the entity as it is (a nil map stays nil);
    the names, the path and the file are never touched; and setting the
    same options twice is setting them once. *)
Theorem setOptions_merges GlobalTypes (c : common) options :
  (∀ k, option_value (OptionExtensions (setOptions GlobalTypes c options)) k
        = match option_value (getOptions GlobalTypes options) k with
          | Some v => Some v
          | None => option_value (OptionExtensions c) k
          end)
  ∧ (getOptions GlobalTypes options = None → setOptions GlobalTypes c options = c)
  ∧ (LongName (setOptions GlobalTypes c options) = LongName c
     ∧ FullName (setOptions GlobalTypes c options) = FullName c
     ∧ c_path (setOptions GlobalTypes c options) = c_path c
     ∧ c_file (setOptions GlobalTypes c options) = c_file c)
  ∧ setOptions GlobalTypes (setOptions GlobalTypes c options) options
    = setOptions GlobalTypes c options.
Proof.
  split_and!; try done.
  - intros k. cbn [OptionExtensions setOptions].
    destruct (getOptions GlobalTypes options) as [opts|] eqn:Hopts.
    + rewrite (merge_options_Some _ _ _ opts) by done.
      unfold option_value. cbn [mbind option_bind].
      destruct (OptionExtensions c) as [old|]; cbn [mbind option_bind].
      * rewrite lookup_union. by destruct (opts !! k), (old !! k).
      * by destruct (opts !! k).
    + by rewrite merge_options_None.
  - intros Hopts. destruct c. unfold setOptions. cbn. by rewrite merge_options_None.
  - unfold setOptions. cbn. f_equal.
    destruct (getOptions GlobalTypes options) as [opts|] eqn:Hopts.
    + rewrite !(merge_options_Some _ _ _ opts) by done. f_equal.
      destruct (OptionExtensions c) as [old|].
      * by rewrite (assoc_L (∪)), (idemp_L (∪)).
      * by rewrite (idemp_L (∪)).
    + by rewrite !merge_options_None.
Qed.

Lemma with_options_newCommon rev GlobalTypes p path longName o :
  OptionExtensions (with_options GlobalTypes (newCommon rev p path longName) o)
  = o ≫= getOptions GlobalTypes.
Proof. destruct o as [options|]; [|done]. cbn. apply merge_options_nil. Qed.

Lemma parseFile_OptionExtensions rev GlobalTypes ParseComments allFilesMap self fd F :
  parseFile rev GlobalTypes ParseComments allFilesMap self fd = Returned F →
  f_OptionExtensions F = fp_Options fd ≫= getOptions GlobalTypes.
Proof.
  unfold parseFile. intros HF.
  destruct rev; [destruct (for_each _ _ _) as [pdeps'| | |]|];
    unfold mret, outcome_mret in HF; simplify_eq/=.
  all: destruct (fp_Options fd); [apply merge_options_nil | done].
Qed.

Section option_facts.
Variable rev : revision.
Variable GlobalTypes : list ExtensionType.
Variable ParseComments : FileDescriptorProto → gmap string Comment.
Context (allFilesMap : gmap string loc) (self : loc) (fd : FileDescriptorProto).
Context (F : PKFileDescriptor).
Hypothesis HF : parseFile rev GlobalTypes ParseComments allFilesMap self fd = Returned F.

(** X7: the option extensions of the file and of every entity in it are
    what [getOptions] finds on the options of its own descriptor, and nil
    when the descriptor has no options. *)
Theorem options_of_own_descriptor :
  f_OptionExtensions F = fp_Options fd ≫= getOptions GlobalTypes
  ∧ (∀ m, m ∈ all_messages F →
       OptionExtensions (m_common m) = dp_Options (m_desc m) ≫= getOptions GlobalTypes)
  ∧ (∀ e, e ∈ all_enums F →
       OptionExtensions (e_common e) = edp_Options (e_desc e) ≫= getOptions GlobalTypes)
  ∧ (∀ v, v ∈ all_values F →
       OptionExtensions (v_common v) = evp_Options (v_desc v) ≫= getOptions GlobalTypes)
  ∧ (∀ x, x ∈ all_extensions F →
       OptionExtensions (x_common x) = fdp_Options (x_desc x) ≫= getOptions GlobalTypes)
  ∧ (∀ fl, fl ∈ all_fields F →
       OptionExtensions (fl_common fl) = fdp_Options (fl_desc fl) ≫= getOptions GlobalTypes)
  ∧ (∀ s, s ∈ f_Services F →
       OptionExtensions (s_common s) = sdp_Options (s_desc s) ≫= getOptions GlobalTypes)
  ∧ (∀ md, md ∈ all_methods F →
       OptionExtensions (md_common md) = mdp_Options (md_desc md) ≫= getOptions GlobalTypes).
Proof.
  split_and!.
  - by eapply parseFile_OptionExtensions.
  - intros m Hm.
    destruct (in_all_messages_plain _ _ _ _ _ _ _ HF m Hm) as (p & parent & i & md & _ & ->).
    rewrite parseMessage_unfold. cbn [m_common m_desc]. unfold message_common.
    apply with_options_newCommon.
  - intros e He.
    destruct (in_all_enums _ _ _ _ _ _ _ HF e He) as (p & parent & protos & i & _ & Hi).
    rewrite parseEnums_lookup in Hi. destruct (protos !! i) as [ed|]; [|done].
    injection Hi as <-. cbn [e_common e_desc]. apply with_options_newCommon.
  - intros v Hv.
    destruct (in_all_values _ _ _ _ _ _ _ HF v Hv) as (p & enum & protos & i & _ & Hi).
    rewrite parseEnumValues_lookup in Hi. destruct (protos !! i) as [vd|]; [|done].
    injection Hi as <-. cbn [v_common v_desc]. apply with_options_newCommon.
  - intros x Hx.
    destruct (in_all_extensions _ _ _ _ _ _ _ HF x Hx) as (p & parent & protos & i & _ & Hi).
    rewrite parseExtensions_lookup in Hi. destruct (protos !! i) as [xd|]; [|done].
    injection Hi as <-. cbn [x_common x_desc]. apply with_options_newCommon.
  - intros fl Hfl.
    destruct (in_all_fields _ _ _ _ _ _ _ HF fl Hfl) as (p & message & protos & i & _ & Hi).
    rewrite parseMessageFields_lookup in Hi. destruct (protos !! i) as [fld|]; [|done].
    injection Hi as <-. cbn [fl_common fl_desc]. apply with_options_newCommon.
  - intros s Hs.
    destruct (in_f_Services _ _ _ _ _ _ _ HF s Hs) as (p & i & _ & _ & Hi).
    rewrite parseServices_lookup in Hi. destruct (fp_Service fd !! i) as [sd|]; [|done].
    injection Hi as <-. cbn [s_common s_desc]. apply with_options_newCommon.
  - intros md Hmd.
    destruct (in_all_methods _ _ _ _ _ _ _ HF md Hmd) as (p & svc & protos & i & _ & _ & Hi).
    rewrite parseServiceMethods_lookup in Hi. destruct (protos !! i) as [mdp|]; [|done].
    injection Hi as <-. cbn [md_common md_desc]. apply with_options_newCommon.
Qed.
End option_facts.

(** ** Extension names at the edges *)

Lemma dot_free_inv (c : ascii) (s : string) :
  dot_free (String c s) → c ≠ "."%char ∧ dot_free s.
Proof.
  intros Hfree. split.
  - intros ->. apply Hfree. by exists "", s.
  - intros (pre & post & ->). apply Hfree. by exists (String c pre), post.
Qed.

Lemma Split_dot_dot_free_id (s : string) : dot_free s → Split_dot s = [s].
Proof.
  induction s as [|c s IH]; [done|]. intros [Hc Hs]%dot_free_inv.
  rewrite Split_dot_cons, (IH Hs). apply Ascii.eqb_neq in Hc. by rewrite Hc.
Qed.

Lemma Split_dot_last (pre seg : string) :
  dot_free seg → ∃ init, Split_dot (pre +:+ "." +:+ seg) = init ++ [seg] ∧ init ≠ [].
Proof.
  intros Hseg. induction pre as [|c pre (init & IH & Hne)].
  - exists [""]. split; [|done]. rewrite string_app_nil_l.
    change ("." +:+ seg) with (String "." seg).
    by rewrite Split_dot_cons, Split_dot_dot_free_id.
  - rewrite string_app_cons, Split_dot_cons, IH. destruct (Ascii.eqb c ".").
    + by exists ("" :: init).
    + destruct init as [|piece init]; [done|]. by exists (String c piece :: init).
Qed.

Lemma last_part_Split_dot_qualified (pre seg : string) :
  dot_free seg → last_part (Split_dot (pre +:+ "." +:+ seg)) = seg.
Proof.
  intros Hseg. destruct (Split_dot_last pre seg Hseg) as (init & -> & _).
  unfold last_part. by rewrite List.last_last.
Qed.

Lemma Contains_empty (s : string) : Contains s "" = true.
Proof. apply Contains_spec. by exists "", s. Qed.

(** X8: the names of an extension at the edges of [parseExtensions].
    When the extendee is qualified, [pre + '.' + seg] with a last segment
    [seg] that has no dot, and the package of the file occurs in
    [extendee + '.' + name], the long name is [seg + '.' + name], whatever
    the qualifier was, and the full name is formed from it like that of a
    top-level entity.  In a file without a package this is always the case.
    When the package does not occur and the extendee begins with a dot, the
    long name and the full name are both [extendee + '.' + name]: the
    package of the defining file is not part of the full name.  An extendee
    without a dot keeps the long name [extendee + '.' + name]. *)
Theorem extension_names_at_the_edges rev GlobalTypes ParseComments allFilesMap self fd F x :
  parseFile rev GlobalTypes ParseComments allFilesMap self fd = Returned F →
  x ∈ all_extensions F →
  let extendee := fdp_Extendee (x_desc x) in
  let name := fdp_Name (x_desc x) in
  let naive := extendee +:+ "." +:+ name in
  (∀ pre seg, extendee = pre +:+ "." +:+ seg → dot_free seg →
     is_substring (fp_Package fd) naive →
     LongName (x_common x) = seg +:+ "." +:+ name
     ∧ (seg ≠ "" →
        FullName (x_common x)
        = package_prefix rev (fp_Package fd) +:+ "." +:+ seg +:+ "." +:+ name))
  ∧ (fp_Package fd = "" → is_substring (fp_Package fd) naive)
  ∧ (¬ is_substring (fp_Package fd) naive → HasPrefix extendee "." = true →
       LongName (x_common x) = naive ∧ FullName (x_common x) = naive)
  ∧ (dot_free extendee → LongName (x_common x) = naive).
Proof.
  intros HF Hx.
  destruct (in_all_extensions _ _ _ _ _ _ _ HF x Hx)
    as (p & parent & protos & i & (_ & Hdesc & _) & Hi).
  rewrite parseExtensions_lookup in Hi.
  destruct (protos !! i) as [ext|]; [|done].
  injection Hi as <-. cbn [x_common x_desc].
  rewrite with_options_LongName, with_options_FullName, newCommon_LongName.
  assert (PKFileDescriptor_GetPackage (ptr_deref p) = fp_Package fd) as Hpkg
    by (unfold PKFileDescriptor_GetPackage; by rewrite Hdesc).
  unfold extension_longName, Sprintf_s_s. rewrite Hpkg.
  split_and!.
  - intros pre seg He Hseg Hsub. apply Contains_spec in Hsub. rewrite Hsub.
    rewrite He, last_part_Split_dot_qualified by done. split; [done|].
    intros Hne. rewrite newCommon_plain, Hpkg; [done|].
    rewrite HasPrefix_app_nonempty by done. by apply dot_free_no_prefix.
  - intros ->. by eexists "", _.
  - intros Hsub Hdot. rewrite <- Contains_spec in Hsub.
    apply not_true_is_false in Hsub. rewrite Hsub. split; [done|].
    apply newCommon_qualified. by apply HasPrefix_app_l.
  - intros Hfree. rewrite (Split_dot_dot_free_id _ Hfree).
    by destruct (Contains _ _).
Qed.

(** ** When the driver returns *)

(** A public-dependency index that [fd.GetDependency()] has. *)
Definition public_index_ok (fd : FileDescriptorProto) (k : Z) : Prop :=
  (0 ≤ k < Z.of_nat (length (fp_Dependency fd)))%Z.

(** Only the current revision reads the public dependencies. *)
Definition indices_ok (rev : revision) (pfs : list FileDescriptorProto) : Prop :=
  match rev with
  | current => Forall (λ pf, Forall (public_index_ok pf) (fp_PublicDependency pf)) pfs
  | legacy => True
  end.

(** Every file that the map of files holds (for a name that occurs more
    than once, the last descriptor of that name) depends on names of the
    batch only. *)
Definition dependencies_known (pfs : list FileDescriptorProto) : Prop :=
  map_Forall (λ _ l, Forall (λ dep, dep ∈ fp_Name <$> pfs)
                       (from_option fp_Dependency [] (pfs !! l)))
    (names_map pfs).

Definition targets_known (req : CodeGeneratorRequest) : Prop :=
  Forall (λ f, f ∈ fp_Name <$> ProtoFile req) (FileToGenerate req).

#[local] Instance public_index_ok_dec fd k : Decision (public_index_ok fd k).
Proof. unfold public_index_ok. apply _. Defined.

#[local] Instance indices_ok_dec rev pfs : Decision (indices_ok rev pfs).
Proof. destruct rev; apply _. Defined.

#[local] Instance dependencies_known_dec pfs : Decision (dependencies_known pfs).
Proof. unfold dependencies_known. apply _. Defined.

#[local] Instance targets_known_dec req : Decision (targets_known req).
Proof. unfold targets_known. apply _. Defined.

Lemma dependency_at_outcome fd k :
  dependency_at fd k
  = if decide (public_index_ok fd k)
    then Returned (default "" (fp_Dependency fd !! Z.to_nat k))
    else Panicked IndexOutOfRange.
Proof.
  unfold dependency_at, public_index_ok.
  destruct (decide _) as [Hk|Hk];
    [by rewrite bool_decide_eq_true_2 | by rewrite bool_decide_eq_false_2].
Qed.

Lemma public_loop_outcome fd (allFilesMap : gmap string loc) ks :
  ∀ acc,
    (Forall (public_index_ok fd) ks →
       ∃ res, for_each (λ (acc : list (option loc)) (dep : Z),
                          name ← dependency_at fd dep;
                          mret (acc ++ [allFilesMap !! name])) acc ks = Returned res)
    ∧ (¬ Forall (public_index_ok fd) ks →
         for_each (λ (acc : list (option loc)) (dep : Z),
                     name ← dependency_at fd dep;
                     mret (acc ++ [allFilesMap !! name])) acc ks
         = Panicked IndexOutOfRange).
Proof.
  induction ks as [|k ks IH]; intros acc; cbn [for_each].
  - split; [by eexists | by intros []].
  - rewrite dependency_at_outcome.
    destruct (decide (public_index_ok fd k)) as [Hk|Hk]; unfold_outcome.
    + split.
      * intros [_ Hks]%Forall_cons. by apply IH.
      * intros Hn. apply IH. intros Hks. apply Hn. by constructor.
    + split; [|done]. by intros [? _]%Forall_cons.
Qed.

Lemma parseFile_outcome rev GlobalTypes ParseComments allFilesMap self fd :
  (indices_ok rev [fd] →
     ∃ F, parseFile rev GlobalTypes ParseComments allFilesMap self fd = Returned F)
  ∧ (¬ indices_ok rev [fd] →
       parseFile rev GlobalTypes ParseComments allFilesMap self fd
       = Panicked IndexOutOfRange).
Proof.
  unfold parseFile. destruct rev; cbn [indices_ok].
  - destruct (public_loop_outcome fd allFilesMap (fp_PublicDependency fd) [])
      as [Hok Hbad].
    split.
    + intros [Hfd _]%Forall_cons. destruct (Hok Hfd) as [res ->]. by eexists.
    + intros Hn. rewrite Hbad; [done|]. intros Hfd. apply Hn. by repeat constructor.
  - split; [by eexists | by intros []].
Qed.

Lemma indices_ok_snoc rev pfs pf :
  indices_ok rev (pfs ++ [pf]) ↔ indices_ok rev pfs ∧ indices_ok rev [pf].
Proof.
  destruct rev; cbn [indices_ok]; [|done].
  rewrite Forall_app. done.
Qed.

Lemma build_files_outcome rev GlobalTypes ParseComments pfs :
  (indices_ok rev pfs →
     ∃ h, build_files rev GlobalTypes ParseComments pfs = Returned (h, names_map pfs))
  ∧ (¬ indices_ok rev pfs →
       build_files rev GlobalTypes ParseComments pfs = Panicked IndexOutOfRange).
Proof.
  induction pfs as [|pf pfs [IHok IHbad]] using rev_ind.
  - split; [by eexists |]. intros Hn. exfalso. apply Hn.
    destruct rev; cbn [indices_ok]; [constructor | done].
  - rewrite build_files_snoc, indices_ok_snoc.
    destruct (decide (indices_ok rev pfs)) as [Hpfs|Hpfs].
    + destruct (IHok Hpfs) as [h Hh]. rewrite Hh. unfold_outcome.
      destruct (parseFile_outcome rev GlobalTypes ParseComments (names_map pfs) (length h) pf)
        as [Hok Hbad].
      destruct (build_files_Returned _ _ _ _ _ _ Hh) as (_ & Hlen & _).
      split.
      * intros [_ Hpf]. destruct (Hok Hpf) as [F ->]. exists (h ++ [F]).
        by rewrite names_map_snoc, Hlen.
      * intros Hn. rewrite Hbad; [done|]. intros Hpf. by apply Hn.
    + rewrite (IHbad Hpfs). split; [by intros [? _] | done].
Qed.

Lemma dependency_files_is_Some (h : heap) (m : gmap string loc) deps :
  is_Some (dependency_files h m deps)
  ↔ Forall (λ dep, ∃ l, m !! dep = Some l ∧ is_Some (h !! l)) deps.
Proof.
  induction deps as [|dep deps IH]; cbn [dependency_files].
  - split; [constructor | by eexists].
  - rewrite Forall_cons, <- IH. destruct (m !! dep) as [l|] eqn:Hm; cbn.
    + destruct (h !! l) as [D|] eqn:HD; cbn.
      * rewrite fmap_is_Some. split; [|by intros [_ ?]].
        intros HS. split; [|done]. exists l. split; [done | by eexists].
      * split; [by intros [? ?]|]. intros [(l' & [= <-] & [? HS]) _]. congruence.
    + split; [by intros [? ?] | intros [(l' & ? & _) _]; done].
Qed.

Section driver_outcome.
Variable rev : revision.
Variable GlobalTypes : list ExtensionType.
Variable ParseComments : FileDescriptorProto → gmap string Comment.
Variable preflight : CodeGeneratorRequest → outcome ().
Variable range : gmap string loc → list (string * loc).
Hypothesis range_walks : ∀ m, range m ≡ₚ map_to_list m.

Local Abbreviation run :=
  (ParseCodeGenRequestAllFiles rev GlobalTypes ParseComments preflight range).

(** Whether the second loop can link every file of the map. *)
Lemma linkable_iff pfs h0 :
  build_files rev GlobalTypes ParseComments pfs = Returned (h0, names_map pfs) →
  Forall (λ e : string * loc, is_Some (link_file h0 (names_map pfs) e.2))
    (range (names_map pfs))
  ↔ dependencies_known pfs.
Proof.
  intros Hbuild.
  destruct (build_files_Returned _ _ _ _ _ _ Hbuild) as (_ & Hlen & Hfiles).
  assert (∀ l, l < length pfs →
            is_Some (link_file h0 (names_map pfs) l)
            ↔ Forall (λ dep, dep ∈ fp_Name <$> pfs)
                (from_option fp_Dependency [] (pfs !! l))) as Hlink.
  { intros l Hl. destruct (lookup_lt_is_Some_2 pfs l Hl) as [pf Hpf].
    destruct (Hfiles l pf Hpf) as (F & HF & Hparse).
    destruct (parseFile_Returned _ _ _ _ _ _ _ Hparse) as (Hdesc & _).
    unfold link_file. rewrite HF, Hpf. cbn. rewrite Hdesc.
    destruct (dependency_files h0 (names_map pfs) (fp_Dependency pf)) as [Ds|] eqn:HDs; cbn.
    - split; [intros _ | by eexists].
      assert (is_Some (dependency_files h0 (names_map pfs) (fp_Dependency pf))) as HS
        by (by rewrite HDs).
      apply dependency_files_is_Some in HS. eapply Forall_impl; [exact HS|].
      intros dep (l' & Hl' & _). cbn.
      destruct (decide (dep ∈ fp_Name <$> pfs)) as [|Hn]; [done|].
      apply names_map_None in Hn. congruence.
    - split; [by intros [? ?]|]. intros Hall. exfalso.
      assert (is_Some (dependency_files h0 (names_map pfs) (fp_Dependency pf))) as [? HS];
        [|congruence].
      apply dependency_files_is_Some. eapply Forall_impl; [exact Hall|].
      intros dep Hdep. cbn in Hdep.
      destruct (names_map pfs !! dep) as [l'|] eqn:Hl';
        [|by apply names_map_None in Hl'].
      exists l'. split; [done|]. apply lookup_lt_is_Some_2. rewrite Hlen.
      apply names_map_Some in Hl' as [(pf' & Hpf' & _) _]. by eapply lookup_lt_Some. }
  unfold dependencies_known. rewrite map_Forall_lookup, Forall_forall. split.
  - intros Hall name l Hname. apply Hlink.
    + apply names_map_Some in Hname as [(pf & Hpf & _) _]. by eapply lookup_lt_Some.
    + apply (Hall (name, l)). rewrite range_walks. by apply elem_of_map_to_list.
  - intros Hall [name l] Hin. rewrite range_walks in Hin.
    apply elem_of_map_to_list in Hin. cbn. apply Hlink; [|by eapply Hall].
    apply names_map_Some in Hin as [(pf & Hpf & _) _]. by eapply lookup_lt_Some.
Qed.

(** X9: the outcome of the driver, once the library calls before the
    first loop have let it go on.  It panics on an index out of range when
    (in the current revision) some public-dependency index of some file is
    not an index of that file's dependency list; otherwise it panics on a
    nil file pointer when a file of the map depends on a name that is not
    in the batch or a generation target is not a name of the batch; in
    every other case it returns.  The driver returns an error or ends the
    process only when the library calls do. *)
Theorem driver_outcome req :
  let pfs := ProtoFile req in
  (preflight req = Returned () →
     (¬ indices_ok rev pfs → run req = Panicked IndexOutOfRange)
     ∧ (indices_ok rev pfs → ¬ (dependencies_known pfs ∧ targets_known req) →
          run req = Panicked NilPointerDereference)
     ∧ (indices_ok rev pfs → dependencies_known pfs → targets_known req →
          ∃ h files, run req = Returned (h, files)))
  ∧ (preflight req = ReturnedError → run req = ReturnedError)
  ∧ (preflight req = Fatal → run req = Fatal)
  ∧ (∀ p, preflight req = Panicked p → run req = Panicked p).
Proof.
  intros pfs. unfold ParseCodeGenRequestAllFiles. fold pfs.
  split_and!; [| by intros -> | by intros -> | by intros p ->].
  intros ->. unfold_outcome.
  destruct (build_files_outcome rev GlobalTypes ParseComments pfs) as [Hok Hbad].
  split_and!.
  - intros Hn. by rewrite (Hbad Hn).
  - intros Hi Hn. destruct (Hok Hi) as [h0 Hbuild]. rewrite Hbuild.
    destruct (build_files_Returned _ _ _ _ _ _ Hbuild) as (_ & Hlen & _).
    assert (Forall2 same_but_imports h0 h0) as Hrefl.
    { apply Forall2_same_length_lookup_2; [done|].
      intros i F F' HF HF'. simplify_eq. apply same_but_imports_refl. }
    rewrite link_imports_unfold.
    destruct (decide (dependencies_known pfs)) as [Hdeps|Hdeps].
    + apply (linkable_iff _ _ Hbuild) in Hdeps.
      destruct (link_loop_Returned h0 _ _ h0 [] Hrefl Hdeps) as (h1 & -> & Hh1 & _).
      cbn [app]. rewrite (mark_loop_Panicked _ _ h1); [by destruct rev | |].
      * intros name l Hl. rewrite <- (Forall2_length _ _ _ Hh1), Hlen.
        apply names_map_Some in Hl as [(pf & Hpf & _) _]. by eapply lookup_lt_Some.
      * assert (¬ targets_known req) as Ht.
        { intros Ht. apply Hn. split; [|done]. by apply (linkable_iff _ _ Hbuild). }
        apply not_Forall_Exists in Ht; try (by apply _).
        eapply Exists_impl; [exact Ht|]. intros f Hf. cbn in Hf.
        by apply names_map_None.
    + rewrite <- (linkable_iff _ _ Hbuild) in Hdeps.
      apply not_Forall_Exists in Hdeps; try (by apply _).
      rewrite (link_loop_Panicked h0 _ _ h0 []); [done | done |].
      eapply Exists_impl; [exact Hdeps|]. intros e He. cbn in He.
      by apply eq_None_not_Some.
  - intros Hi Hdeps Ht. destruct (Hok Hi) as [h0 Hbuild]. rewrite Hbuild.
    destruct (build_files_Returned _ _ _ _ _ _ Hbuild) as (_ & Hlen & _).
    assert (Forall2 same_but_imports h0 h0) as Hrefl.
    { apply Forall2_same_length_lookup_2; [done|].
      intros i F F' HF HF'. simplify_eq. apply same_but_imports_refl. }
    rewrite link_imports_unfold.
    apply (linkable_iff _ _ Hbuild) in Hdeps.
    destruct (link_loop_Returned h0 _ _ h0 [] Hrefl Hdeps) as (h1 & -> & Hh1 & _).
    cbn [app].
    destruct (mark_loop_Returned (names_map pfs) (FileToGenerate req) h1) as (h2 & -> & _).
    + intros name l Hl. rewrite <- (Forall2_length _ _ _ Hh1), Hlen.
      apply names_map_Some in Hl as [(pf & Hpf & _) _]. by eapply lookup_lt_Some.
    + eapply Forall_impl; [exact Ht|]. intros f Hf. cbn in Hf.
      destruct (names_map pfs !! f) eqn:Hm; [done|]. by apply names_map_None in Hm.
    + destruct rev; by eexists _, _.
Qed.
End driver_outcome.

(** ** What the driver returns *)

Section returned_batch.
Variable rev : revision.
Variable GlobalTypes : list ExtensionType.
Variable ParseComments : FileDescriptorProto → gmap string Comment.
Variable preflight : CodeGeneratorRequest → outcome ().
Variable range : gmap string loc → list (string * loc).
Hypothesis range_walks : ∀ m, range m ≡ₚ map_to_list m.
Context (req : CodeGeneratorRequest) (h : heap) (files : list loc).
Hypothesis Hrun :
  ParseCodeGenRequestAllFiles rev GlobalTypes ParseComments preflight range req
  = Returned (h, files).

(** X10: one file for every name.  The driver builds a file object for
    every descriptor of the request, in the order of the request, and
    returns one pointer for every file name that occurs in it, each once:
    of several descriptors of the same name, the file of the last one.  A
    file object that a later descriptor of the same name has replaced in
    the map is not returned, has an empty import list and is not marked
    for generation. *)
Theorem one_file_per_name :
  let pfs := ProtoFile req in
  length h = length pfs
  ∧ (∀ l F, h !! l = Some F → pfs !! l = Some (f_desc F))
  ∧ NoDup files
  ∧ (∀ l, l ∈ files ↔
          ∃ pf, pfs !! l = Some pf
                ∧ ∀ j pf', l < j → pfs !! j = Some pf' → fp_Name pf' ≠ fp_Name pf)
  ∧ NoDup (name_at h <$> files)
  ∧ (∀ name, name ∈ name_at h <$> files ↔ name ∈ fp_Name <$> pfs)
  ∧ (∀ l F, h !! l = Some F → l ∉ files →
       f_Imports F = [] ∧ f_IsFileToGenerate F = false).
Proof.
  intros pfs.
  destruct (run_Returned _ _ _ _ _ _ _ _ Hrun)
    as (h0 & h1 & _ & Hbuild & Hh1 & _ & Hrest & _ & Hh & Hfiles).
  destruct (run_heap _ _ _ _ _ _ _ _ Hrun) as (h0' & Hbuild' & Htree).
  fold pfs in Hbuild, Hbuild', Hrest, Hh, Hfiles.
  rewrite Hbuild in Hbuild'. injection Hbuild' as <-.
  destruct (build_files_Returned _ _ _ _ _ _ Hbuild) as (_ & Hlen & Hbuilt).
  pose proof (run_files _ _ _ _ _ range_walks _ _ _ Hrun) as Hin. fold pfs in Hin.
  assert (∀ l F, h !! l = Some F →
            ∃ pf F0, pfs !! l = Some pf ∧ h0 !! l = Some F0 ∧ same_tree F0 F
                     ∧ parseFile rev GlobalTypes ParseComments (names_map (take l pfs)) l pf
                       = Returned F0) as Hat.
  { intros l F HF.
    destruct (Forall2_lookup_r _ _ _ _ _ Htree HF) as (F0 & HF0 & Ht).
    destruct (lookup_lt_is_Some_2 pfs l) as [pf Hpf];
      [rewrite <- Hlen; by eapply lookup_lt_Some|].
    destruct (Hbuilt l pf Hpf) as (F0' & HF0' & Hparse).
    rewrite HF0 in HF0'. injection HF0' as <-. by exists pf, F0. }
  split_and!.
  - by rewrite <- (Forall2_length _ _ _ Htree).
  - intros l F HF. destruct (Hat l F HF) as (pf & F0 & Hpf & _ & Ht & Hparse).
    rewrite (same_tree_desc _ _ Ht).
    by destruct (parseFile_Returned _ _ _ _ _ _ _ Hparse) as (-> & _).
  - rewrite Hfiles. unfold returned_order.
    assert (NoDup (range (names_map pfs)).*2) as Hnd.
    { apply walked_NoDup; [done|]. intros n1 n2 l. apply names_map_inj. }
    destruct rev; [by rewrite sort_Slice_Permutation | done].
  - intros l. rewrite Hin. split.
    + intros [name [(pf & Hpf & <-) Hlast]%names_map_Some]. by exists pf.
    + intros (pf & Hpf & Hlast). exists (fp_Name pf). apply names_map_Some.
      split; [by exists pf | done].
  - apply NoDup_fmap_2_strong.
    + intros l1 l2 Hl1 Hl2 Hn.
      by apply (run_names_distinct _ _ _ _ _ _ _ _ _ _ range_walks Hrun).
    + rewrite Hfiles. unfold returned_order.
      assert (NoDup (range (names_map pfs)).*2) as Hnd.
      { apply walked_NoDup; [done|]. intros n1 n2 l. apply names_map_inj. }
      destruct rev; [by rewrite sort_Slice_Permutation | done].
  - intros name. rewrite list_elem_of_fmap. split.
    + intros (l & -> & Hl).
      destruct (run_file _ _ _ _ _ range_walks _ _ _ _ Hrun Hl)
        as (pf & F0 & F & Hpf & _ & Hparse & HF & Ht & _).
      unfold name_at. rewrite HF. cbn. unfold PKFileDescriptor_GetName.
      rewrite (same_tree_desc _ _ Ht).
      destruct (parseFile_Returned _ _ _ _ _ _ _ Hparse) as (-> & _).
      apply list_elem_of_fmap. exists pf. split; [done|]. by eapply list_elem_of_lookup_2.
    + intros Hname. destruct (names_map pfs !! name) as [l|] eqn:Hl;
        [|by apply names_map_None in Hl].
      destruct (run_named_file _ _ _ _ _ range_walks _ _ _ _ _ Hrun Hl)
        as (Hlf & F & HF & HFn).
      exists l. split; [|done]. unfold name_at. by rewrite HF.
  - intros l F HF Hl.
    assert (l ∉ (range (names_map pfs)).*2) as Hl'.
    { intros Hr. apply Hl. apply Hin. by apply (elem_of_range_values _ range_walks). }
    destruct (Hat l F HF) as (pf & F0 & _ & HF0 & _ & Hparse).
    assert (is_target (names_map pfs) (FileToGenerate req) l = false) as Ht.
    { apply not_true_is_false. intros (f & _ & Hf)%is_target_true.
      apply Hl. apply Hin. by exists f. }
    rewrite Hh, (Hrest l Hl'), HF0, Ht in HF. injection HF as <-.
    by eapply parseFile_fresh.
Qed.
End returned_batch.

(** ** Lookups by bare name *)

Lemma find_None {A} (f : A → bool) (l : list A) :
  (∀ x, x ∈ l → f x = false) → List.find f l = None.
Proof.
  induction l as [|y l IH]; [done|]. intros Hall. cbn.
  rewrite (Hall y) by left. apply IH. intros x Hx. apply Hall. by right.
Qed.

Lemma qualified_not_plain (q n n' : string) : dot_free n → q +:+ "." +:+ n' ≠ n.
Proof. intros Hfree Heq. apply Hfree. by exists q, n'. Qed.

(** Among siblings that were built by an indexed loop with long names
    [q + '.' + name], the lookup by bare name finds the sibling of that
    name. *)
Lemma find_by_bare_name {A B} (body : nat → A → B) (name : A → string)
    (getName longName : B → string) (q : string) (xs : list A) (b : B) :
  (∀ i x, getName (body i x) = name x) →
  (∀ i x, longName (body i x) = q +:+ "." +:+ name x) →
  good_names (name <$> xs) = true →
  b ∈ range_loop body xs →
  List.find (λ b', bool_decide (getName b' = getName b)
                   || bool_decide (longName b' = getName b)) (range_loop body xs)
  = Some b.
Proof.
  intros Hname Hlong Hgood Hb. apply list_elem_of_lookup in Hb as [i Hi].
  apply find_first with i; [done | by rewrite bool_decide_eq_true_2 |].
  intros j y Hj Hy. rewrite range_loop_lookup in Hi, Hy.
  destruct (xs !! i) as [x|] eqn:Hx; [|done].
  destruct (xs !! j) as [x'|] eqn:Hx'; [|done].
  injection Hi as <-. injection Hy as <-. rewrite !Hname, Hlong.
  destruct (good_names_spec name xs j i x' x Hgood Hx' Hx) as [Hplain Hinj].
  apply name_test_false.
  - intros Heq. symmetry in Heq. apply Hinj in Heq. lia.
  - by apply qualified_not_plain.
Qed.

(** X11: inside a message or a service of a file whose sibling names have
    no dot and are pairwise different, the lookup by bare name returns the
    entity of that name, although its long name is longer; and in the
    legacy revision the file's [GetMessage] finds no top-level message by
    its full name. *)
Theorem lookup_by_bare_name rev GlobalTypes ParseComments allFilesMap self fd F :
  parseFile rev GlobalTypes ParseComments allFilesMap self fd = Returned F →
  wf_file fd = true →
  (∀ m, m ∈ all_messages F →
     (∀ n, n ∈ m_Messages m →
        PKDescriptor_GetMessage m (PKDescriptor_GetName n) = Some n)
     ∧ (∀ e, e ∈ m_Enums m → PKDescriptor_GetEnum m (PKEnumDescriptor_GetName e) = Some e)
     ∧ (∀ fl, fl ∈ m_Fields m → GetMessageField m (PKFieldDescriptor_GetName fl) = Some fl))
  ∧ (∀ s, s ∈ f_Services F → ∀ md, md ∈ s_Methods s →
       GetNamedMethod s (PKMethodDescriptor_GetName md) = Some md)
  ∧ (rev = legacy → ∀ m, m ∈ f_Messages F →
       PKFileDescriptor_GetMessage rev F (FullName (m_common m)) = None).
Proof.
  intros HF Hwf. unfold wf_file in Hwf. rewrite !andb_true_iff, !forallb_Forall in Hwf.
  destruct Hwf as (((((Hmsgs & Henums) & Hsvcs) & Hwfenums) & Hwfmsgs) & Hmethods).
  destruct (parseFile_Returned _ _ _ _ _ _ _ HF)
    as (_ & _ & _ & _ & (pm & _ & HMessages) & (ps & _ & _ & HServices)).
  split_and!.
  - intros m Hm.
    destruct (in_all_messages _ _ _ _ _ _ _ HF (λ d, wf_message d = true) m
                wf_message_hereditary Hwfmsgs Hm) as (p & parent & i & md & _ & Hmd & ->).
    rewrite wf_message_unfold, !andb_true_iff in Hmd.
    destruct Hmd as ((((Hn & He) & Hf) & _) & _).
    unfold PKDescriptor_GetMessage, PKDescriptor_GetEnum, GetMessageField.
    rewrite parseMessage_unfold. cbn [m_Messages m_Enums m_Fields].
    set (c := message_common rev GlobalTypes p parent i md).
    split_and!.
    + intros n Hin.
      apply (find_by_bare_name (parseMessage rev GlobalTypes p (Some c)) dp_Name
               PKDescriptor_GetName (λ b, LongName (m_common b)) (LongName c));
        [| | done | done]; intros k x.
      * apply parseMessage_names.
      * by destruct (parseMessage_names rev GlobalTypes p (Some c) k x) as [_ ->].
    + intros e Hin. unfold parseEnums in Hin |- *.
      apply (find_by_bare_name _ edp_Name
               PKEnumDescriptor_GetName (λ b, LongName (e_common b)) (LongName c));
        [| | done | done]; intros k x; [done|].
      cbn [e_common]. by rewrite with_options_LongName, newCommon_LongName.
    + intros fl Hin. unfold parseMessageFields in Hin |- *.
      apply (find_by_bare_name _ fdp_Name
               PKFieldDescriptor_GetName (λ b, LongName (fl_common b)) (LongName c));
        [| | done | done]; intros k x; [done|].
      cbn [fl_common]. by rewrite with_options_LongName, newCommon_LongName.
  - intros s Hs md Hmd. rewrite HServices in Hs.
    apply list_elem_of_lookup in Hs as [i Hi]. rewrite parseServices_lookup in Hi.
    destruct (fp_Service fd !! i) as [sd|] eqn:Hsd; [|done]. injection Hi as <-.
    unfold GetNamedMethod. cbn [s_Methods] in Hmd |- *.
    set (c := with_options GlobalTypes _ _) in Hmd |- *.
    unfold parseServiceMethods in Hmd |- *.
    apply (find_by_bare_name _ mdp_Name
             PKMethodDescriptor_GetName (λ b, LongName (md_common b)) (LongName c));
      [| | | done].
    + done.
    + intros k x. cbn [md_common]. by rewrite with_options_LongName, newCommon_LongName.
    + rewrite Forall_forall in Hmethods. apply Hmethods. by eapply list_elem_of_lookup_2.
  - intros -> m Hm. unfold PKFileDescriptor_GetMessage, GetMessage_in.
    rewrite HMessages in Hm |- *. apply find_None. intros y Hy.
    apply list_elem_of_lookup in Hm as [i Hi]. apply list_elem_of_lookup in Hy as [j Hj].
    rewrite parseMessages_lookup in Hi, Hj.
    destruct (fp_MessageType fd !! i) as [d|] eqn:Hd; [|done].
    destruct (fp_MessageType fd !! j) as [d'|] eqn:Hd'; [|done].
    injection Hi as <-. injection Hj as <-.
    destruct (parseMessage_names legacy GlobalTypes pm None j d') as [-> ->].
    destruct (good_names_spec dp_Name _ i i d d Hmsgs Hd Hd) as [Hplain _].
    destruct (good_names_spec dp_Name _ j j d' d' Hmsgs Hd' Hd') as [Hplain' _].
    rewrite parseMessage_unfold. unfold message_common. cbn [m_common nested_name].
    rewrite with_options_FullName, newCommon_legacy_FullName
      by (by apply dot_free_no_prefix).
    rewrite orb_false_r. apply name_test_false; intros Heq; symmetry in Heq;
      by apply qualified_not_plain in Heq.
Qed.

(** ** The file behind an entity *)

(** [(c *common) GetFile]: the pointer to the file object, an address of
    the store. *)
Definition GetFile (c : common) : loc := c_file c.

(** [(c *common) GetPackage], through the file pointer. *)
Definition common_GetPackage (h : heap) (c : common) : option string :=
  PKFileDescriptor_GetPackage <$> h !! GetFile c.

Lemma top_level_in_all_messages (D : PKFileDescriptor) d :
  d ∈ f_Messages D → d ∈ all_messages D.
Proof.
  intros Hd. unfold all_messages. apply list_elem_of_bind. exists d. split; [|done].
  rewrite msg_flatten_unfold. by left.
Qed.

Lemma imports_of_commons (D : PKFileDescriptor) i :
  i ∈ imports_of D → i_common i ∈ file_commons D.
Proof.
  unfold imports_of, file_commons. rewrite !elem_of_app, !list_elem_of_fmap.
  intros [(d & -> & Hd) | [(e & -> & He) | (x & -> & Hx)]].
  - left. exists d. split; [done|]. apply list_elem_of_filter in Hd as [_ Hd].
    by apply top_level_in_all_messages.
  - right. left. exists e. split; [done|]. unfold all_enums. apply elem_of_app. by left.
  - do 4 right. left. exists x. split; [done|]. unfold all_extensions.
    apply elem_of_app. by left.
Qed.

Section file_pointers.
Variable rev : revision.
Variable GlobalTypes : list ExtensionType.
Variable ParseComments : FileDescriptorProto → gmap string Comment.
Variable preflight : CodeGeneratorRequest → outcome ().
Variable range : gmap string loc → list (string * loc).
Hypothesis range_walks : ∀ m, range m ≡ₚ map_to_list m.
Context (req : CodeGeneratorRequest) (h : heap) (files : list loc).
Hypothesis Hrun :
  ParseCodeGenRequestAllFiles rev GlobalTypes ParseComments preflight range req
  = Returned (h, files).

(** Every file object of the final store is what [parseFile] built from
    the descriptor at its position, up to the import list and the flag. *)
Lemma run_store_file l F :
  h !! l = Some F →
  ∃ pf F0, ProtoFile req !! l = Some pf ∧ same_tree F0 F
           ∧ parseFile rev GlobalTypes ParseComments
               (names_map (take l (ProtoFile req))) l pf = Returned F0.
Proof.
  intros HF.
  destruct (run_heap _ _ _ _ _ _ _ _ Hrun) as (h0 & Hbuild & Htree).
  destruct (build_files_Returned _ _ _ _ _ _ Hbuild) as (_ & Hlen & Hbuilt).
  destruct (Forall2_lookup_r _ _ _ _ _ Htree HF) as (F0 & HF0 & Ht).
  destruct (lookup_lt_is_Some_2 (ProtoFile req) l) as [pf Hpf];
    [rewrite <- Hlen; by eapply lookup_lt_Some|].
  destruct (Hbuilt l pf Hpf) as (F0' & HF0' & Hparse).
  rewrite HF0 in HF0'. injection HF0' as <-. by exists pf, F0.
Qed.

Lemma run_file_commons l F c :
  h !! l = Some F → c ∈ file_commons F → GetFile c = l.
Proof.
  intros HF Hc. destruct (run_store_file l F HF) as (pf & F0 & _ & Ht & Hparse).
  assert (file_commons F = file_commons F0) as Heq
    by (unfold same_tree in Ht; by rewrite Ht).
  rewrite Heq in Hc.
  destruct (file_commons_newCommon _ _ _ _ _ _ _ Hparse c Hc)
    as (p & path & longName & o & (Hp & _) & ->).
  unfold GetFile. by rewrite with_options_file.
Qed.

(** X12: every entity knows its file.  For every file object [F] of the
    final store, at the address [l], the file pointer of every message,
    enum, enum value, field, extension, service and method of [F] is [l],
    so that [GetFile] leads back to [F] and [GetPackage] gives the package of
    [F]; and the file pointer of an entry of the import list of a returned
    file leads to the file that defines the entry, which is the file of
    one of the declared dependencies. *)
Theorem entities_know_their_file l F :
  h !! l = Some F →
  (∀ c, c ∈ file_commons F →
     h !! GetFile c = Some F
     ∧ common_GetPackage h c = Some (PKFileDescriptor_GetPackage F))
  ∧ (l ∈ files → ∀ i, i ∈ f_Imports F →
       ∃ D, h !! GetFile (i_common i) = Some D
            ∧ i_common i ∈ file_commons D
            ∧ PKFileDescriptor_GetName D ∈ fp_Dependency (f_desc F)
            ∧ common_GetPackage h (i_common i) = Some (PKFileDescriptor_GetPackage D)).
Proof.
  intros HF. split.
  - intros c Hc. unfold common_GetPackage. by rewrite (run_file_commons l F c HF Hc), HF.
  - intros Hl i Hi.
    destruct (run_file _ _ _ _ _ range_walks _ _ _ _ Hrun Hl)
      as (pf & F0 & F' & Hpf & _ & Hparse & HF' & Ht & _ & (Ds & HDs & Himports)).
    rewrite HF in HF'. injection HF' as <-.
    assert (f_desc F = pf) as Hdesc.
    { rewrite (same_tree_desc _ _ Ht).
      by destruct (parseFile_Returned _ _ _ _ _ _ _ Hparse) as (-> & _). }
    rewrite Himports in Hi. apply list_elem_of_bind in Hi as (D & Hi & HD).
    apply dependency_files_Forall2 in HDs.
    apply list_elem_of_lookup in HD as [k Hk].
    destruct (Forall2_lookup_r _ _ _ _ _ HDs Hk) as (dep & Hdep & lD & HlD & HhD).
    destruct (run_named_file _ _ _ _ _ range_walks _ _ _ _ _ Hrun HlD)
      as (_ & D' & HD' & Hname).
    rewrite HhD in HD'. injection HD' as <-.
    pose proof (imports_of_commons D i Hi) as Hc.
    exists D. unfold common_GetPackage.
    rewrite (run_file_commons lD D _ HhD Hc), HhD. split_and!; [done | done | | done].
    rewrite Hname, Hdesc. by eapply list_elem_of_lookup_2.
Qed.
End file_pointers.

(** * Contexts *)

(** What this package attaches to a context: the map of all files (a
    reference to a map object, or the nil map), or a pointer, which may be
    nil, to the file, the message, the enum or the service that is being
    built.  A file pointer is the address of the file object; a message,
    an enum and a service are named by their Common facet, like the
    back-references of the entities. *)
Inductive ctx_value :=
  | AllFilesVal (allFiles : option nat)
  | FileVal (fd : option loc)
  | DescriptorVal (d : option common)
  | EnumVal (d : option common)
  | ServiceVal (service : option common).

(** A context is the chain of the values attached so far, the last one
    first; the keys are the strings behind [contextKey]. *)
Abbreviation Context := (list (string * ctx_value)).

Definition allFilesContextKey : string := "all_files".
Definition fileContextKey : string := "file".
Definition descriptorContextKey : string := "descriptor".
Definition enumContextKey : string := "enum".
Definition serviceContextKey : string := "service".

(** [context.Background()], [context.WithValue] and [ctx.Value]. *)
Definition Background : Context := [].

Definition WithValue (parent : Context) (key : string) (val : ctx_value) : Context :=
  (key, val) :: parent.

Fixpoint Value (ctx : Context) (key : string) : option ctx_value :=
  match ctx with
  | [] => None
  | (k, val) :: parent => if String.eqb k key then Some val else Value parent key
  end.

Definition ContextWithAllFiles (ctx : Context) (allFiles : option nat) : Context :=
  WithValue ctx allFilesContextKey (AllFilesVal allFiles).

(** The type assertion fails on nil and on a value of another type. *)
Definition AllFilesFromContext (ctx : Context) : option nat * bool :=
  match Value ctx allFilesContextKey with
  | Some (AllFilesVal val) => (val, true)
  | _ => (None, false)
  end.

Definition ContextWithFileDescriptor (ctx : Context) (fd : option loc) : Context :=
  WithValue ctx fileContextKey (FileVal fd).

Definition FileDescriptorFromContext (ctx : Context) : option loc * bool :=
  match Value ctx fileContextKey with
  | Some (FileVal val) => (val, true)
  | _ => (None, false)
  end.

Definition ContextWithDescriptor (ctx : Context) (d : option common) : Context :=
  WithValue ctx descriptorContextKey (DescriptorVal d).

Definition DescriptorFromContext (ctx : Context) : option common * bool :=
  match Value ctx descriptorContextKey with
  | Some (DescriptorVal val) => (val, true)
  | _ => (None, false)
  end.

Definition ContextWithEnumDescriptor (ctx : Context) (d : option common) : Context :=
  WithValue ctx enumContextKey (EnumVal d).

Definition EnumDescriptorFromContext (ctx : Context) : option common * bool :=
  match Value ctx enumContextKey with
  | Some (EnumVal val) => (val, true)
  | _ => (None, false)
  end.

Definition ContextWithServiceDescriptor (ctx : Context) (service : option common) : Context :=
  WithValue ctx serviceContextKey (ServiceVal service).

Definition ServiceDescriptorFromContext (ctx : Context) : option common * bool :=
  match Value ctx serviceContextKey with
  | Some (ServiceVal val) => (val, true)
  | _ => (None, false)
  end.

(** The five readers of a context, side by side. *)
Definition read_all (ctx : Context) :=
  (AllFilesFromContext ctx, FileDescriptorFromContext ctx, DescriptorFromContext ctx,
   EnumDescriptorFromContext ctx, ServiceDescriptorFromContext ctx).

(** One attachment: the matching reader reads it, the others read what
    they read before. *)
Lemma context_step (ctx : Context) :
  (∀ v, read_all (ContextWithAllFiles ctx v)
        = ((v, true), FileDescriptorFromContext ctx, DescriptorFromContext ctx,
           EnumDescriptorFromContext ctx, ServiceDescriptorFromContext ctx))
  ∧ (∀ v, read_all (ContextWithFileDescriptor ctx v)
          = (AllFilesFromContext ctx, (v, true), DescriptorFromContext ctx,
             EnumDescriptorFromContext ctx, ServiceDescriptorFromContext ctx))
  ∧ (∀ v, read_all (ContextWithDescriptor ctx v)
          = (AllFilesFromContext ctx, FileDescriptorFromContext ctx, (v, true),
             EnumDescriptorFromContext ctx, ServiceDescriptorFromContext ctx))
  ∧ (∀ v, read_all (ContextWithEnumDescriptor ctx v)
          = (AllFilesFromContext ctx, FileDescriptorFromContext ctx,
             DescriptorFromContext ctx, (v, true), ServiceDescriptorFromContext ctx))
  ∧ (∀ v, read_all (ContextWithServiceDescriptor ctx v)
          = (AllFilesFromContext ctx, FileDescriptorFromContext ctx,
             DescriptorFromContext ctx, EnumDescriptorFromContext ctx, (v, true))).
Proof. by split_and!. Qed.

(** Attaching a value with the function of this package that is made for
    its type. *)
Definition attach (ctx : Context) (val : ctx_value) : Context :=
  match val with
  | AllFilesVal v => ContextWithAllFiles ctx v
  | FileVal v => ContextWithFileDescriptor ctx v
  | DescriptorVal v => ContextWithDescriptor ctx v
  | EnumVal v => ContextWithEnumDescriptor ctx v
  | ServiceVal v => ContextWithServiceDescriptor ctx v
  end.

(** The last value among [vals] that [pick] selects, as a reader reports
    it. *)
Definition last_attached {A} (pick : ctx_value → option (option A)) (vals : list ctx_value)
    : option A * bool :=
  match last (omap pick vals) with
  | Some v => (v, true)
  | None => (None, false)
  end.

Definition pick_allFiles (val : ctx_value) : option (option nat) :=
  match val with AllFilesVal v => Some v | _ => None end.
Definition pick_file (val : ctx_value) : option (option loc) :=
  match val with FileVal v => Some v | _ => None end.
Definition pick_descriptor (val : ctx_value) : option (option common) :=
  match val with DescriptorVal v => Some v | _ => None end.
Definition pick_enum (val : ctx_value) : option (option common) :=
  match val with EnumVal v => Some v | _ => None end.
Definition pick_service (val : ctx_value) : option (option common) :=
  match val with ServiceVal v => Some v | _ => None end.

Lemma last_attached_snoc {A} (pick : ctx_value → option (option A)) vals val :
  last_attached pick (vals ++ [val])
  = match pick val with
    | Some v => (v, true)
    | None => last_attached pick vals
    end.
Proof.
  unfold last_attached. rewrite omap_app.
  change (omap pick [val]) with (from_option (λ v, [v]) [] (pick val)).
  destruct (pick val) as [v|]; cbn [from_option].
  - by rewrite last_snoc.
  - by rewrite app_nil_r.
Qed.

(** X13: the context functions.  In a context that was made from the
    background context by the [ContextWith...] functions of this package,
    in any number and order, every [...FromContext] function reads the value
    of the last attachment of its own kind and reports it as found, also
    when that value is a nil pointer; it reports that nothing was found when
    there was no attachment of its kind.  Attachments of the other kinds
    never change what a reader reads. *)
Theorem context_last_attachment_wins (vals : list ctx_value) :
  read_all (foldl attach Background vals)
  = (last_attached pick_allFiles vals, last_attached pick_file vals,
     last_attached pick_descriptor vals, last_attached pick_enum vals,
     last_attached pick_service vals).
Proof.
  induction vals as [|val vals IH] using rev_ind; [done|].
  rewrite foldl_app. cbn [foldl]. rewrite !last_attached_snoc.
  injection IH as <- <- <- <- <-.
  destruct (context_step (foldl attach Background vals)) as (Ha & Hf & Hd & He & Hs).
  destruct val as [v|v|v|v|v]; cbn [attach pick_allFiles pick_file pick_descriptor
                                      pick_enum pick_service].
  - apply Ha.
  - apply Hf.
  - apply Hd.
  - apply He.
  - apply Hs.
Qed.

(** * The builders as they read the context *)

(** The builders of the sources take a context and read the file and the
    enclosing entity from it; the definitions of the assembler above take
    them as arguments.  Here the builders are written with the context, on
    the store of file objects, and shown to agree with those above. *)

(** Using a pointer that may be nil. *)
Definition deref {A} (p : option A) : outcome A :=
  match p with
  | Some a => Returned a
  | None => Panicked NilPointerDereference
  end.

(** Using the file pointer of a context: the address and the file object
    as it is in the store at this moment. *)
Definition file_at (h : heap) (file : option loc) : outcome FilePtr :=
  l ← deref file;
  F ← deref (h !! l);
  mret {| ptr_addr := l; ptr_deref := F |}.

(** [m[key]] on a reference to a map; reading the nil map gives nil. *)
Definition map_index (maps : list (gmap string loc)) (m : option nat) (key : string)
    : option loc :=
  match m with
  | Some r => default ∅ (maps !! r) !! key
  | None => None
  end.

Section range_loop_m.
Context {A B : Type} (body : nat → A → outcome B).

(** [for i, x := range xs { ys[i] = body(i, x) }] with a body that may
    panic. *)
Fixpoint range_from_m (i : nat) (xs : list A) : outcome (list B) :=
  match xs with
  | [] => Returned []
  | x :: rest =>
      b ← body i x;
      bs ← range_from_m (S i) rest;
      mret (b :: bs)
  end.

Definition range_loop_m (xs : list A) : outcome (list B) := range_from_m 0 xs.
End range_loop_m.

Section context_builders.
Variable rev : revision.
Variable GlobalTypes : list ExtensionType.
Variable ParseComments : FileDescriptorProto → gmap string Comment.

Local Abbreviation with_options := (with_options GlobalTypes).
Local Abbreviation newCommon := (newCommon rev).

(** [if hasParent { longName = ...; commentPath = ... }]. *)
Definition under_parent (parent : option common) (hasParent : bool)
    (longName commentPath : string) (nested : nat) (i : nat) : outcome (string * string) :=
  if hasParent then
    p ← deref parent;
    mret (Sprintf_s_s (LongName p) longName, Sprintf_s_d_d (c_path p) nested i)
  else mret (longName, commentPath).

Definition parseEnumValues_ctx (h : heap) (ctx : Context)
    (protos : list EnumValueDescriptorProto) : outcome (list PKEnumValueDescriptor) :=
  let file := (FileDescriptorFromContext ctx).1 in
  let enum := (EnumDescriptorFromContext ctx).1 in
  range_loop_m (λ i vd,
    enum ← deref enum;
    let longName := Sprintf_s_s (LongName enum) (evp_Name vd) in
    file ← file_at h file;
    mret {| v_common := with_options (newCommon file "" longName) (evp_Options vd);
            v_desc := vd;
            v_Enum := enum;
            v_Comments := Comments_Get (comments_of file)
                            (Sprintf_s_d_d (c_path enum) enumValueCommentPath i) |}) protos.

Definition parseEnums_ctx (h : heap) (ctx : Context)
    (protos : list EnumDescriptorProto) : outcome (list PKEnumDescriptor) :=
  let file := (FileDescriptorFromContext ctx).1 in
  let '(parent, hasParent) := DescriptorFromContext ctx in
  range_loop_m (λ i ed,
    let longName := edp_Name ed in
    let commentPath := Sprintf_d_d enumCommentPath i in
    names ← under_parent parent hasParent longName commentPath messageEnumCommentPath i;
    file ← file_at h file;
    let c := with_options (newCommon file names.2 names.1) (edp_Options ed) in
    let subCtx := ContextWithEnumDescriptor ctx (Some c) in
    values ← parseEnumValues_ctx h subCtx (edp_Value ed);
    mret {| e_common := c;
            e_desc := ed;
            e_Parent := parent;
            e_Values := values;
            e_Comments := Comments_Get (comments_of file) names.2 |}) protos.

Definition parseExtensions_ctx (h : heap) (ctx : Context)
    (protos : list FieldDescriptorProto) : outcome (list PKExtensionDescriptor) :=
  let file := (FileDescriptorFromContext ctx).1 in
  let '(parent, hasParent) := DescriptorFromContext ctx in
  range_loop_m (λ i ext,
    let commentPath := Sprintf_d_d extensionCommentPath i in
    let longName := Sprintf_s_s (fdp_Extendee ext) (fdp_Name ext) in
    file ← file_at h file;
    let longName :=
      if Contains longName (PKFileDescriptor_GetPackage (ptr_deref file)) then
        let parts := Split_dot (fdp_Extendee ext) in
        Sprintf_s_s (last_part parts) (fdp_Name ext)
      else longName in
    names ← under_parent parent hasParent longName commentPath
               messageExtensionCommentPath i;
    mret {| x_common := with_options (newCommon file names.2 longName) (fdp_Options ext);
            x_desc := ext;
            x_Parent := parent;
            x_Comments := Comments_Get (comments_of file) names.2 |}) protos.

Definition parseMessageFields_ctx (h : heap) (ctx : Context)
    (protos : list FieldDescriptorProto) : outcome (list PKFieldDescriptor) :=
  let file := (FileDescriptorFromContext ctx).1 in
  let message := (DescriptorFromContext ctx).1 in
  range_loop_m (λ i fd,
    message ← deref message;
    let longName := Sprintf_s_s (LongName message) (fdp_Name fd) in
    file ← file_at h file;
    mret {| fl_common := with_options (newCommon file "" longName) (fdp_Options fd);
            fl_desc := fd;
            fl_Comments := Comments_Get (comments_of file)
                             (Sprintf_s_d_d (c_path message) messageFieldCommentPath i);
            fl_Message := message |}) protos.

(** The body of the loop of [parseMessages] in the context [ctx]. *)
Fixpoint parseMessage_ctx (h : heap) (ctx : Context) (i : nat) (md : DescriptorProto)
    {struct md} : outcome PKDescriptor :=
  let file := (FileDescriptorFromContext ctx).1 in
  let '(parent, hasParent) := DescriptorFromContext ctx in
  let longName := dp_Name md in
  let commentPath := Sprintf_d_d messageCommentPath i in
  names ← under_parent parent hasParent longName commentPath messageMessageCommentPath i;
  file ← file_at h file;
  let c := with_options (newCommon file names.2 names.1) (dp_Options md) in
  let msgCtx := ContextWithDescriptor ctx (Some c) in
  enums ← parseEnums_ctx h msgCtx (dp_EnumType md);
  exts ← parseExtensions_ctx h msgCtx (dp_Extension md);
  fields ← parseMessageFields_ctx h msgCtx (dp_Field md);
  msgs ← range_loop_m (parseMessage_ctx h msgCtx) (dp_NestedType md);
  mret {| m_common := c;
          m_desc := md;
          m_Parent := parent;
          m_Comments := Comments_Get (comments_of file) names.2;
          m_Enums := enums;
          m_Extensions := exts;
          m_Fields := fields;
          m_Messages := msgs |}.

Definition parseMessages_ctx (h : heap) (ctx : Context) (protos : list DescriptorProto)
    : outcome (list PKDescriptor) :=
  range_loop_m (parseMessage_ctx h ctx) protos.

Definition parseServiceMethods_ctx (h : heap) (ctx : Context)
    (protos : list MethodDescriptorProto) : outcome (list PKMethodDescriptor) :=
  let file := (FileDescriptorFromContext ctx).1 in
  let svc := (ServiceDescriptorFromContext ctx).1 in
  range_loop_m (λ i md,
    svc ← deref svc;
    let longName := Sprintf_s_s (LongName svc) (mdp_Name md) in
    file ← file_at h file;
    mret {| md_common := with_options (newCommon file "" longName) (mdp_Options md);
            md_desc := md;
            md_Comments := Comments_Get (comments_of file)
                             (Sprintf_s_d_d (c_path svc) serviceMethodCommentPath i);
            md_Service := svc;
            md_InputType :=
              match rev with
              | current =>
                  PKFileDescriptor_GetMessage rev (ptr_deref file) (mdp_InputType md)
              | legacy => None
              end;
            md_OutputType :=
              match rev with
              | current =>
                  PKFileDescriptor_GetMessage rev (ptr_deref file) (mdp_OutputType md)
              | legacy => None
              end |}) protos.

Definition parseServices_ctx (h : heap) (ctx : Context)
    (protos : list ServiceDescriptorProto) : outcome (list PKServiceDescriptor) :=
  let file := (FileDescriptorFromContext ctx).1 in
  range_loop_m (λ i sd,
    let longName := sdp_Name sd in
    let commentPath := Sprintf_d_d serviceCommentPath i in
    file ← file_at h file;
    let c := with_options (newCommon file commentPath longName) (sdp_Options sd) in
    let svcCtx := ContextWithServiceDescriptor ctx (Some c) in
    methods ← parseServiceMethods_ctx h svcCtx (sdp_Method sd);
    mret {| s_common := c;
            s_desc := sd;
            s_Comments := Comments_Get (comments_of file) commentPath;
            s_Methods := methods |}) protos.

(** [parseFile] in the context [ctx]: the file object is allocated at the
    end of the store, the context carries its address, and every
    assignment to a field of the file is a write to the store, which the
    builders called later read.  The legacy revision ends after the
    services. *)
Definition parseFile_ctx (h : heap) (maps : list (gmap string loc)) (ctx : Context)
    (fd : FileDescriptorProto) : outcome heap :=
  let allFilesMap := (AllFilesFromContext ctx).1 in
  let file := new_file rev GlobalTypes ParseComments fd in
  let self := length h in
  let h := h ++ [file] in
  let fileCtx := ContextWithFileDescriptor ctx (Some self) in
  enums ← parseEnums_ctx h fileCtx (fp_EnumType fd);
  let file := set_children file enums [] [] [] in
  let h := <[self := file]> h in
  exts ← parseExtensions_ctx h fileCtx (fp_Extension fd);
  let file := set_children file enums exts [] [] in
  let h := <[self := file]> h in
  msgs ← parseMessages_ctx h fileCtx (fp_MessageType fd);
  let file := set_children file enums exts msgs [] in
  let h := <[self := file]> h in
  svcs ← parseServices_ctx h fileCtx (fp_Service fd);
  let file := set_children file enums exts msgs svcs in
  let h := <[self := file]> h in
  match rev with
  | current =>
      let deps := map_index maps allFilesMap <$> fp_Dependency fd in
      pdeps ← for_each (λ (acc : list (option loc)) (dep : Z),
                 name ← dependency_at fd dep;
                 mret (acc ++ [map_index maps allFilesMap name])) [] (fp_PublicDependency fd);
      mret (<[self := set_Dependencies file deps pdeps]> h)
  | legacy => mret h
  end.
End context_builders.

Lemma for_each_ext {S A} (body1 body2 : S → A → outcome S) (st : S) (xs : list A) :
  (∀ st x, body1 st x = body2 st x) → for_each body1 st xs = for_each body2 st xs.
Proof.
  intros Hext. revert st. induction xs as [|x xs IH]; intros st; [done|].
  cbn [for_each]. rewrite Hext. unfold_outcome. by destruct (body2 st x).
Qed.

Lemma range_from_m_Returned {A B} (bodym : nat → A → outcome B) (body : nat → A → B)
    (xs : list A) (i : nat) :
  (∀ k x, xs !! k = Some x → bodym (i + k) x = Returned (body (i + k) x)) →
  range_from_m bodym i xs = Returned (range_from body i xs).
Proof.
  revert i. induction xs as [|x xs IH]; intros i Hbody; [done|].
  cbn [range_from_m range_from].
  pose proof (Hbody 0 x eq_refl) as Hx. rewrite Nat.add_0_r in Hx. rewrite Hx.
  unfold_outcome. rewrite (IH (S i)); [done|].
  intros k y Hy. replace (S i + k) with (i + S k) by lia. by apply Hbody.
Qed.

Lemma range_loop_m_Returned {A B} (bodym : nat → A → outcome B) (body : nat → A → B)
    (xs : list A) :
  (∀ k x, xs !! k = Some x → bodym k x = Returned (body k x)) →
  range_loop_m bodym xs = Returned (range_loop body xs).
Proof. intros Hbody. by apply range_from_m_Returned. Qed.

(** Whether a pointer is not nil. *)
Definition found {A} (p : option A) : bool :=
  match p with
  | Some _ => true
  | None => false
  end.

(** The context [ctx] carries the address of the file object [file], which
    the store holds, and [parent] as the enclosing message: found when
    there is one, not found otherwise. *)
Definition ctx_reads (h : heap) (ctx : Context) (file : FilePtr) (parent : option common)
    : Prop :=
  (FileDescriptorFromContext ctx).1 = Some (ptr_addr file)
  ∧ h !! ptr_addr file = Some (ptr_deref file)
  ∧ DescriptorFromContext ctx = (parent, found parent).

Lemma file_at_reads h ctx file parent :
  ctx_reads h ctx file parent →
  file_at h (FileDescriptorFromContext ctx).1 = Returned file.
Proof.
  intros (-> & Hh & _). unfold file_at. cbn. rewrite Hh. cbn. by destruct file.
Qed.

Lemma ctx_reads_enum h ctx file parent c :
  ctx_reads h ctx file parent →
  (FileDescriptorFromContext (ContextWithEnumDescriptor ctx (Some c))).1
  = Some (ptr_addr file)
  ∧ (EnumDescriptorFromContext (ContextWithEnumDescriptor ctx (Some c))).1 = Some c.
Proof. by intros (Hf & _ & _). Qed.

Lemma ctx_reads_service h ctx file parent c :
  ctx_reads h ctx file parent →
  (FileDescriptorFromContext (ContextWithServiceDescriptor ctx (Some c))).1
  = Some (ptr_addr file)
  ∧ (ServiceDescriptorFromContext (ContextWithServiceDescriptor ctx (Some c))).1 = Some c.
Proof. by intros (Hf & _ & _). Qed.

Lemma ctx_reads_message h ctx file parent c :
  ctx_reads h ctx file parent →
  ctx_reads h (ContextWithDescriptor ctx (Some c)) file (Some c).
Proof. by intros (Hf & Hh & _). Qed.

Lemma under_parent_reads parent longName commentPath nested i :
  under_parent parent (found parent) longName commentPath nested i
  = Returned (nested_name parent longName,
              match parent with
              | Some p => Sprintf_s_d_d (c_path p) nested i
              | None => commentPath
              end).
Proof. by destruct parent. Qed.

Section context_refinement.
Variable rev : revision.
Variable GlobalTypes : list ExtensionType.
Variable ParseComments : FileDescriptorProto → gmap string Comment.

Lemma parseEnumValues_ctx_reads h ctx file enum protos :
  (FileDescriptorFromContext ctx).1 = Some (ptr_addr file) →
  h !! ptr_addr file = Some (ptr_deref file) →
  (EnumDescriptorFromContext ctx).1 = Some enum →
  parseEnumValues_ctx rev GlobalTypes h ctx protos
  = Returned (parseEnumValues rev GlobalTypes file enum protos).
Proof.
  intros Hf Hh He. unfold parseEnumValues_ctx, parseEnumValues. rewrite Hf, He.
  apply range_loop_m_Returned. intros k vd _. unfold file_at. cbn. rewrite Hh. cbn.
  by destruct file.
Qed.

Lemma parseEnums_ctx_reads h ctx file parent protos :
  ctx_reads h ctx file parent →
  parseEnums_ctx rev GlobalTypes h ctx protos
  = Returned (parseEnums rev GlobalTypes file parent protos).
Proof.
  intros Hctx. pose proof (file_at_reads _ _ _ _ Hctx) as Hfile.
  unfold parseEnums_ctx, parseEnums. destruct Hctx as (Hf & Hh & ->).
  apply range_loop_m_Returned. intros k ed _.
  rewrite under_parent_reads, Hfile. unfold_outcome. cbn [fst snd].
  erewrite (parseEnumValues_ctx_reads h _ file);
    [reflexivity | exact Hf | exact Hh | reflexivity].
Qed.

Lemma parseExtensions_ctx_reads h ctx file parent protos :
  ctx_reads h ctx file parent →
  parseExtensions_ctx rev GlobalTypes h ctx protos
  = Returned (parseExtensions rev GlobalTypes file parent protos).
Proof.
  intros Hctx. pose proof (file_at_reads _ _ _ _ Hctx) as Hfile.
  unfold parseExtensions_ctx, parseExtensions. destruct Hctx as (Hf & Hh & ->).
  apply range_loop_m_Returned. intros k ext _.
  rewrite Hfile. unfold_outcome. rewrite under_parent_reads. cbn [fst snd].
  by destruct parent.
Qed.

Lemma parseMessageFields_ctx_reads h ctx file message protos :
  ctx_reads h ctx file (Some message) →
  parseMessageFields_ctx rev GlobalTypes h ctx protos
  = Returned (parseMessageFields rev GlobalTypes file message protos).
Proof.
  intros Hctx. pose proof (file_at_reads _ _ _ _ Hctx) as Hfile.
  unfold parseMessageFields_ctx, parseMessageFields. destruct Hctx as (Hf & Hh & ->).
  apply range_loop_m_Returned. intros k fd _. cbn [fst deref]. unfold_outcome.
  by rewrite Hfile.
Qed.

Lemma parseMessage_ctx_unfold h ctx i md :
  parseMessage_ctx rev GlobalTypes h ctx i md =
  let file := (FileDescriptorFromContext ctx).1 in
  let '(parent, hasParent) := DescriptorFromContext ctx in
  names ← under_parent parent hasParent (dp_Name md) (Sprintf_d_d messageCommentPath i)
             messageMessageCommentPath i;
  file ← file_at h file;
  let c := with_options GlobalTypes (newCommon rev file names.2 names.1) (dp_Options md) in
  let msgCtx := ContextWithDescriptor ctx (Some c) in
  enums ← parseEnums_ctx rev GlobalTypes h msgCtx (dp_EnumType md);
  exts ← parseExtensions_ctx rev GlobalTypes h msgCtx (dp_Extension md);
  fields ← parseMessageFields_ctx rev GlobalTypes h msgCtx (dp_Field md);
  msgs ← parseMessages_ctx rev GlobalTypes h msgCtx (dp_NestedType md);
  mret {| m_common := c;
          m_desc := md;
          m_Parent := parent;
          m_Comments := Comments_Get (comments_of file) names.2;
          m_Enums := enums;
          m_Extensions := exts;
          m_Fields := fields;
          m_Messages := msgs |}.
Proof. by destruct md. Qed.

Lemma parseMessage_ctx_reads md :
  ∀ h ctx file parent i,
    ctx_reads h ctx file parent →
    parseMessage_ctx rev GlobalTypes h ctx i md
    = Returned (parseMessage rev GlobalTypes file parent i md).
Proof.
  induction md as [md IH] using DescriptorProto_nested_ind.
  intros h ctx file parent i Hctx.
  pose proof (file_at_reads _ _ _ _ Hctx) as Hfile.
  rewrite parseMessage_ctx_unfold, parseMessage_unfold. unfold message_common, nested_path.
  pose proof Hctx as (Hf & Hh & Hp). rewrite Hp.
  rewrite under_parent_reads, Hfile. unfold_outcome. cbn [fst snd].
  set (c := with_options GlobalTypes _ _).
  pose proof (ctx_reads_message _ _ _ _ c Hctx) as Hsub.
  rewrite (parseEnums_ctx_reads _ _ _ _ _ Hsub), (parseExtensions_ctx_reads _ _ _ _ _ Hsub),
    (parseMessageFields_ctx_reads _ _ _ _ _ Hsub).
  unfold parseMessages_ctx.
  rewrite (range_loop_m_Returned _ (parseMessage rev GlobalTypes file (Some c))); [done|].
  intros k x Hx. rewrite Forall_lookup in IH. by apply (IH k x Hx).
Qed.

Lemma parseMessages_ctx_reads h ctx file parent protos :
  ctx_reads h ctx file parent →
  parseMessages_ctx rev GlobalTypes h ctx protos
  = Returned (parseMessages rev GlobalTypes file parent protos).
Proof.
  intros Hctx. unfold parseMessages_ctx, parseMessages.
  apply range_loop_m_Returned. intros k x _. by apply parseMessage_ctx_reads.
Qed.

Lemma parseServiceMethods_ctx_reads h ctx file svc protos :
  (FileDescriptorFromContext ctx).1 = Some (ptr_addr file) →
  h !! ptr_addr file = Some (ptr_deref file) →
  (ServiceDescriptorFromContext ctx).1 = Some svc →
  parseServiceMethods_ctx rev GlobalTypes h ctx protos
  = Returned (parseServiceMethods rev GlobalTypes file svc protos).
Proof.
  intros Hf Hh Hs. unfold parseServiceMethods_ctx, parseServiceMethods. rewrite Hf, Hs.
  apply range_loop_m_Returned. intros k md _. unfold file_at. cbn. rewrite Hh. cbn.
  by destruct file.
Qed.

Lemma parseServices_ctx_reads h ctx file parent protos :
  ctx_reads h ctx file parent →
  parseServices_ctx rev GlobalTypes h ctx protos
  = Returned (parseServices rev GlobalTypes file protos).
Proof.
  intros Hctx. pose proof (file_at_reads _ _ _ _ Hctx) as Hfile.
  unfold parseServices_ctx, parseServices. destruct Hctx as (Hf & Hh & _).
  apply range_loop_m_Returned. intros k sd _.
  rewrite Hfile. unfold_outcome.
  erewrite (parseServiceMethods_ctx_reads h _ file);
    [reflexivity | exact Hf | exact Hh | reflexivity].
Qed.

(** [parseFile] with the context, in a context that carries no message:
    it leaves at the end of the store the file that [parseFile] of the
    assembler returns for the map of files that the context refers to, and
    panics when that one does.  The legacy revision does not read the map. *)
Lemma parseFile_ctx_reads (h : heap) (maps : list (gmap string loc)) (ctx : Context)
    (allFilesMap : gmap string loc) (fd : FileDescriptorProto) :
  DescriptorFromContext ctx = (None, false) →
  (rev = current →
   ∀ key, map_index maps (AllFilesFromContext ctx).1 key = allFilesMap !! key) →
  parseFile_ctx rev GlobalTypes ParseComments h maps ctx fd
  = F ← parseFile rev GlobalTypes ParseComments allFilesMap (length h) fd;
    mret (h ++ [F]).
Proof.
  intros Hd Hmap. unfold parseFile_ctx, parseFile.
  set (file0 := new_file rev GlobalTypes ParseComments fd).
  set (self := length h).
  set (fileCtx := ContextWithFileDescriptor ctx (Some self)).
  assert (∀ F, <[self := F]> (h ++ [file0]) = h ++ [F]) as Hstore.
  { intros F. unfold self.
    rewrite insert_app_r_alt, Nat.sub_diag by lia. done. }
  assert (∀ F F', <[self := F']> (h ++ [F]) = h ++ [F']) as Hstore'.
  { intros F F'. unfold self.
    rewrite insert_app_r_alt, Nat.sub_diag by lia. done. }
  assert (∀ F, ctx_reads (h ++ [F]) fileCtx {| ptr_addr := self; ptr_deref := F |} None)
    as Hctx.
  { intros F. split_and!; [done | | ].
    - cbn. unfold self. by rewrite lookup_app_r, Nat.sub_diag by lia.
    - unfold fileCtx.
      change (DescriptorFromContext (ContextWithFileDescriptor ctx (Some self)))
        with (DescriptorFromContext ctx). done. }
  rewrite (parseEnums_ctx_reads _ _ _ _ _ (Hctx file0)). unfold_outcome.
  rewrite Hstore.
  rewrite (parseExtensions_ctx_reads _ _ _ _ _ (Hctx _)), Hstore'.
  rewrite (parseMessages_ctx_reads _ _ _ _ _ (Hctx _)), Hstore'.
  rewrite (parseServices_ctx_reads _ _ _ _ _ (Hctx _)), Hstore'.
  destruct rev; [|done]. specialize (Hmap eq_refl).
  assert (map_index maps (AllFilesFromContext ctx).1 <$> fp_Dependency fd
          = (λ dep, allFilesMap !! dep) <$> fp_Dependency fd) as ->.
  { apply list_eq. intros k. rewrite !list_lookup_fmap.
    destruct (fp_Dependency fd !! k) as [dep|]; [|done]. cbn. by rewrite Hmap. }
  rewrite (for_each_ext _
             (λ (acc : list (option loc)) (dep : Z),
                name ← dependency_at fd dep; mret (acc ++ [allFilesMap !! name]))).
  - destruct (for_each _ _ _); [|done..]. by rewrite Hstore'.
  - intros acc dep. unfold_outcome. destruct (dependency_at fd dep); [|done..].
    by rewrite Hmap.
Qed.
End context_refinement.

(** The first loop of the driver with the context: the map of files is
    one map object, made before the loop; the current driver attaches the
    reference to it to the background context once, the legacy driver
    passes the background context; every round writes the new file into
    the map object. *)
Definition build_files_ctx (rev : revision) (GlobalTypes : list ExtensionType)
    (ParseComments : FileDescriptorProto → gmap string Comment)
    (pfs : list FileDescriptorProto) : outcome (heap * list (gmap string loc)) :=
  let allFilesMap := 0 in
  let maps := [∅] in
  let ctx :=
    match rev with
    | current => ContextWithAllFiles Background (Some allFilesMap)
    | legacy => Background
    end in
  for_each (λ '(h, maps) pf,
    h' ← parseFile_ctx rev GlobalTypes ParseComments h maps ctx pf;
    mret (h', <[allFilesMap := <[fp_Name pf := length h]> (default ∅ (maps !! allFilesMap))]>
                maps)) ([], maps) pfs.

(** X14: the builders read from the context what the assembler is given.
    In a context that carries no message, [parseFile] with the context
    allocates the file object at the end of the store and leaves there the
    file that [parseFile] of the assembler returns for the map of files
    that the context refers to, and it panics when that one does: inside,
    every builder finds in its context the file under construction, with
    the fields assigned so far, and the enclosing message, enum or service,
    a top-level builder finds no parent, and no pointer read from a
    context is nil.  And although the driver makes its context once, before
    any file is in the map, every call of [parseFile] reads through it the
    map as the rounds before have filled it: the first loop with the
    context builds the store and the map that the first loop of the
    assembler builds. *)
Theorem builders_read_the_context rev GlobalTypes ParseComments :
  (∀ (h : heap) (maps : list (gmap string loc)) (ctx : Context)
     (allFilesMap : gmap string loc) (fd : FileDescriptorProto),
     DescriptorFromContext ctx = (None, false) →
     (rev = current →
      ∀ key, map_index maps (AllFilesFromContext ctx).1 key = allFilesMap !! key) →
     parseFile_ctx rev GlobalTypes ParseComments h maps ctx fd
     = F ← parseFile rev GlobalTypes ParseComments allFilesMap (length h) fd;
       mret (h ++ [F]))
  ∧ (∀ pfs,
       build_files_ctx rev GlobalTypes ParseComments pfs
       = '(h, m) ← build_files rev GlobalTypes ParseComments pfs; mret (h, [m])).
Proof.
  split; [apply parseFile_ctx_reads|]. intros pfs.
  unfold build_files_ctx, build_files.
  enough (∀ (h0 : heap) (m0 : gmap string loc),
    for_each (λ '(h, maps) pf,
      h' ← parseFile_ctx rev GlobalTypes ParseComments h maps
              match rev with
              | current => ContextWithAllFiles Background (Some 0)
              | legacy => Background
              end pf;
      mret (h', <[0 := <[fp_Name pf := length h]> (default ∅ (maps !! 0))]> maps))
      (h0, [m0]) pfs
    = '(h, m) ← for_each (λ '(h, allFilesMap) pf,
                   file ← parseFile rev GlobalTypes ParseComments allFilesMap (length h) pf;
                   mret (h ++ [file], <[fp_Name pf := length h]> allFilesMap)) (h0, m0) pfs;
      mret (h, [m])) as Hloop by apply Hloop.
  induction pfs as [|pf pfs IH]; intros h0 m0; [done|]. cbn [for_each].
  rewrite (parseFile_ctx_reads rev GlobalTypes ParseComments h0 [m0] _ m0);
    [| by destruct rev | by intros ->].
  unfold_outcome.
  destruct (parseFile rev GlobalTypes ParseComments m0 (length h0) pf); [|done..].
  cbn. apply IH.
Qed.

(** X15: the loops of the driver after the first one leave the trees as
    they are.  Every file object of the final store is the file that
    [parseFile] built from the descriptor at the same position of the
    request, against the map of the descriptors before it, with nothing
    changed but the import list and the generation flag. *)
Theorem driver_keeps_the_trees rev GlobalTypes ParseComments preflight range req h files l F :
  ParseCodeGenRequestAllFiles rev GlobalTypes ParseComments preflight range req
  = Returned (h, files) →
  h !! l = Some F →
  ∃ pf F0,
    ProtoFile req !! l = Some pf
    ∧ parseFile rev GlobalTypes ParseComments (names_map (take l (ProtoFile req))) l pf
      = Returned F0
    ∧ F = set_IsFileToGenerate (set_Imports F0 (f_Imports F)) (f_IsFileToGenerate F)
    ∧ f_desc F = pf
    ∧ file_commons F = file_commons F0
    ∧ file_entity_comments F = file_entity_comments F0.
Proof.
  intros Hrun HF.
  destruct (run_store_file _ _ _ _ _ _ _ _ Hrun l F HF) as (pf & F0 & Hpf & Ht & Hparse).
  exists pf, F0. split_and!; [done | done | exact Ht | | |].
  - rewrite (same_tree_desc _ _ Ht).
    by destruct (parseFile_Returned _ _ _ _ _ _ _ Hparse) as (-> & _).
  - unfold same_tree in Ht. by rewrite Ht.
  - unfold same_tree in Ht. by rewrite Ht.
Qed.

(** * The properties above on the scenarios *)

(** The file that [parseFile] builds in a scenario. *)
Definition built_file (rev : revision) (fd : FileDescriptorProto) : PKFileDescriptor :=
  match Scenario.build rev fd with
  | Returned F => F
  | _ => new_file rev [] Scenario.no_comments fd
  end.

(** The store that the driver leaves in a scenario. *)
Definition final_store (rev : revision) (req : CodeGeneratorRequest) : heap :=
  match Scenario.run rev req with
  | Returned (h, _) => h
  | _ => []
  end.

Lemma built_file_ab rev :
  Scenario.build rev Scenario.ab_proto = Returned (built_file rev Scenario.ab_proto).
Proof. destruct rev; vm_compute; reflexivity. Defined.

(** In [ab.proto], [N] nested in [M] has the long name [M.N]. *)
Lemma long_names_follow_nesting_witness :
  let F := built_file current Scenario.ab_proto in
  Scenario.build current Scenario.ab_proto = Returned F
  ∧ (∀ m, m ∈ f_Messages F → LongName (m_common m) = PKDescriptor_GetName m)
  ∧ (∀ m, m ∈ all_messages F → ∀ n, n ∈ m_Messages m →
       LongName (m_common n) = LongName (m_common m) +:+ "." +:+ PKDescriptor_GetName n).
Proof.
  intros F. pose proof (built_file_ab current) as HF. split; [exact HF|].
  destruct (long_names_follow_nesting current [] Scenario.no_comments ∅ 0
              Scenario.ab_proto F HF) as (Htop & _ & _ & Hnested & _).
  split; [exact Htop|]. intros m Hm. exact (proj1 (Hnested m Hm)).
Defined.

(** In the legacy revision and in [ab.proto], the message [M] has the
    long name [M], and [M.N] has the full name of [M] followed by [.N]. *)
Lemma full_names_follow_nesting_witness :
  let F := built_file legacy Scenario.ab_proto in
  let m := default (parseMessage legacy [] {| ptr_addr := 0; ptr_deref := F |} None 0
                      (Scenario.message "M" [] [] None)) (f_Messages F !! 0) in
  Scenario.build legacy Scenario.ab_proto = Returned F
  ∧ m ∈ all_messages F
  ∧ LongName (m_common m) ≠ ""
  ∧ HasPrefix (LongName (m_common m)) "." = false
  ∧ ∀ n, n ∈ m_Messages m →
      FullName (m_common n) = FullName (m_common m) +:+ "." +:+ PKDescriptor_GetName n.
Proof.
  intros F m. pose proof (built_file_ab legacy) as HF.
  assert (m ∈ all_messages F) as Hm
    by (apply list_elem_of_lookup_2 with 0; vm_compute; reflexivity).
  assert (LongName (m_common m) ≠ "") as Hne by (vm_compute; discriminate).
  assert (HasPrefix (LongName (m_common m)) "." = false) as Hl by (vm_compute; reflexivity).
  split; [exact HF|]. split; [exact Hm|]. split; [exact Hne|]. split; [exact Hl|].
  destruct (full_names_follow_nesting legacy [] Scenario.no_comments ∅ 0
              Scenario.ab_proto F HF) as (Hmsgs & _).
  exact (proj1 (Hmsgs m Hm Hne Hl)).
Defined.

(** In [ab.proto], the top-level messages have no parent and every field
    refers to its message. *)
Lemma back_references_witness :
  let F := built_file current Scenario.ab_proto in
  Scenario.build current Scenario.ab_proto = Returned F
  ∧ (∀ m, m ∈ f_Messages F → m_Parent m = None)
  ∧ (∀ m, m ∈ all_messages F →
       (∀ n, n ∈ m_Messages m → m_Parent n = Some (m_common m))
       ∧ (∀ e, e ∈ m_Enums m → e_Parent e = Some (m_common m))
       ∧ (∀ x, x ∈ m_Extensions m → x_Parent x = Some (m_common m))
       ∧ (∀ fl, fl ∈ m_Fields m → fl_Message fl = m_common m)).
Proof.
  intros F. pose proof (built_file_ab current) as HF. split; [exact HF|].
  destruct (back_references current [] Scenario.no_comments ∅ 0 Scenario.ab_proto F HF)
    as (Htop & _ & _ & Hnested & _).
  split; [exact Htop | exact Hnested].
Defined.

(** The tree of [ab.proto] has one message, one enum, one extension and
    one service at the top, those of the descriptor. *)
Lemma tree_mirrors_descriptor_witness :
  let F := built_file current Scenario.ab_proto in
  Scenario.build current Scenario.ab_proto = Returned F
  ∧ f_desc F = Scenario.ab_proto
  ∧ m_desc <$> f_Messages F = fp_MessageType Scenario.ab_proto
  ∧ e_desc <$> f_Enums F = fp_EnumType Scenario.ab_proto
  ∧ x_desc <$> f_Extensions F = fp_Extension Scenario.ab_proto
  ∧ s_desc <$> f_Services F = fp_Service Scenario.ab_proto.
Proof.
  intros F. pose proof (built_file_ab current) as HF. split; [exact HF|].
  destruct (tree_mirrors_descriptor current [] Scenario.no_comments ∅ 0
              Scenario.ab_proto F HF) as (Hd & Hm & He & Hx & Hs & _).
  by split_and!.
Defined.

(** A registry and a message with options: [my.tag] is registered for
    message options and set, [other.tag] is set but not registered. *)
Module OptionScenario.
Definition registry : list ExtensionType :=
  [ {| et_FullName := "my.tag"; et_ContainingMessage := "google.protobuf.MessageOptions" |};
    {| et_FullName := "my.file_tag"; et_ContainingMessage := "google.protobuf.FileOptions" |} ].

Definition tagged : OptionsMessage :=
  {| om_Descriptor := "google.protobuf.MessageOptions";
     om_Extensions := <["my.tag" := "v"]> (<["other.tag" := "w"]> ∅);
     om_MapEntry := false |}.

Definition proto : FileDescriptorProto :=
  {| fp_Name := "t.proto"; fp_Package := "t";
     fp_Dependency := []; fp_PublicDependency := [];
     fp_MessageType := [Scenario.message "T" [] [] (Some tagged)];
     fp_EnumType := []; fp_Service := []; fp_Extension := [];
     fp_Options := None; fp_Syntax := "proto3" |}.

Definition file : PKFileDescriptor :=
  match parseFile current registry Scenario.no_comments ∅ 0 proto with
  | Returned F => F
  | _ => new_file current registry Scenario.no_comments proto
  end.
End OptionScenario.

(** The message [T] carries [my.tag] and nothing else; the file, which has
    no options, carries nil. *)
Lemma options_of_own_descriptor_witness :
  let F := OptionScenario.file in
  parseFile current OptionScenario.registry Scenario.no_comments ∅ 0 OptionScenario.proto
  = Returned F
  ∧ OptionExtensions <$> (m_common <$> all_messages F) = [Some (<["my.tag" := "v"]> ∅)]
  ∧ f_OptionExtensions F = None
  ∧ (∀ m, m ∈ all_messages F →
       OptionExtensions (m_common m)
       = dp_Options (m_desc m) ≫= getOptions OptionScenario.registry).
Proof.
  intros F.
  assert (parseFile current OptionScenario.registry Scenario.no_comments ∅ 0
            OptionScenario.proto = Returned F) as HF by (vm_compute; reflexivity).
  split; [exact HF|].
  split; [vm_compute; reflexivity|].
  destruct (options_of_own_descriptor current OptionScenario.registry Scenario.no_comments
              ∅ 0 OptionScenario.proto F HF) as (Hfile & Hmsgs & _).
  split; [exact Hfile | exact Hmsgs].
Defined.

Lemma dot_free_Base : dot_free "Base".
Proof. unfold dot_free. rewrite <- Contains_spec. by vm_compute. Defined.

(** The extension [ext] of [a.b.Base] in the package [a.b]. *)
Lemma extension_names_at_the_edges_witness :
  let F := built_file current Scenario.ab_proto in
  let x := default {| x_common := newCommon current {| ptr_addr := 0; ptr_deref := F |} "" "";
                      x_desc := Scenario.field "";
                      x_Parent := None;
                      x_Comments := None |} (f_Extensions F !! 0) in
  Scenario.build current Scenario.ab_proto = Returned F
  ∧ x ∈ all_extensions F
  ∧ LongName (x_common x) = "Base" +:+ "." +:+ "ext"
  ∧ FullName (x_common x) = ".a.b" +:+ "." +:+ "Base" +:+ "." +:+ "ext".
Proof.
  intros F x. pose proof (built_file_ab current) as HF.
  assert (x ∈ all_extensions F) as Hx
    by (apply list_elem_of_lookup_2 with 0; vm_compute; reflexivity).
  split; [exact HF|]. split; [exact Hx|].
  destruct (extension_names_at_the_edges current [] Scenario.no_comments ∅ 0
              Scenario.ab_proto F x HF Hx) as (Hq & _).
  assert (is_substring (fp_Package Scenario.ab_proto)
            (fdp_Extendee (x_desc x) +:+ "." +:+ fdp_Name (x_desc x))) as Hsub
    by (exists "", ".Base.ext"; vm_compute; reflexivity).
  destruct (Hq "a.b" "Base" eq_refl dot_free_Base Hsub) as [Hlong Hfull].
  split; [exact Hlong|]. apply Hfull. discriminate.
Defined.

Lemma final_store_yx rev :
  ∃ files, Scenario.run rev Scenario.request_yx
           = Returned (final_store rev Scenario.request_yx, files).
Proof. destruct rev; eexists; vm_compute; reflexivity. Defined.

(** The batch [y.proto], [x.proto] with the target [x.proto]: every
    dependency and every target is in the batch, and the driver returns. *)
Lemma driver_outcome_witness :
  Scenario.preflight_ok Scenario.request_yx = Returned ()
  ∧ indices_ok current (ProtoFile Scenario.request_yx)
  ∧ dependencies_known (ProtoFile Scenario.request_yx)
  ∧ targets_known Scenario.request_yx
  ∧ ∃ h files, Scenario.run current Scenario.request_yx = Returned (h, files).
Proof.
  assert (indices_ok current (ProtoFile Scenario.request_yx)) as Hi
    by (apply (bool_decide_unpack _); vm_compute; exact I).
  assert (dependencies_known (ProtoFile Scenario.request_yx)) as Hd
    by (apply (bool_decide_unpack _); vm_compute; exact I).
  assert (targets_known Scenario.request_yx) as Ht
    by (apply (bool_decide_unpack _); vm_compute; exact I).
  split; [reflexivity|]. split; [exact Hi|]. split; [exact Hd|]. split; [exact Ht|].
  destruct (driver_outcome current [] Scenario.no_comments Scenario.preflight_ok map_to_list
              (λ m, reflexivity _) Scenario.request_yx) as (Hrun & _).
  destruct (Hrun eq_refl) as (_ & _ & Hreturns).
  exact (Hreturns Hi Hd Ht).
Defined.

(** The same batch: two file objects, two returned pointers, two names. *)
Lemma one_file_per_name_witness :
  let h := final_store current Scenario.request_yx in
  Scenario.run current Scenario.request_yx = Returned (h, [1; 0])
  ∧ length h = 2
  ∧ NoDup [1; 0]
  ∧ NoDup (name_at h <$> [1; 0])
  ∧ ∀ name, name ∈ name_at h <$> [1; 0] ↔ name ∈ ["y.proto"; "x.proto"].
Proof.
  intros h.
  assert (Scenario.run current Scenario.request_yx = Returned (h, [1; 0])) as Hrun
    by (vm_compute; reflexivity).
  split; [exact Hrun|].
  destruct (one_file_per_name current [] Scenario.no_comments Scenario.preflight_ok map_to_list
              (λ m, reflexivity _) Scenario.request_yx h [1; 0] Hrun)
    as (Hlen & _ & Hnd & _ & Hnames & Hin & _).
  split; [exact Hlen|]. split; [exact Hnd|]. split; [exact Hnames | exact Hin].
Defined.

(** In [ab.proto], [M.GetMessage] finds [N] by its bare name. *)
Lemma lookup_by_bare_name_witness :
  let F := built_file current Scenario.ab_proto in
  Scenario.build current Scenario.ab_proto = Returned F
  ∧ wf_file Scenario.ab_proto = true
  ∧ ∀ m, m ∈ all_messages F → ∀ n, n ∈ m_Messages m →
      PKDescriptor_GetMessage m (PKDescriptor_GetName n) = Some n.
Proof.
  intros F. pose proof (built_file_ab current) as HF.
  assert (wf_file Scenario.ab_proto = true) as Hwf by (vm_compute; reflexivity).
  split; [exact HF|]. split; [exact Hwf|].
  destruct (lookup_by_bare_name current [] Scenario.no_comments ∅ 0 Scenario.ab_proto F
              HF Hwf) as (Hnested & _).
  intros m Hm. exact (proj1 (Hnested m Hm)).
Defined.

(** In the legacy revision the full name of [M] finds nothing. *)
Lemma lookup_by_full_name_legacy :
  let F := built_file legacy Scenario.ab_proto in
  Forall (λ m, PKFileDescriptor_GetMessage legacy F (FullName (m_common m)) = None)
    (f_Messages F)
  ∧ FullName <$> (m_common <$> f_Messages F) = ["a.b.M"].
Proof. split; [|vm_compute; reflexivity]. repeat constructor. Qed.

(** [x.proto] at the address 1 imports from [y.proto] at the address 0:
    the entries of its import list lead to the file object of [y.proto]. *)
Lemma entities_know_their_file_witness :
  let h := final_store current Scenario.request_yx in
  let F := default (new_file current [] Scenario.no_comments Scenario.x_proto) (h !! 1) in
  Scenario.run current Scenario.request_yx = Returned (h, [1; 0])
  ∧ h !! 1 = Some F
  ∧ length (f_Imports F) = 3
  ∧ (∀ c, c ∈ file_commons F → h !! GetFile c = Some F)
  ∧ ∀ i, i ∈ f_Imports F →
      ∃ D, h !! GetFile (i_common i) = Some D
           ∧ i_common i ∈ file_commons D
           ∧ PKFileDescriptor_GetName D ∈ fp_Dependency (f_desc F)
           ∧ common_GetPackage h (i_common i) = Some (PKFileDescriptor_GetPackage D).
Proof.
  intros h F.
  assert (Scenario.run current Scenario.request_yx = Returned (h, [1; 0])) as Hrun
    by (vm_compute; reflexivity).
  assert (h !! 1 = Some F) as HF by (vm_compute; reflexivity).
  split; [exact Hrun|]. split; [exact HF|]. split; [vm_compute; reflexivity|].
  destruct (entities_know_their_file current [] Scenario.no_comments Scenario.preflight_ok
              map_to_list (λ m, reflexivity _) Scenario.request_yx h [1; 0] Hrun 1 F HF)
    as (Hown & Himports).
  split.
  - intros c Hc. exact (proj1 (Hown c Hc)).
  - apply Himports. by left.
Defined.

(** [parseFile] on [ab.proto] in the context of the current driver, with
    an empty store and an empty map of files; and the first loop on the
    batch [y.proto], [x.proto]. *)
Lemma builders_read_the_context_witness :
  let ctx := ContextWithAllFiles Background (Some 0) in
  DescriptorFromContext ctx = (None, false)
  ∧ parseFile_ctx current [] Scenario.no_comments [] [∅] ctx Scenario.ab_proto
    = Returned [built_file current Scenario.ab_proto]
  ∧ build_files_ctx current [] Scenario.no_comments (ProtoFile Scenario.request_yx)
    = '(h, m) ← build_files current [] Scenario.no_comments (ProtoFile Scenario.request_yx);
      mret (h, [m]).
Proof.
  intros ctx. split; [reflexivity|].
  destruct (builders_read_the_context current [] Scenario.no_comments) as [Hfile Hloop].
  split; [|apply Hloop].
  rewrite (Hfile [] [∅] ctx ∅ Scenario.ab_proto eq_refl (λ _ key, eq_refl)).
  change (parseFile current [] Scenario.no_comments ∅ (length []) Scenario.ab_proto)
    with (Scenario.build current Scenario.ab_proto).
  by rewrite (built_file_ab current).
Defined.

(** The file object of [x.proto] after the run is the tree that
    [parseFile] built, with three imports and the generation flag. *)
Lemma driver_keeps_the_trees_witness :
  let h := final_store current Scenario.request_yx in
  let F := default (new_file current [] Scenario.no_comments Scenario.x_proto) (h !! 1) in
  Scenario.run current Scenario.request_yx = Returned (h, [1; 0])
  ∧ h !! 1 = Some F
  ∧ f_IsFileToGenerate F = true
  ∧ ∃ pf F0,
      ProtoFile Scenario.request_yx !! 1 = Some pf
      ∧ parseFile current [] Scenario.no_comments
          (names_map (take 1 (ProtoFile Scenario.request_yx))) 1 pf = Returned F0
      ∧ F = set_IsFileToGenerate (set_Imports F0 (f_Imports F)) (f_IsFileToGenerate F)
      ∧ f_desc F = pf
      ∧ file_commons F = file_commons F0
      ∧ file_entity_comments F = file_entity_comments F0.
Proof.
  intros h F.
  assert (Scenario.run current Scenario.request_yx = Returned (h, [1; 0])) as Hrun
    by (vm_compute; reflexivity).
  assert (h !! 1 = Some F) as HF by (vm_compute; reflexivity).
  split; [exact Hrun|]. split; [exact HF|]. split; [vm_compute; reflexivity|].
  exact (driver_keeps_the_trees current [] Scenario.no_comments Scenario.preflight_ok
           map_to_list Scenario.request_yx h [1; 0] 1 F Hrun HF).
Defined.

(** * The two revisions side by side *)

(** A name with a leading dot put in front when it has none. *)
Definition dotted (s : string) : string := if HasPrefix s "." then s else "." +:+ s.

(** The Common facet [cc] of the current revision beside [cl] of the
    legacy one: the same but for the full name, which has a leading dot. *)
Definition revision_of (cc cl : common) : Prop :=
  c_file cc = c_file cl ∧ c_path cc = c_path cl ∧ LongName cc = LongName cl
  ∧ OptionExtensions cc = OptionExtensions cl ∧ FullName cc = dotted (FullName cl).

(** Two file pointers with one address, one descriptor and one Comment
    Index. *)
Definition same_file (p p' : FilePtr) : Prop :=
  ptr_addr p = ptr_addr p' ∧ f_desc (ptr_deref p) = f_desc (ptr_deref p')
  ∧ f_comments (ptr_deref p) = f_comments (ptr_deref p').

Definition value_revision (vc vl : PKEnumValueDescriptor) : Prop :=
  revision_of (v_common vc) (v_common vl) ∧ GetComments_value vc = GetComments_value vl.

Definition enum_revision (ec el : PKEnumDescriptor) : Prop :=
  revision_of (e_common ec) (e_common el) ∧ GetComments_enum ec = GetComments_enum el
  ∧ Forall2 value_revision (e_Values ec) (e_Values el).

Definition extension_revision (xc xl : PKExtensionDescriptor) : Prop :=
  revision_of (x_common xc) (x_common xl)
  ∧ GetComments_extension xc = GetComments_extension xl.

Definition field_revision (fc fl : PKFieldDescriptor) : Prop :=
  revision_of (fl_common fc) (fl_common fl) ∧ GetComments_field fc = GetComments_field fl.

Definition message_revision (mc ml : PKDescriptor) : Prop :=
  revision_of (m_common mc) (m_common ml) ∧ GetComments_message mc = GetComments_message ml
  ∧ Forall2 enum_revision (m_Enums mc) (m_Enums ml)
  ∧ Forall2 extension_revision (m_Extensions mc) (m_Extensions ml)
  ∧ Forall2 field_revision (m_Fields mc) (m_Fields ml).

Definition method_revision (mc ml : PKMethodDescriptor) : Prop :=
  revision_of (md_common mc) (md_common ml) ∧ GetComments_method mc = GetComments_method ml.

Definition service_revision (sc sl : PKServiceDescriptor) : Prop :=
  revision_of (s_common sc) (s_common sl) ∧ GetComments_service sc = GetComments_service sl
  ∧ Forall2 method_revision (s_Methods sc) (s_Methods sl).

Lemma Forall2_range_loop {A B C} (R : B → C → Prop) (body1 : nat → A → B)
    (body2 : nat → A → C) (xs : list A) :
  (∀ i x, xs !! i = Some x → R (body1 i x) (body2 i x)) →
  Forall2 R (range_loop body1 xs) (range_loop body2 xs).
Proof.
  intros Hbody. apply Forall2_lookup. intros i. rewrite !range_loop_lookup.
  destruct (xs !! i) as [x|] eqn:Hx; cbn; constructor. by apply Hbody.
Qed.

Section revisions.
Variable GlobalTypes : list ExtensionType.

Lemma newCommon_revisions p p' path longName :
  same_file p p' →
  revision_of (newCommon current p path longName) (newCommon legacy p' path longName).
Proof.
  intros (Ha & Hd & _). unfold revision_of, newCommon, dotted, PKFileDescriptor_GetPackage.
  cbn [c_file c_path LongName FullName OptionExtensions]. rewrite Hd.
  split_and!; [done..|]. destruct (HasPrefix longName ".") eqn:Hl; cbn [negb].
  - by rewrite Hl.
  - by destruct (HasPrefix (Sprintf_s_s _ _) ".").
Qed.

Lemma with_options_revisions cc cl o :
  revision_of cc cl →
  revision_of (with_options GlobalTypes cc o) (with_options GlobalTypes cl o).
Proof.
  intros (Hf & Hp & Hl & Ho & Hn). destruct o as [options|]; [|done].
  unfold revision_of. cbn. by rewrite Ho.
Qed.

Lemma built_revisions p p' path longName o :
  same_file p p' →
  revision_of (with_options GlobalTypes (newCommon current p path longName) o)
    (with_options GlobalTypes (newCommon legacy p' path longName) o).
Proof. intros Hp. by apply with_options_revisions, newCommon_revisions. Qed.

Lemma parseEnumValues_revisions p p' ec el protos :
  same_file p p' → revision_of ec el →
  Forall2 value_revision (parseEnumValues current GlobalTypes p ec protos)
    (parseEnumValues legacy GlobalTypes p' el protos).
Proof.
  intros Hp (_ & Hpath & Hl & _). apply Forall2_range_loop. intros i vd _.
  unfold value_revision, GetComments_value, comments_of. cbn [v_common v_Comments].
  rewrite Hl, Hpath.
  assert (f_comments (ptr_deref p) = f_comments (ptr_deref p')) as -> by apply Hp.
  split; [|done]. by apply built_revisions.
Qed.

Lemma parseEnums_revisions p p' parentc parentl protos :
  same_file p p' → option_Forall2 revision_of parentc parentl →
  Forall2 enum_revision (parseEnums current GlobalTypes p parentc protos)
    (parseEnums legacy GlobalTypes p' parentl protos).
Proof.
  intros Hp Hparent. apply Forall2_range_loop. intros i ed _.
  unfold enum_revision, GetComments_enum, comments_of. cbn [e_common e_Comments e_Values].
  assert (f_comments (ptr_deref p) = f_comments (ptr_deref p')) as -> by apply Hp.
  destruct Hparent as [pc pl (_ & Hpath & Hl & _)|]; rewrite ?Hl, ?Hpath.
  all: split_and!; [by apply built_revisions | done |].
  all: apply parseEnumValues_revisions; [done | by apply built_revisions].
Qed.

Lemma parseExtensions_revisions p p' parentc parentl protos :
  same_file p p' → option_Forall2 revision_of parentc parentl →
  Forall2 extension_revision (parseExtensions current GlobalTypes p parentc protos)
    (parseExtensions legacy GlobalTypes p' parentl protos).
Proof.
  intros Hp Hparent. apply Forall2_range_loop. intros i ext _.
  unfold extension_revision, GetComments_extension, comments_of, PKFileDescriptor_GetPackage.
  cbn [x_common x_Comments].
  assert (f_comments (ptr_deref p) = f_comments (ptr_deref p')) as -> by apply Hp.
  assert (f_desc (ptr_deref p) = f_desc (ptr_deref p')) as -> by apply Hp.
  destruct Hparent as [pc pl (_ & Hpath & Hl & _)|]; rewrite ?Hpath.
  all: split; [by apply built_revisions | done].
Qed.

Lemma parseMessageFields_revisions p p' mc ml protos :
  same_file p p' → revision_of mc ml →
  Forall2 field_revision (parseMessageFields current GlobalTypes p mc protos)
    (parseMessageFields legacy GlobalTypes p' ml protos).
Proof.
  intros Hp (_ & Hpath & Hl & _). apply Forall2_range_loop. intros i fd _.
  unfold field_revision, GetComments_field, comments_of. cbn [fl_common fl_Comments].
  rewrite Hl, Hpath.
  assert (f_comments (ptr_deref p) = f_comments (ptr_deref p')) as -> by apply Hp.
  split; [|done]. by apply built_revisions.
Qed.

Lemma parseServiceMethods_revisions p p' sc sl protos :
  same_file p p' → revision_of sc sl →
  Forall2 method_revision (parseServiceMethods current GlobalTypes p sc protos)
    (parseServiceMethods legacy GlobalTypes p' sl protos).
Proof.
  intros Hp (_ & Hpath & Hl & _). apply Forall2_range_loop. intros i md _.
  unfold method_revision, GetComments_method, comments_of. cbn [md_common md_Comments].
  rewrite Hl, Hpath.
  assert (f_comments (ptr_deref p) = f_comments (ptr_deref p')) as -> by apply Hp.
  split; [|done]. by apply built_revisions.
Qed.

Lemma parseServices_revisions p p' protos :
  same_file p p' →
  Forall2 service_revision (parseServices current GlobalTypes p protos)
    (parseServices legacy GlobalTypes p' protos).
Proof.
  intros Hp. apply Forall2_range_loop. intros i sd _.
  unfold service_revision, GetComments_service, comments_of.
  cbn [s_common s_Comments s_Methods].
  assert (f_comments (ptr_deref p) = f_comments (ptr_deref p')) as -> by apply Hp.
  split_and!; [by apply built_revisions | done |].
  apply parseServiceMethods_revisions; [done | by apply built_revisions].
Qed.

Lemma message_common_revisions p p' parentc parentl i md :
  same_file p p' → option_Forall2 revision_of parentc parentl →
  revision_of (message_common current GlobalTypes p parentc i md)
    (message_common legacy GlobalTypes p' parentl i md).
Proof.
  intros Hp Hparent. unfold message_common, nested_name, nested_path.
  destruct Hparent as [pc pl (_ & Hpath & Hl & _)|]; rewrite ?Hl, ?Hpath;
    by apply built_revisions.
Qed.

Lemma msg_flatten_revisions md :
  ∀ p p' parentc parentl i,
    same_file p p' → option_Forall2 revision_of parentc parentl →
    Forall2 message_revision
      (msg_flatten (parseMessage current GlobalTypes p parentc i md))
      (msg_flatten (parseMessage legacy GlobalTypes p' parentl i md)).
Proof.
  induction md as [md IH] using DescriptorProto_nested_ind.
  intros p p' parentc parentl i Hp Hparent.
  pose proof (message_common_revisions _ _ _ _ i md Hp Hparent) as Hc.
  rewrite !msg_flatten_unfold, !parseMessage_unfold.
  cbn [m_Messages]. constructor.
  - unfold message_revision, GetComments_message, comments_of, nested_path.
    cbn [m_common m_Comments m_Enums m_Extensions m_Fields].
    assert (f_comments (ptr_deref p) = f_comments (ptr_deref p')) as -> by apply Hp.
    split_and!.
    + done.
    + by destruct Hparent as [pc pl (_ & -> & _)|].
    + apply parseEnums_revisions; [done | by constructor].
    + apply parseExtensions_revisions; [done | by constructor].
    + by apply parseMessageFields_revisions.
  - apply Forall2_bind. apply Forall2_range_loop. intros k x Hx.
    rewrite Forall_lookup in IH. apply (IH k x Hx); [done | by constructor].
Qed.

Lemma all_messages_revisions p p' protos :
  same_file p p' →
  Forall2 message_revision
    (parseMessages current GlobalTypes p None protos ≫= msg_flatten)
    (parseMessages legacy GlobalTypes p' None protos ≫= msg_flatten).
Proof.
  intros Hp. apply Forall2_bind. apply Forall2_range_loop. intros k x _.
  apply msg_flatten_revisions; [done | constructor].
Qed.
End revisions.

Lemma points_to_same_file ParseComments self fd p p' :
  points_to ParseComments self fd p → points_to ParseComments self fd p' → same_file p p'.
Proof.
  unfold points_to, same_file. intros (Ha & Hd & Hc) (Ha' & Hd' & Hc').
  split_and!; congruence.
Qed.

(** X16: what the current revision changed in the tree of a file.  For
    one descriptor, the entities that the two revisions of [parseFile]
    build correspond one to one, in the same order; corresponding entities
    have the same file pointer, path, long name, option extensions and
    comment, and the full name of the current revision is the full name of
    the legacy revision with a leading dot put in front when it has none. *)
Theorem revisions_differ_in_full_names GlobalTypes ParseComments allFilesMap allFilesMap'
    self fd Fc Fl :
  parseFile current GlobalTypes ParseComments allFilesMap self fd = Returned Fc →
  parseFile legacy GlobalTypes ParseComments allFilesMap' self fd = Returned Fl →
  Forall2 revision_of (file_commons Fc) (file_commons Fl)
  ∧ file_entity_comments Fc = file_entity_comments Fl
  ∧ f_OptionExtensions Fc = f_OptionExtensions Fl
  ∧ f_PackageComments Fc = f_PackageComments Fl
  ∧ f_SyntaxComments Fc = f_SyntaxComments Fl.
Proof.
  intros Hc Hl.
  destruct (parseFile_Returned _ _ _ _ _ _ _ Hc)
    as (_ & _ & (pe & Hpe & HE) & (px & Hpx & HX) & (pm & Hpm & HM) & (ps & Hps & _ & HS)).
  destruct (parseFile_Returned _ _ _ _ _ _ _ Hl)
    as (_ & _ & (pe' & Hpe' & HE') & (px' & Hpx' & HX') & (pm' & Hpm' & HM')
        & (ps' & Hps' & _ & HS')).
  assert (Forall2 message_revision (all_messages Fc) (all_messages Fl)) as Hmsgs.
  { unfold all_messages. rewrite HM, HM'.
    apply all_messages_revisions. by eapply points_to_same_file. }
  assert (Forall2 enum_revision (all_enums Fc) (all_enums Fl)) as Henums.
  { unfold all_enums. apply Forall2_app.
    - rewrite HE, HE'. apply parseEnums_revisions; [|constructor].
      by eapply points_to_same_file.
    - apply Forall2_bind. eapply Forall2_impl; [exact Hmsgs|].
      by intros mc ml (_ & _ & ? & _). }
  assert (Forall2 extension_revision (all_extensions Fc) (all_extensions Fl)) as Hexts.
  { unfold all_extensions. apply Forall2_app.
    - rewrite HX, HX'. apply parseExtensions_revisions; [|constructor].
      by eapply points_to_same_file.
    - apply Forall2_bind. eapply Forall2_impl; [exact Hmsgs|].
      by intros mc ml (_ & _ & _ & ? & _). }
  assert (Forall2 field_revision (all_fields Fc) (all_fields Fl)) as Hfields.
  { unfold all_fields. apply Forall2_bind. eapply Forall2_impl; [exact Hmsgs|].
    by intros mc ml (_ & _ & _ & _ & ?). }
  assert (Forall2 value_revision (all_values Fc) (all_values Fl)) as Hvalues.
  { unfold all_values. apply Forall2_bind. eapply Forall2_impl; [exact Henums|].
    by intros ec el (_ & _ & ?). }
  assert (Forall2 service_revision (f_Services Fc) (f_Services Fl)) as Hsvcs.
  { rewrite HS, HS'. apply parseServices_revisions. by eapply points_to_same_file. }
  assert (Forall2 method_revision (all_methods Fc) (all_methods Fl)) as Hmethods.
  { unfold all_methods. apply Forall2_bind. eapply Forall2_impl; [exact Hsvcs|].
    by intros sc sl (_ & _ & ?). }
  split_and!.
  - unfold file_commons. repeat apply Forall2_app; apply Forall2_fmap_2.
    + eapply Forall2_impl; [exact Hmsgs|]. by intros ?? [? _].
    + eapply Forall2_impl; [exact Henums|]. by intros ?? [? _].
    + eapply Forall2_impl; [exact Hvalues|]. by intros ?? [? _].
    + eapply Forall2_impl; [exact Hfields|]. by intros ?? [? _].
    + eapply Forall2_impl; [exact Hexts|]. by intros ?? [? _].
    + eapply Forall2_impl; [exact Hsvcs|]. by intros ?? [? _].
    + eapply Forall2_impl; [exact Hmethods|]. by intros ?? [? _].
  - apply list_eq_Forall2. unfold file_entity_comments.
    repeat apply Forall2_app; apply Forall2_fmap_2.
    + eapply Forall2_impl; [exact Hmsgs|]. by intros ?? (_ & ? & _).
    + eapply Forall2_impl; [exact Henums|]. by intros ?? (_ & ? & _).
    + eapply Forall2_impl; [exact Hvalues|]. by intros ?? (_ & ?).
    + eapply Forall2_impl; [exact Hfields|]. by intros ?? (_ & ?).
    + eapply Forall2_impl; [exact Hexts|]. by intros ?? (_ & ?).
    + eapply Forall2_impl; [exact Hsvcs|]. by intros ?? (_ & ? & _).
    + eapply Forall2_impl; [exact Hmethods|]. by intros ?? (_ & ?).
  - by rewrite (parseFile_OptionExtensions _ _ _ _ _ _ _ Hc),
      (parseFile_OptionExtensions _ _ _ _ _ _ _ Hl).
  - unfold parseFile in Hc, Hl.
    destruct (for_each _ _ _) in Hc; unfold_outcome; by simplify_eq/=.
  - unfold parseFile in Hc, Hl.
    destruct (for_each _ _ _) in Hc; unfold_outcome; by simplify_eq/=.
Qed.

(** [ab.proto] in both revisions: eight entities each, with the full names
    of the current revision those of the legacy one behind a dot. *)
Lemma revisions_differ_in_full_names_witness :
  let Fc := built_file current Scenario.ab_proto in
  let Fl := built_file legacy Scenario.ab_proto in
  Scenario.build current Scenario.ab_proto = Returned Fc
  ∧ Scenario.build legacy Scenario.ab_proto = Returned Fl
  ∧ length (file_commons Fc) = 8
  ∧ Forall2 revision_of (file_commons Fc) (file_commons Fl)
  ∧ file_entity_comments Fc = file_entity_comments Fl.
Proof.
  intros Fc Fl.
  pose proof (built_file_ab current) as Hc. pose proof (built_file_ab legacy) as Hl.
  split; [exact Hc|]. split; [exact Hl|]. split; [vm_compute; reflexivity|].
  destruct (revisions_differ_in_full_names [] Scenario.no_comments ∅ ∅ 0 Scenario.ab_proto
              Fc Fl Hc Hl) as (Hcommons & Hcomments & _).
  split; [exact Hcommons | exact Hcomments].
Defined.
